(** * ShogiAnalyzer: the browser client (assets_web/js/app.js) and the
      server-side game tree and analysis cadence of the design document.

    The development follows the layout of [app.js]: JavaScript values and the
    coercions the handlers use, the small helpers ([clamp], [sendWs],
    [firstChildId]), the WebSocket message handlers, the listeners that send
    frames, and the shogi drop rules.  Handlers are functions from the state
    to the new state and the list of their effects (frames sent, toasts
    shown); the selection on the board and the moves of the pieces have
    modules of their own; rendering, the theme and the HTTP calls are left
    out, as they write none of the state read here.  The server
    operations ([play_move], [reorder_children], the analysis coalescer) are
    not part of the shipped assets; they are modelled from the specification
    in their own modules. *)

From Stdlib Require Import ZArith QArith Qminmax List String Ascii Bool Lia Permutation.
From stdpp Require Import gmap strings.
Import ListNotations.

Local Open Scope string_scope.
Local Open Scope list_scope.

(* ===================================================================== *)
(** ** JavaScript values                                                  *)
(* ===================================================================== *)

Module JS.

(** A JavaScript number: a finite double as the rational it denotes, [NaN]
    and the two infinities.  The two zeros are the one value [Fin 0]: they
    are equal under [===], [>=] and [<], both are falsy, and nothing below
    divides by them.  A number that comes with a payload may be any
    rational; a number read from a string is rounded to a double by
    [to_double]. *)
Inductive num : Type :=
| NaN
| PInf
| NInf
| Fin (q : Q).

(** Primitive values: what a JSON scalar, or a missing property, evaluates
    to.  Objects are records of the development. *)
Inductive jsval : Type :=
| JUndefined
| JNull
| JBool (b : bool)
| JNum (n : num)
| JStr (s : string).

(** ToBoolean. *)
Definition truthy (v : jsval) : bool :=
  match v with
  | JUndefined | JNull => false
  | JBool b => b
  | JNum NaN => false
  | JNum (Fin q) => negb (Qeq_bool q 0)
  | JNum _ => true
  | JStr s => negb (String.eqb s "")
  end.

(** [a || b]. *)
Definition or_else (a b : jsval) : jsval := if truthy a then a else b.

(** *** Rounding to a double *)

(** [n / d] rounded to the nearest integer, ties to the even one, for
    [0 <= n] and [0 < d]. *)
Definition round_half_even (n d : Z) : Z :=
  let q := (n / d)%Z in
  match (2 * (n mod d) ?= d)%Z with
  | Lt => q
  | Gt => (q + 1)%Z
  | Eq => if Z.even q then q else (q + 1)%Z
  end.

(** The exponent [e] with [2^e <= n / d < 2^(e+1)], for [0 < n]. *)
Definition floor_log2 (n : Z) (d : positive) : Z :=
  let e0 := (Z.log2 n - Z.log2 (Zpos d))%Z in
  let below :=
    if (0 <=? e0)%Z then (n <? Zpos d * 2 ^ e0)%Z
    else (n * 2 ^ (- e0) <? Zpos d)%Z in
  if below then (e0 - 1)%Z else e0.

(** The Number value for a mathematical value: the nearest double, ties to
    the even significand; 53 bits of significand down to the exponent of the
    subnormals, [2^-1074]; an infinity from [2^1024] on after rounding; zero
    when the value rounds to no subnormal. *)
Definition to_double (q : Q) : num :=
  let n := Z.abs (Qnum q) in
  let d := Qden q in
  let neg := (Qnum q <? 0)%Z in
  if (n =? 0)%Z then Fin 0
  else
    let e := floor_log2 n d in
    let p := Z.max (e - 52) (-1074) in
    let m :=
      if (0 <=? p)%Z then round_half_even n (Zpos d * 2 ^ p)
      else round_half_even (n * 2 ^ (- p)) (Zpos d) in
    if (0 <=? p)%Z && (2 ^ 1024 <=? m * 2 ^ p)%Z then
      if neg then NInf else PInf
    else
      let v :=
        if (0 <=? p)%Z then inject_Z (m * 2 ^ p)
        else Qred (Qmake m (Z.to_pos (2 ^ (- p)))) in
      Fin (if neg then Qopp v else v).

(** *** White space *)

(** The white space and line terminators that StringToNumber and
    [String.prototype.trim] strip.  A string is the sequence of the bytes of
    its UTF-8 form, so a code point past U+007F is two or three bytes: TAB,
    LF, VT, FF, CR and SP; U+00A0; U+1680, U+2000 to U+200A, U+2028, U+2029,
    U+202F, U+205F, U+3000 and U+FEFF. *)
Definition white1 (a : nat) : bool :=
  match a with
  | 9%nat | 10%nat | 11%nat | 12%nat | 13%nat | 32%nat => true
  | _ => false
  end.

Definition white2 (a b : nat) : bool := Nat.eqb a 194 && Nat.eqb b 160.

Definition white3 (a b c : nat) : bool :=
  Nat.eqb a 225 && Nat.eqb b 154 && Nat.eqb c 128
  || Nat.eqb a 226 && Nat.eqb b 128
     && (Nat.leb 128 c && Nat.leb c 138 || Nat.eqb c 168 || Nat.eqb c 169
         || Nat.eqb c 175)
  || Nat.eqb a 226 && Nat.eqb b 129 && Nat.eqb c 159
  || Nat.eqb a 227 && Nat.eqb b 128 && Nat.eqb c 128
  || Nat.eqb a 239 && Nat.eqb b 187 && Nat.eqb c 191.

(** The string without its leading white space. *)
Fixpoint drop_white (l : list ascii) : list ascii :=
  match l with
  | [] => []
  | a :: r1 =>
      if white1 (nat_of_ascii a) then drop_white r1
      else
        match r1 with
        | [] => l
        | b :: r2 =>
            if white2 (nat_of_ascii a) (nat_of_ascii b) then drop_white r2
            else
              match r2 with
              | [] => l
              | c :: r3 =>
                  if white3 (nat_of_ascii a) (nat_of_ascii b) (nat_of_ascii c)
                  then drop_white r3
                  else l
              end
        end
  end.

(** The same from the end, on the reversed string: the bytes of a code point
    come last byte first. *)
Fixpoint drop_white_end (l : list ascii) : list ascii :=
  match l with
  | [] => []
  | a :: r1 =>
      if white1 (nat_of_ascii a) then drop_white_end r1
      else
        match r1 with
        | [] => l
        | b :: r2 =>
            if white2 (nat_of_ascii b) (nat_of_ascii a) then drop_white_end r2
            else
              match r2 with
              | [] => l
              | c :: r3 =>
                  if white3 (nat_of_ascii c) (nat_of_ascii b) (nat_of_ascii a)
                  then drop_white_end r3
                  else l
              end
        end
  end.

Definition trim_chars (l : list ascii) : list ascii :=
  rev (drop_white_end (rev (drop_white l))).

(** *** StringToNumber *)

(** Value of a digit in the given base, if it is one. *)
Definition digit_val (base : Z) (c : ascii) : option Z :=
  let n := Z.of_nat (nat_of_ascii c) in
  let d :=
    if (48 <=? n)%Z && (n <=? 57)%Z then Some (n - 48)%Z
    else if (97 <=? n)%Z && (n <=? 102)%Z then Some (n - 87)%Z
    else if (65 <=? n)%Z && (n <=? 70)%Z then Some (n - 55)%Z
    else None in
  match d with
  | Some v => if (v <? base)%Z then Some v else None
  | None => None
  end.

(** Longest prefix of digits: its value, its length and the rest. *)
Fixpoint read_digits (base acc : Z) (cnt : nat) (l : list ascii)
  : Z * nat * list ascii :=
  match l with
  | c :: r =>
      match digit_val base c with
      | Some v => read_digits base (acc * base + v)%Z (S cnt) r
      | None => (acc, cnt, l)
      end
  | [] => (acc, cnt, [])
  end.

Definition non_decimal (base : Z) (l : list ascii) : num :=
  match read_digits base 0 0 l with
  | (v, S _, []) => to_double (inject_Z v)
  | _ => NaN
  end.

Definition pow10 (n : nat) : Z := (10 ^ Z.of_nat n)%Z.

(** ExponentPart: [e] or [E], an optional sign, at least one digit. *)
Definition read_exponent (l : list ascii) : option (Z * list ascii) :=
  match l with
  | c :: r =>
      if Ascii.eqb c "e" || Ascii.eqb c "E" then
        let '(neg, r') :=
          match r with
          | s :: r1 =>
              if Ascii.eqb s "-" then (true, r1)
              else if Ascii.eqb s "+" then (false, r1)
              else (false, r)
          | [] => (false, r)
          end in
        match read_digits 10 0 0 r' with
        | (e, S _, rest) => Some (if neg then (- e)%Z else e, rest)
        | _ => None
        end
      else Some (0%Z, l)
  | [] => Some (0%Z, [])
  end.

(** The mathematical value of a StrUnsignedDecimalLiteral other than
    [Infinity]. *)
Definition unsigned_decimal (l : list ascii) : option Q :=
  let '(i, ni, r1) := read_digits 10 0 0 l in
  let '(f, nf, r2) :=
    match r1 with
    | c :: r => if Ascii.eqb c "." then read_digits 10 0 0 r else (0%Z, 0%nat, r1)
    | [] => (0%Z, 0%nat, r1)
    end in
  match (ni + nf)%nat with
  | O => None
  | S _ =>
      match read_exponent r2 with
      | Some (e, []) =>
          Some (Qmult (Qmake (i * pow10 nf + f) (Z.to_pos (pow10 nf)))
                      (Qpower (inject_Z 10) e))
      | _ => None
      end
  end.

Definition signed_decimal (l : list ascii) : num :=
  let '(neg, body) :=
    match l with
    | c :: r =>
        if Ascii.eqb c "-" then (true, r)
        else if Ascii.eqb c "+" then (false, r)
        else (false, l)
    | [] => (false, l)
    end in
  if String.eqb (string_of_list_ascii body) "Infinity" then
    if neg then NInf else PInf
  else
    match unsigned_decimal body with
    | Some q => to_double (if neg then Qopp q else q)
    | None => NaN
    end.

Definition StringToNumber (s : string) : num :=
  match trim_chars (list_ascii_of_string s) with
  | [] => Fin 0
  | c0 :: c1 :: r =>
      if Ascii.eqb c0 "0" && (Ascii.eqb c1 "x" || Ascii.eqb c1 "X") then non_decimal 16 r
      else if Ascii.eqb c0 "0" && (Ascii.eqb c1 "o" || Ascii.eqb c1 "O") then non_decimal 8 r
      else if Ascii.eqb c0 "0" && (Ascii.eqb c1 "b" || Ascii.eqb c1 "B") then non_decimal 2 r
      else signed_decimal (c0 :: c1 :: r)
  | l => signed_decimal l
  end.

(** [Number(v)]. *)
Definition Number (v : jsval) : num :=
  match v with
  | JUndefined => NaN
  | JNull => Fin 0
  | JBool b => if b then Fin 1 else Fin 0
  | JNum n => n
  | JStr s => StringToNumber s
  end.

(** [Math.max] and [Math.min] on two arguments. *)
Definition Math_max (a b : num) : num :=
  match a, b with
  | NaN, _ | _, NaN => NaN
  | PInf, _ | _, PInf => PInf
  | NInf, x | x, NInf => x
  | Fin x, Fin y => Fin (if Qle_bool x y then y else x)
  end.

Definition Math_min (a b : num) : num :=
  match a, b with
  | NaN, _ | _, NaN => NaN
  | NInf, _ | _, NInf => NInf
  | PInf, x | x, PInf => x
  | Fin x, Fin y => Fin (if Qle_bool x y then x else y)
  end.

(** [a >= b] on numbers; every comparison with [NaN] is false. *)
Definition ge (a b : num) : bool :=
  match a, b with
  | NaN, _ | _, NaN => false
  | PInf, _ => true
  | _, NInf => true
  | NInf, _ => false
  | _, PInf => false
  | Fin x, Fin y => Qle_bool y x
  end.

(** [a !== b] on numbers ([NaN] differs from everything, itself included). *)
Definition num_strict_ne (a b : num) : bool :=
  match a, b with
  | Fin x, Fin y => negb (Qeq_bool x y)
  | PInf, PInf | NInf, NInf => false
  | _, _ => true
  end.

(** [a < b] on numbers. *)
Definition lt (a b : num) : bool :=
  match a, b with
  | NaN, _ | _, NaN => false
  | PInf, _ => false
  | _, NInf => false
  | NInf, _ => true
  | _, PInf => true
  | Fin x, Fin y => negb (Qle_bool y x)
  end.

(** The same number: the same rational, or the same special value. *)
Definition num_eq (a b : num) : Prop :=
  match a, b with
  | Fin x, Fin y => Qeq x y
  | NaN, NaN | PInf, PInf | NInf, NInf => True
  | _, _ => False
  end.

(** A number between [lo] and [hi]; [NaN] is not. *)
Definition between (lo hi : Q) (n : num) : Prop :=
  match n with
  | Fin q => Qle lo q /\ Qle q hi
  | _ => False
  end.

End JS.
Import JS.


(* ===================================================================== *)
(** ** The client: state, frames and [sendWs]                             *)
(* ===================================================================== *)

Module Client.

(** [WebSocket.readyState]. *)
Inductive readyState : Type := CONNECTING | OPEN | CLOSING | CLOSED.

(** A principal-variation line as the analysis panel reads it. *)
Record PVLine : Type := {
  score_type : jsval;
  score_value : jsval;
  pv_usi : list string
}.

(** The part of [FullGameState] the handlers below read: [nodes] keeps the
    [node_id] and the [parent_id] of each entry.  A missing [ui_state], or a
    missing key of it, reads as [JUndefined]. *)
Record Game : Type := {
  root_node_id : option string;
  current_node_id : option string;
  current_path_node_ids : list string;
  nodes : list (string * option string);
  children_index : gmap string (list string);
  ui_analysis_enabled : jsval;
  ui_analysis_multipv : jsval
}.

Record Analysis : Type := {
  available : bool;
  enabled : bool;
  multipv : num;
  statusText : string;
  elapsedMs : num;
  nodeId : option string;
  lines : list PVLine;
  history : list num
}.

(** [state], and beside it the part of the page that decides which jumps
    can be asked for: [moveItems] and [treeItems], the node ids bound to the
    click listeners of the rendered move list and tree.  [ws] is [None]
    before the first [connectWs]. *)
Record State : Type := {
  ws : option readyState;
  hasGranted : bool;
  isOwner : bool;
  sessionId : jsval;
  ownerToken : jsval;
  game : option Game;
  moveItems : list string;
  treeItems : list string;
  analysis : Analysis
}.

Definition initial : State := {|
  ws := None;
  hasGranted := false;
  isOwner := false;
  sessionId := JNull;
  ownerToken := JNull;
  game := None;
  moveItems := [];
  treeItems := [];
  analysis := {|
    available := false; enabled := false; multipv := Fin 1;
    statusText := "stopped"; elapsedMs := Fin 0; nodeId := None;
    lines := []; history := [] |}
|}.

(** The object handed to [JSON.stringify] in [sendWs]: [session_id] and
    [owner_token] are keys that may be absent. *)
Record Frame : Type := {
  f_type : string;
  f_payload : list (string * jsval);
  f_session_id : option jsval;
  f_owner_token : option jsval
}.

(** What a handler does to the outside: a frame on the socket or a toast
    element (its class and its text) appended to the toast host. *)
Inductive effect : Type :=
| Sent (f : Frame)
| Toasted (className text : string).

(** The elements of [els] whose presence the handlers test. *)
Record Els : Type := { toastHost : bool; moveList : bool; treeList : bool }.

(** [String.prototype.trim]. *)
Definition trim (s : string) : string :=
  string_of_list_ascii (trim_chars (list_ascii_of_string s)).

(** [toast(level, message)], for string arguments. *)
Definition toast (els : Els) (level message : string) : list effect :=
  if toastHost els then
    [Toasted (trim ("toast " ++ (if String.eqb level "" then "info" else level))) message]
  else [].

(** [sendWs(type, payload)]. *)
Definition sendWs (st : State) (type : string) (payload : list (string * jsval))
  : list effect :=
  match ws st with
  | Some OPEN =>
      [Sent {| f_type := type;
               f_payload := payload;
               f_session_id := if truthy (sessionId st) then Some (sessionId st) else None;
               f_owner_token := if truthy (ownerToken st) then Some (ownerToken st) else None |}]
  | _ => []
  end.

(** [clamp(n, a, b)]. *)
Definition clamp (n a b : num) : num := Math_min b (Math_max a n).

(** A node id used as a condition: [null] and the empty string are falsy. *)
Definition truthy_id (o : option string) : bool :=
  match o with
  | Some s => negb (String.eqb s "")
  | None => false
  end.

(** [parentOf(nodeId)]: the parent of the first node with that id, when it
    is truthy. *)
Definition parentOf (g : option Game) (nodeId : string) : option string :=
  match g with
  | Some gm =>
      match find (fun n => String.eqb (fst n) nodeId) (nodes gm) with
      | Some (_, Some p) => if String.eqb p "" then None else Some p
      | _ => None
      end
  | None => None
  end.

(** [firstChildId(nodeId)]. *)
Definition firstChildId (g : option Game) (nodeId : string) : option string :=
  match g with
  | Some gm =>
      match children_index gm !! nodeId with
      | Some (c :: _) => Some c
      | _ => None
      end
  | None => None
  end.

(** [scoreToCpLike(line)]; [None] is [null]. *)
Definition scoreToCpLike (line : option PVLine) : option num :=
  match line with
  | None => None
  | Some l =>
      match score_type l with
      | JStr t =>
          if String.eqb t "cp" then Some (Number (or_else (score_value l) (JNum (Fin 0))))
          else if String.eqb t "mate" then
            let v := Number (or_else (score_value l) (JNum (Fin 0))) in
            let sign := if ge v (Fin 0) then 1%Z else (-1)%Z in
            Some (Fin (inject_Z (sign * 30000)))
          else None
      | _ => None
      end
  end.

(** *** Messages from the server *)

(** The payload of [session:granted].  [g_last_error] is
    [engine_status.last_error], a string when present. *)
Record GrantedPayload : Type := {
  g_session_id : jsval;
  g_owner_token : jsval;
  g_caps_analysis : jsval;
  g_analysis_enabled : jsval;
  g_analysis_multipv : jsval;
  g_last_error : option string;
  g_game : option Game
}.

Inductive ServerMsg : Type :=
| MsgToast (level message : string)
| MsgSessionBusy
| MsgSessionKicked
| MsgSessionStale
| MsgSessionGranted (p : GrantedPayload)
| MsgGameState (g : option Game)
| MsgAnalysisUpdate (node_id : option string) (elapsed_ms : jsval)
    (ls : list PVLine) (bestline : option PVLine)
| MsgAnalysisStopped (reason : option string)
| MsgOther.

Definition with_analysis (st : State) (a : Analysis) : State :=
  {| ws := ws st; hasGranted := hasGranted st; isOwner := isOwner st;
     sessionId := sessionId st; ownerToken := ownerToken st;
     game := game st; moveItems := moveItems st;
     treeItems := treeItems st; analysis := a |}.

Definition with_game (st : State) (g : option Game) : State :=
  {| ws := ws st; hasGranted := hasGranted st; isOwner := isOwner st;
     sessionId := sessionId st; ownerToken := ownerToken st;
     game := g; moveItems := moveItems st;
     treeItems := treeItems st; analysis := analysis st |}.

Definition with_ws (st : State) (w : option readyState) : State :=
  {| ws := w; hasGranted := hasGranted st; isOwner := isOwner st;
     sessionId := sessionId st; ownerToken := ownerToken st;
     game := game st; moveItems := moveItems st;
     treeItems := treeItems st; analysis := analysis st |}.

Definition with_items (st : State) (moves tree : list string) : State :=
  {| ws := ws st; hasGranted := hasGranted st; isOwner := isOwner st;
     sessionId := sessionId st; ownerToken := ownerToken st;
     game := game st; moveItems := moves; treeItems := tree;
     analysis := analysis st |}.

(** The four assignments shared by [close], [session:busy],
    [session:kicked] and [session:stale]. *)
Definition revoke (st : State) : State :=
  {| ws := ws st; hasGranted := false; isOwner := false;
     sessionId := JNull; ownerToken := JNull;
     game := game st; moveItems := moveItems st;
     treeItems := treeItems st; analysis := analysis st |}.

(** [nodeById(id)] finds a node. *)
Definition hasNode (g : Game) (id : string) : bool :=
  match find (fun n => String.eqb (fst n) id) (nodes g) with
  | Some _ => true
  | None => false
  end.

(** The ids of [childrenOf(nodeId)]: the listed children that [nodeById]
    finds. *)
Definition childrenOf (g : Game) (nodeId : string) : list string :=
  match children_index g !! nodeId with
  | Some idx => List.filter (hasNode g) idx
  | None => []
  end.

(** The node ids that get a click listener in [renderMoveList]: the current
    path without the root, as far as [nodeById] finds the nodes. *)
Definition renderMoveList (els : Els) (g : Game) (old : list string) : list string :=
  if moveList els then List.filter (hasNode g) (tl (current_path_node_ids g))
  else old.

(** The node ids that get a button in [renderTree]: the siblings of the
    current node when there are several, then its children. *)
Definition renderTree (els : Els) (g : Game) (old : list string) : list string :=
  if treeList els then
    match current_node_id g with
    | Some cur =>
        if String.eqb cur "" then []
        else
          let sibs :=
            match parentOf (Some g) cur with
            | Some p => let s := childrenOf g p in
                        if Nat.ltb 1 (length s) then s else []
            | None => []
            end in
          sibs ++ childrenOf g cur
    | None => []
    end
  else old.

(** What [rerenderAll()] does to the two lists; without a game it returns
    at once. *)
Definition rerenderAll (els : Els) (st : State) : State :=
  match game st with
  | Some g =>
      with_items st (renderMoveList els g (moveItems st))
                    (renderTree els g (treeItems st))
  | None => st
  end.

(** [syncAnalysisFromGame()]. *)
Definition syncAnalysisFromGame (st : State) : State :=
  let a := analysis st in
  let ui_enabled := match game st with Some g => ui_analysis_enabled g | None => JUndefined end in
  let ui_multipv := match game st with Some g => ui_analysis_multipv g | None => JUndefined end in
  let en := truthy ui_enabled in
  let raw := Number (or_else ui_multipv (JNum (Fin 1))) in
  let mp := clamp raw (Fin 1) (Fin 5) in
  let curNode := match game st with Some g => current_node_id g | None => None end in
  let changed :=
    match nodeId a, curNode with
    | Some x, Some y =>
        negb (String.eqb x "") && negb (String.eqb y "") && negb (String.eqb x y)
    | _, _ => false
    end in
  if changed then
    with_analysis st
      {| available := available a; enabled := en; multipv := mp;
         statusText := if en then "starting..." else "stopped";
         elapsedMs := Fin 0; nodeId := nodeId a; lines := []; history := [] |}
  else
    with_analysis st
      {| available := available a; enabled := en; multipv := mp;
         statusText := statusText a; elapsedMs := elapsedMs a; nodeId := nodeId a;
         lines := lines a; history := history a |}.

(** *** The test [/(failed|timeout|not configured|exited|error)/i] *)

(** Canonicalisation under the [i] flag: ASCII lower-case letters are
    compared through their upper-case form. *)
Definition upper (c : ascii) : ascii :=
  let n := nat_of_ascii c in
  if (97 <=? n)%nat && (n <=? 122)%nat then ascii_of_nat (n - 32) else c.

Fixpoint starts_ci (pat s : list ascii) : bool :=
  match pat, s with
  | [], _ => true
  | p :: pr, c :: sr => Ascii.eqb (upper p) (upper c) && starts_ci pr sr
  | _ :: _, [] => false
  end.

Definition alternatives : list string :=
  ["failed"; "timeout"; "not configured"; "exited"; "error"].

(** Some alternative matches at the current position or at a later one. *)
Fixpoint test_from (alts : list string) (s : list ascii) : bool :=
  existsb (fun a => starts_ci (list_ascii_of_string a) s) alts
  || match s with
     | [] => false
     | _ :: r => test_from alts r
     end.

Definition engine_error_re (r : string) : bool :=
  test_from alternatives (list_ascii_of_string r).

(** *** The [message] listener of [connectWs] *)

Definition onGranted (els : Els) (st : State) (p : GrantedPayload)
  : State * list effect :=
  let n := Number (or_else (g_analysis_multipv p) (JNum (Fin 1))) in
  let rawMultipv := if truthy (JNum n) then n else Fin 1 in
  let a := analysis st in
  let st1 :=
    {| ws := ws st; hasGranted := true; isOwner := true;
       sessionId := or_else (g_session_id p) JNull;
       ownerToken := or_else (g_owner_token p) JNull;
       game := g_game p;
       moveItems := moveItems st; treeItems := treeItems st;
       analysis :=
         {| available := truthy (g_caps_analysis p);
            enabled := truthy (g_analysis_enabled p);
            multipv := clamp rawMultipv (Fin 1) (Fin 5);
            statusText := statusText a; elapsedMs := elapsedMs a;
            nodeId := nodeId a; lines := lines a; history := history a |} |} in
  let errToast :=
    match g_last_error p with
    | Some e => if String.eqb e "" then [] else toast els "error" e
    | None => []
    end in
  let st2 := rerenderAll els (syncAnalysisFromGame st1) in
  let normalize :=
    if available (analysis st2) && isOwner st2 && truthy (sessionId st2)
       && num_strict_ne rawMultipv (multipv (analysis st2))
    then sendWs st2 "analysis:set_multipv" [("multipv", JNum (multipv (analysis st2)))]
    else [] in
  (st2, errToast ++ normalize).

Definition onAnalysisUpdate (st : State) (node_id : option string)
  (elapsed_ms : jsval) (ls : list PVLine) (bestline : option PVLine) : State :=
  let a := analysis st in
  let cur := match game st with Some g => current_node_id g | None => None end in
  let nid := if truthy_id node_id then node_id
             else if truthy_id cur then cur else None in
  let best := match bestline with Some b => Some b | None => hd_error ls end in
  with_analysis st
    {| available := available a; enabled := enabled a; multipv := multipv a;
       statusText := "running";
       elapsedMs := Number (or_else elapsed_ms (JNum (Fin 0)));
       nodeId := nid; lines := ls;
       history := match scoreToCpLike best with
                  | Some v => history a ++ [v]
                  | None => history a
                  end |}.

Definition onAnalysisStopped (els : Els) (st : State) (reason : option string)
  : State * list effect :=
  let a := analysis st in
  let status := match reason with
                | Some r => if String.eqb r "" then "stopped" else r
                | None => "stopped"
                end in
  let r := match reason with Some r => r | None => "" end in
  (with_analysis st
     {| available := available a; enabled := enabled a; multipv := multipv a;
        statusText := status; elapsedMs := elapsedMs a; nodeId := nodeId a;
        lines := lines a; history := history a |},
   if engine_error_re r then toast els "error" r else []).

Definition onMessage (els : Els) (st : State) (m : ServerMsg)
  : State * list effect :=
  match m with
  | MsgToast level message =>
      (st, toast els (if String.eqb level "" then "info" else level) message)
  | MsgSessionBusy => (revoke st, [])
  | MsgSessionKicked => (revoke st, toast els "warning" "セッションが引き継がれました")
  | MsgSessionStale =>
      (with_ws (revoke st) (Some CLOSING), toast els "warning" "セッションが古い状態です。再接続します。")
  | MsgSessionGranted p => onGranted els st p
  | MsgGameState g => (rerenderAll els (syncAnalysisFromGame (with_game st g)), [])
  | MsgAnalysisUpdate node_id elapsed_ms ls bestline =>
      (onAnalysisUpdate st node_id elapsed_ms ls bestline, [])
  | MsgAnalysisStopped reason => onAnalysisStopped els st reason
  | MsgOther => (st, [])
  end.

(** *** The listeners of [wireUi] and of the rendered lists that call [sendWs] *)

(** [ClickMoveItem] and [ClickTreeItem] are clicks on the item that the
    move list, or the tree, shows for a node id (nothing happens when it
    shows none); [CommitMove usi] is [commitMove] reaching its [sendWs] with
    the move string built by [vendor/usi.js]; [AnswerTakeover] is the
    takeover answer to the dialog of [session:busy].  The [disabled] state
    of the controls is not represented: a listener may run here although the
    page has its control disabled. *)
Inductive UiAction : Type :=
| ClickNewGame
| ClickLoadSelected (id : string)
| ClickSave (title : string)
| ClickMoveItem (id : string)
| ClickTreeItem (id : string)
| ClickFlip
| ClickPlayPvFirst (line : PVLine)
| CommitMove (usi : string)
| AnswerTakeover
| ChangeMultipv (value : string)
| ClickAnalysisToggle
| ClickStart
| ClickPrev
| ClickNext.

Definition onUi (els : Els) (st : State) (a : UiAction) : State * list effect :=
  let cur := match game st with Some g => current_node_id g | None => None end in
  match a with
  | ClickNewGame => (st, sendWs st "game:new" [])
  | ClickSave title =>
      (st, sendWs st "game:save" [("title", JStr (trim title))]
           ++ toast els "info" "保存しました")
  | CommitMove usi =>
      (st, match cur with
           | Some c =>
               if String.eqb c "" || String.eqb usi "" then []
               else sendWs st "node:play_move"
                      [("from_node_id", JStr c); ("move_usi", JStr usi)]
           | None => []
           end)
  | ClickPrev =>
      (st, match cur with
           | Some c =>
               if String.eqb c "" then []
               else match parentOf (game st) c with
                    | Some p => sendWs st "node:jump" [("node_id", JStr p)]
                    | None => []
                    end
           | None => []
           end)
  | ClickLoadSelected id =>
      (st, if String.eqb id "" then [] else sendWs st "game:load" [("game_id", JStr id)])
  | ClickMoveItem id =>
      (st, if existsb (String.eqb id) (moveItems st)
           then sendWs st "node:jump" [("node_id", JStr id)] else [])
  | ClickTreeItem id =>
      (st, if existsb (String.eqb id) (treeItems st)
           then sendWs st "node:jump" [("node_id", JStr id)] else [])
  | ClickFlip => (rerenderAll els st, [])
  | ClickPlayPvFirst line =>
      (st, match hd_error (pv_usi line), cur with
           | Some first, Some c =>
               if String.eqb first "" || String.eqb c "" then []
               else sendWs st "node:play_move"
                      [("from_node_id", JStr c); ("move_usi", JStr first)]
           | _, _ => []
           end)
  | AnswerTakeover => (st, sendWs st "session:takeover" [])
  | ChangeMultipv value =>
      let v := clamp (Number (or_else (JStr value) (JNum (Fin 1)))) (Fin 1) (Fin 5) in
      (st, sendWs st "analysis:set_multipv" [("multipv", JNum v)])
  | ClickAnalysisToggle =>
      let an := analysis st in
      if available an then
        let next := negb (enabled an) in
        let st' := with_analysis st
          {| available := available an; enabled := next; multipv := multipv an;
             statusText := if next then "starting..." else "stopped";
             elapsedMs := elapsedMs an; nodeId := nodeId an;
             lines := lines an; history := history an |} in
        (st', sendWs st' "analysis:set_enabled" [("enabled", JBool next)])
      else (st, [])
  | ClickStart =>
      (st, match game st with
           | Some g =>
               match root_node_id g with
               | Some r => if String.eqb r "" then []
                           else sendWs st "node:jump" [("node_id", JStr r)]
               | None => []
               end
           | None => []
           end)
  | ClickNext =>
      (st, match cur with
           | Some c =>
               if String.eqb c "" then []
               else match firstChildId (game st) c with
                    | Some n => if String.eqb n "" then []
                                else sendWs st "node:jump" [("node_id", JStr n)]
                    | None => []
                    end
           | None => []
           end)
  end.

(** The loop of the [btnEnd] listener.  [fuel] bounds the number of
    iterations; [None] means the bound was reached before the loop left. *)
Fixpoint endLoop (fuel : nat) (g : option Game) (cur : string) (next : option string)
  : option string :=
  match fuel with
  | O => None
  | S fuel' =>
      if truthy_id next then
        match next with
        | Some n => endLoop fuel' g n (firstChildId g n)
        | None => Some cur
        end
      else Some cur
  end.

(** The [btnEnd] listener. *)
Definition clickEnd (fuel : nat) (st : State) : option (list effect) :=
  match game st with
  | Some g =>
      match current_node_id g with
      | Some c =>
          if String.eqb c "" then Some []
          else match endLoop fuel (game st) c (firstChildId (game st) c) with
               | Some last => Some (sendWs st "node:jump" [("node_id", JStr last)])
               | None => None
               end
      | None => Some []
      end
  | None => Some []
  end.

(** *** Predicates on reasons and on the children index *)

(** [s] contains [kw], letter case apart. *)
Definition contains_ci (kw s : string) : Prop :=
  exists pre mid post,
    list_ascii_of_string s = pre ++ mid ++ post /\
    map upper mid = map upper (list_ascii_of_string kw).

(** The words that mark an engine error in a reason. *)
Definition error_words : list string :=
  ["failed"; "timeout"; "not configured"; "exited"; "error"].

(** The reason names an engine-error kind: it contains one of the words,
    letter case apart. *)
Definition is_engine_error (r : string) : Prop :=
  exists kw, In kw error_words /\ contains_ci kw r.

(** [c] is listed among the children of [p]. *)
Definition child (g : Game) (p c : string) : Prop :=
  exists l, children_index g !! p = Some l /\ In c l.

(** No node is its own descendant. *)
Definition acyclic (g : Game) : Prop := forall x, ~ tc (child g) x x.

(** Node ids are non-empty strings. *)
Definition ids_nonempty (g : Game) : Prop :=
  forall p l c, children_index g !! p = Some l -> In c l -> c <> "".

(** [c] is the first child of [p]. *)
Definition first_child (g : Game) (p c : string) : Prop :=
  firstChildId (Some g) p = Some c.

(** The same read off the snapshot: [c] heads the list that
    [children_index] holds for [p]. *)
Definition heads (g : Game) (p c : string) : Prop :=
  exists rest, children_index g !! p = Some (c :: rest).

(** [children_index] lists no child for [x]: it has no entry for [x], or an
    empty one. *)
Definition lists_no_child (g : Game) (x : string) : Prop :=
  children_index g !! x = None \/ children_index g !! x = Some [].

(** *** Runs of the client *)

(** One turn of the event loop: [connectWs], the socket's [open] and [close]
    events, a message from the server, or a listener. *)
Inductive step (els : Els) : State -> list effect -> State -> Prop :=
| step_connect st :
    step els st [] (with_ws st (Some CONNECTING))
| step_open st :
    ws st = Some CONNECTING -> step els st [] (with_ws st (Some OPEN))
| step_close st :
    step els st [] (with_ws (revoke st) (Some CLOSED))
| step_message st m :
    step els st (snd (onMessage els st m)) (fst (onMessage els st m))
| step_ui st a :
    step els st (snd (onUi els st a)) (fst (onUi els st a))
| step_end st fuel eff :
    clickEnd fuel st = Some eff -> step els st eff st.

(** The states a run can be in, with everything it has emitted so far. *)
Inductive run (els : Els) : list effect -> State -> Prop :=
| run_start : run els [] initial
| run_step out st eff st' :
    run els out st -> step els st eff st' -> run els (out ++ eff) st'.

Definition reachable (els : Els) (st : State) : Prop := exists out, run els out st.

(** A stored token is [null] or truthy: the handlers only ever assign
    [payload.x || null] or [null]; and a client that is not the owner holds
    no token. *)
Definition tokens_ok (st : State) : Prop :=
  (sessionId st = JNull \/ truthy (sessionId st) = true) /\
  (ownerToken st = JNull \/ truthy (ownerToken st) = true) /\
  (isOwner st = false -> sessionId st = JNull /\ ownerToken st = JNull).

End Client.

(* ===================================================================== *)
(** ** Drop rules of the board UI                                         *)
(* ===================================================================== *)

Module Shogi.

(** [PLAYERS]. *)
Inductive Player : Type := SENTE | GOTE.

Definition Player_eqb (a b : Player) : bool :=
  match a, b with
  | SENTE, SENTE | GOTE, GOTE => true
  | _, _ => false
  end.

(** A piece on the board, as [parseSfen] gives it. *)
Record Piece : Type := { piece : string; owner : Player }.

(** [board[r][c]] is [None] past the end of an array ([undefined]),
    [Some None] for [null] and [Some (Some p)] for a piece. *)
Definition Board : Type := list (list (option Piece)).

Record Square : Type := { row : nat; col : nat }.

Section Drops.

(** [normalizeDropPieceType] of [vendor/usi.js]: the base piece type, or a
    falsy value ([None], or the empty string). *)
Variable normalizeDropPieceType : string -> option string.

(** [baseType(t)]. *)
Definition baseType (t : string) : string :=
  match normalizeDropPieceType t with
  | Some x => if String.eqb x "" then t else x
  | None => t
  end.

(** The loop of [wouldCreateNifu] over the rows [rs]; [None] when [board[r]]
    is undefined and reading [board[r][col]] throws. *)
Fixpoint nifuLoop (board : Board) (c : nat) (o : Player) (rs : list nat)
  : option bool :=
  match rs with
  | [] => Some false
  | r :: rs' =>
      match nth_error board r with
      | None => None
      | Some cells =>
          match nth_error cells c with
          | Some (Some p) =>
              if Player_eqb (owner p) o && String.eqb (piece p) "pawn"
              then Some true
              else nifuLoop board c o rs'
          | _ => nifuLoop board c o rs'
          end
      end
  end.

(** [wouldCreateNifu(board, row, col, owner)]. *)
Definition wouldCreateNifu (board : Board) (r c : nat) (o : Player) : option bool :=
  nifuLoop board c o (seq 0 9).

(** [isDeadEndDrop(pieceType, row, owner)]. *)
Definition isDeadEndDrop (pieceType : string) (r : nat) (o : Player) : bool :=
  if String.eqb pieceType "pawn" || String.eqb pieceType "lance" then
    match o with SENTE => Nat.eqb r 0 | GOTE => Nat.eqb r 8 end
  else if String.eqb pieceType "knight" then
    match o with SENTE => Nat.leb r 1 | GOTE => Nat.leb 7 r end
  else false.

(** The body of the inner loop of [getDropMoves] at one square: what it
    pushes, or [None] when it throws. *)
Definition dropAt (board : Board) (t : string) (o : Player) (r c : nat)
  : option (list Square) :=
  match nth_error board r with
  | None => None
  | Some cells =>
      match nth_error cells c with
      | Some None =>
          let keep := if isDeadEndDrop t r o then [] else [{| row := r; col := c |}] in
          if String.eqb t "pawn" then
            match wouldCreateNifu board r c o with
            | None => None
            | Some true => Some []
            | Some false => Some keep
            end
          else Some keep
      | _ => Some []
      end
  end.

(** The two nested loops, over the squares in the order they are visited. *)
Fixpoint dropLoop (board : Board) (t : string) (o : Player) (sqs : list (nat * nat))
  : option (list Square) :=
  match sqs with
  | [] => Some []
  | (r, c) :: rest =>
      match dropAt board t o r c with
      | None => None
      | Some here =>
          match dropLoop board t o rest with
          | None => None
          | Some later => Some (here ++ later)
          end
      end
  end.

(** [getDropMoves(board, pieceType, owner)]. *)
Definition getDropMoves (board : Board) (pieceType : string) (o : Player)
  : option (list Square) :=
  dropLoop board (baseType pieceType) o (list_prod (seq 0 9) (seq 0 9)).

(** A legal drop target for a piece of type [pieceType] of [o]: a square of
    the board that is empty, with no pawn of [o] in its column when the base
    type is the pawn, and off the ranks from which the piece could never
    move (the last one for pawn and lance, the last two for the knight). *)
Definition legal_drop (board : Board) (pieceType : string) (o : Player) (sq : Square)
  : Prop :=
  row sq < 9 /\ col sq < 9 /\
  (exists cells,
     nth_error board (row sq) = Some cells /\ nth_error cells (col sq) = Some None) /\
  (baseType pieceType = "pawn" ->
     forall r cells p,
       r < 9 -> nth_error board r = Some cells ->
       nth_error cells (col sq) = Some (Some p) ->
       ~ (owner p = o /\ piece p = "pawn")) /\
  (baseType pieceType = "pawn" \/ baseType pieceType = "lance" ->
     match o with SENTE => row sq <> 0 | GOTE => row sq <> 8 end) /\
  (baseType pieceType = "knight" ->
     match o with SENTE => 1 < row sq | GOTE => row sq < 7 end).

End Drops.

(** A board for the examples: a sente pawn on the first column, a gote pawn
    on the fourth, nothing else. *)
Definition empty_rank : list (option Piece) := repeat None 9.

Definition sample_board : Board :=
  [ empty_rank; empty_rank;
    [None; None; None; Some {| piece := "pawn"; owner := GOTE |};
     None; None; None; None; None];
    empty_rank; empty_rank; empty_rank;
    [Some {| piece := "pawn"; owner := SENTE |}; None; None; None;
     None; None; None; None; None];
    empty_rank; empty_rank ].

(** A normaliser for the examples: promoted pieces go back to their base
    type, the others are kept. *)
Definition sample_normalize (t : string) : option string :=
  if String.eqb t "promoted_pawn" then Some "pawn"
  else if String.eqb t "promoted_lance" then Some "lance"
  else if String.eqb t "promoted_knight" then Some "knight"
  else if String.eqb t "promoted_silver" then Some "silver"
  else if String.eqb t "horse" then Some "bishop"
  else if String.eqb t "dragon" then Some "rook"
  else Some t.

End Shogi.

(* ===================================================================== *)
(** ** The game tree of the server                                        *)
(* ===================================================================== *)

Module GameTree.

(** Modelled from the spec: the Node of section 3 (the server's game tree
    is not among the shipped assets).  Ids are opaque there; here they are
    numbers handed out by a counter. *)
Record Node : Type := {
  node_id : nat;
  parent_id : option nat;
  order_index : nat;
  move_usi : option string;
  position_sfen : string
}.

(** Modelled from the spec: the in-memory tree of the Game Tree Engine, a
    flat list of nodes with the root, the cursor and the next free id. *)
Record Tree : Type := {
  nodes : list Node;
  root_node_id : nat;
  current_node_id : nat;
  next_id : nat
}.

(** Modelled from the spec: the error kinds of the tree operations
    (section 7). *)
Inductive Error : Type := UnknownNode | BadPermutation | InvalidMove.

(** Modelled from the spec: lower-casing of a move string (the server's game
    tree is missing), on ASCII letters. *)
Definition lower (c : ascii) : ascii :=
  let n := nat_of_ascii c in
  if (65 <=? n)%nat && (n <=? 90)%nat then ascii_of_nat (n + 32) else c.

(** Modelled from the spec: normalisation of a move for dedup, lower-cased
    and trimmed (section 4.1). *)
Definition normalize_move (m : string) : string :=
  string_of_list_ascii (map lower (trim_chars (list_ascii_of_string m))).

(** Modelled from the spec: equality of [move_usi] for dedup is exact string
    match after normalisation. *)
Definition same_move (m : string) (c : Node) : bool :=
  match move_usi c with
  | Some m' => String.eqb (normalize_move m') (normalize_move m)
  | None => false
  end.

(** Modelled from the spec: [n] is a child of [p], by its [parent_id] (the
    server's game tree is missing). *)
Definition has_parent (p : nat) (n : Node) : bool :=
  match parent_id n with
  | Some q => Nat.eqb q p
  | None => false
  end.

(** Modelled from the spec: [children_of(node_id)], the nodes whose
    [parent_id] is the given node. *)
Definition children_of (t : Tree) (p : nat) : list Node :=
  List.filter (has_parent p) (nodes t).

(** Modelled from the spec: resolution of a node id, [None] for the
    [UnknownNode] case (the server's game tree is missing). *)
Definition find_node (t : Tree) (id : nat) : option Node :=
  find (fun n => Nat.eqb (node_id n) id) (nodes t).

(** Modelled from the spec: [current_node_id <- id] (the server's game tree
    is missing). *)
Definition with_current (t : Tree) (id : nat) : Tree :=
  {| nodes := nodes t; root_node_id := root_node_id t;
     current_node_id := id; next_id := next_id t |}.

(** Modelled from the spec: the position of [x] in the list given to
    [reorder_children], which becomes its [order_index] (the server's game
    tree is missing). *)
Fixpoint index_of (ids : list nat) (x : nat) : nat :=
  match ids with
  | [] => 0
  | y :: r => if Nat.eqb x y then 0 else S (index_of r x)
  end.

(** Modelled from the spec: the [BadPermutation] test of
    [reorder_children] (the server's game tree is missing): the two lists
    hold the same ids the same number of times. *)
Definition is_permutation (a b : list nat) : bool :=
  forallb (fun x => Nat.eqb (count_occ Nat.eq_dec a x) (count_occ Nat.eq_dec b x))
          (a ++ b).

(** Modelled from the spec: the rewrite of [order_index] within one parent
    (the server's game tree is missing). *)
Definition reindex (p : nat) (ids : list nat) (n : Node) : Node :=
  if has_parent p n then
    {| node_id := node_id n; parent_id := parent_id n;
       order_index := index_of ids (node_id n);
       move_usi := move_usi n; position_sfen := position_sfen n |}
  else n.

Section Operations.

(** The SFEN application step of the format codec: the position after a
    move, or [None] when the move is rejected. *)
Variable apply_move : string -> string -> option string.

(** Modelled from the spec: [play_move(from_node_id, move_usi)] of section
    4.1.  An existing child with an equal move is returned and becomes the
    current node; otherwise a child is appended with
    [order_index = current_children_count].  Errors leave the tree as it
    was. *)
Definition play_move (t : Tree) (from : nat) (m : string) : Error + Tree * nat :=
  match find_node t from with
  | None => inl UnknownNode
  | Some p =>
      match find (same_move m) (children_of t from) with
      | Some c => inr (with_current t (node_id c), node_id c)
      | None =>
          match apply_move (position_sfen p) m with
          | None => inl InvalidMove
          | Some sfen =>
              let id := next_id t in
              inr ({| nodes := nodes t ++
                        [{| node_id := id; parent_id := Some from;
                            order_index := length (children_of t from);
                            move_usi := Some m; position_sfen := sfen |}];
                      root_node_id := root_node_id t;
                      current_node_id := id;
                      next_id := S id |}, id)
          end
      end
  end.

(** Modelled from the spec: [reorder_children(parent_id, ordered_child_ids)]
    of section 4.1: the list must be a permutation of the current children
    ids, and [order_index] is rewritten to match; all or nothing. *)
Definition reorder_children (t : Tree) (p : nat) (ids : list nat) : Error + Tree :=
  if is_permutation ids (map node_id (children_of t p)) then
    inr {| nodes := map (reindex p ids) (nodes t);
           root_node_id := root_node_id t;
           current_node_id := current_node_id t;
           next_id := next_id t |}
  else inl BadPermutation.

(** Modelled from the spec: the two mutations of the tree that the owner
    can request (the server's Message Router is missing). *)
Inductive Op : Type :=
| PlayMove (from : nat) (m : string)
| ReorderChildren (p : nat) (ids : list nat).

(** Modelled from the spec: the State Synchronizer (missing) applies an
    intent or, on an error, leaves the tree untouched. *)
Definition apply_op (t : Tree) (o : Op) : Tree :=
  match o with
  | PlayMove from m =>
      match play_move t from m with
      | inr (t', _) => t'
      | inl _ => t
      end
  | ReorderChildren p ids =>
      match reorder_children t p ids with
      | inr t' => t'
      | inl _ => t
      end
  end.

(** Modelled from the spec: intents are applied in arrival order (the State
    Synchronizer is missing). *)
Definition apply_ops (t : Tree) (ops : list Op) : Tree := fold_left apply_op ops t.

End Operations.

(** Modelled from the spec: invariant (2) of section 3 at one parent (the
    server's game tree is missing): the [order_index] values of its [k]
    children are exactly [0 .. k-1]. *)
Definition gapless_at (t : Tree) (p : nat) : Prop :=
  Permutation (map order_index (children_of t p))
              (seq 0 (length (children_of t p))).

(** Modelled from the spec: a well-formed tree (the server's game tree is
    missing): ids are unique and below the counter, and sibling order is
    gapless everywhere. *)
Definition well_formed (t : Tree) : Prop :=
  List.NoDup (map node_id (nodes t)) /\
  (forall n, In n (nodes t) -> node_id n < next_id t) /\
  (forall p, gapless_at t p).

(** Modelled from the spec: no two children of [p] carry the same move
    after normalisation, as dedup in [play_move] maintains (the server's game
    tree is missing). *)
Definition moves_distinct (t : Tree) (p : nat) : Prop :=
  List.NoDup (map (fun c => option_map normalize_move (move_usi c)) (children_of t p)).

End GameTree.

(* ===================================================================== *)
(** ** The analysis coalescer of the server                               *)
(* ===================================================================== *)

Module Coalescer.

(** Modelled from the spec: the coalescer of the Analysis Coordinator
    (sections 4.4 and 9; the server is not among the shipped assets): the
    latest line per [pv_index], a [dirty] flag, the time the search started
    and the time of the last flush, in milliseconds. *)
Record State : Type := {
  started : Z;
  last_flush : Z;
  dirty : bool;
  latest : gmap nat string
}.

(** Modelled from the spec: what reaches the coalescer (the server's
    Analysis Coordinator is missing): a raw [info] update from the engine, or
    a tick of the timer. *)
Inductive Event : Type :=
| Info (t : Z) (pv_index : nat) (line : string)
| Tick (t : Z).

(** Modelled from the spec: an [analysis:update] emission of the Analysis
    Coordinator (missing): the time, [elapsed_ms] and the full line set. *)
Record Update : Type := {
  at_ms : Z;
  elapsed_ms : Z;
  upd_lines : gmap nat string
}.

(** Modelled from the spec: the coalescer when a search starts at [t0] (the
    server's Analysis Coordinator is missing). *)
Definition start (t0 : Z) : State :=
  {| started := t0; last_flush := t0; dirty := false; latest := ∅ |}.

(** Modelled from the spec: at most one flush per 500 ms for the first
    5000 ms of a search, per 1000 ms thereafter. *)
Definition interval (elapsed : Z) : Z :=
  if (elapsed <? 5000)%Z then 500%Z else 1000%Z.

(** Modelled from the spec: a raw update is stored and marks the state
    dirty; a tick flushes when the state is dirty and the interval has
    passed since the last flush, and emits nothing otherwise. *)
Definition step (s : State) (e : Event) : State * list Update :=
  match e with
  | Info t i l =>
      ({| started := started s; last_flush := last_flush s; dirty := true;
          latest := <[i := l]> (latest s) |}, [])
  | Tick t =>
      if dirty s && (interval (t - started s) <=? t - last_flush s)%Z then
        ({| started := started s; last_flush := t; dirty := false;
            latest := latest s |},
         [{| at_ms := t; elapsed_ms := (t - started s)%Z; upd_lines := latest s |}])
      else (s, [])
  end.

(** Modelled from the spec: the coalescer over a sequence of events, with
    the emissions in order (the server's Analysis Coordinator is missing). *)
Fixpoint run (s : State) (evs : list Event) : State * list Update :=
  match evs with
  | [] => (s, [])
  | e :: rest =>
      let '(s1, out1) := step s e in
      let '(s2, out2) := run s1 rest in
      (s2, out1 ++ out2)
  end.

(** Modelled from the spec: the cadence bound on emission times [ts] after
    a flush (or the start) at [prev], in a search started at [t0] (the
    server's Analysis Coordinator is missing): each is at least the interval
    in force at its own time after the one before. *)
Fixpoint spaced (t0 prev : Z) (ts : list Z) : Prop :=
  match ts with
  | [] => True
  | x :: r => (interval (x - t0) <= x - prev)%Z /\ spaced t0 x r
  end.

End Coalescer.

(* ===================================================================== *)
(** ** Concrete inputs for the examples                                   *)
(* ===================================================================== *)

Module Samples.

Import Client.

(** A page with its toast host. *)
Definition page : Els := {| toastHost := true; moveList := true; treeList := true |}.

(** The client after [connectWs], the socket's [open] event and a
    [session:granted] that carries both tokens. *)
Definition granted_payload : GrantedPayload := {|
  g_session_id := JStr "S1";
  g_owner_token := JStr "T1";
  g_caps_analysis := JBool true;
  g_analysis_enabled := JBool false;
  g_analysis_multipv := JNum (Fin 3);
  g_last_error := None;
  g_game := None
|}.

Definition connected : State := with_ws (with_ws initial (Some CONNECTING)) (Some OPEN).

Definition granted_state : State :=
  fst (onMessage page connected (MsgSessionGranted granted_payload)).

(** The client after [connectWs], [open] and a [session:busy] whose dialog
    was dismissed. *)
Definition busy_state : State := fst (onMessage page connected MsgSessionBusy).

(** A game two plies deep on its main line [n0, n1, n3], with a side move
    [n2]; the cursor is on [n1]. *)
Definition played_game : Game := {|
  root_node_id := Some "n0";
  current_node_id := Some "n1";
  current_path_node_ids := ["n0"; "n1"];
  nodes := [("n0", None); ("n1", Some "n0"); ("n2", Some "n0"); ("n3", Some "n1")];
  children_index := <["n0" := ["n1"; "n2"]]> (<["n1" := ["n3"]]> ∅);
  ui_analysis_enabled := JBool false;
  ui_analysis_multipv := JNum (Fin 1)
|}.

(** The client told [session:busy] that then sees a [game:state]
    broadcast. *)
Definition observer_state : State :=
  fst (onMessage page busy_state (MsgGameState (Some played_game))).

(** A game whose stored MultiPV setting is not numeric. *)
Definition auto_game : Game := {|
  root_node_id := Some "n0";
  current_node_id := Some "n0";
  current_path_node_ids := ["n0"];
  nodes := [("n0", None)];
  children_index := ∅;
  ui_analysis_enabled := JBool false;
  ui_analysis_multipv := JStr "auto"
|}.

Definition auto_granted : GrantedPayload := {|
  g_session_id := JStr "S1";
  g_owner_token := JStr "T1";
  g_caps_analysis := JBool true;
  g_analysis_enabled := JBool false;
  g_analysis_multipv := JNum (Fin 3);
  g_last_error := None;
  g_game := Some auto_game
|}.

(** A game with a main line [n0, n1, n3] and a side move [n2]. *)
Definition branch_game : Game := {|
  root_node_id := Some "n0";
  current_node_id := Some "n0";
  current_path_node_ids := ["n0"];
  nodes := [("n0", None); ("n1", Some "n0"); ("n2", Some "n0"); ("n3", Some "n1")];
  children_index := <["n0" := ["n1"; "n2"]]> (<["n1" := ["n3"]]> ∅);
  ui_analysis_enabled := JUndefined;
  ui_analysis_multipv := JUndefined
|}.

Definition branch_state : State := with_game granted_state (Some branch_game).

(** A stand-in for the codec in the examples: it rejects the empty move and
    otherwise records the move after the position. *)
Definition sample_apply (sfen m : string) : option string :=
  if String.eqb m "" then None else Some (sfen ++ " " ++ m)%string.

(** A new game: the root alone. *)
Definition root_only : GameTree.Tree := {|
  GameTree.nodes :=
    [{| GameTree.node_id := 0; GameTree.parent_id := None;
        GameTree.order_index := 0; GameTree.move_usi := None;
        GameTree.position_sfen := "startpos" |}];
  GameTree.root_node_id := 0;
  GameTree.current_node_id := 0;
  GameTree.next_id := 1
|}.

Definition after_first_move : GameTree.Tree :=
  match GameTree.play_move sample_apply root_only 0 "7g7f" with
  | inr (t, _) => t
  | inl _ => root_only
  end.

Definition sample_ops : list GameTree.Op :=
  [GameTree.PlayMove 0 "7g7f"; GameTree.PlayMove 0 "2g2f";
   GameTree.ReorderChildren 0 [2; 1]; GameTree.PlayMove 0 " 7G7F ";
   GameTree.PlayMove 1 "3c3d"; GameTree.ReorderChildren 0 [1; 1]].

(** Two moves from the root, then the two children in the other order. *)
Definition dedup_ops : list GameTree.Op :=
  [GameTree.PlayMove 0 "7g7f"; GameTree.PlayMove 0 "2g2f";
   GameTree.ReorderChildren 0 [2; 1]].

Definition two_children : GameTree.Tree :=
  GameTree.apply_ops sample_apply root_only dedup_ops.

Definition sample_events : list Coalescer.Event :=
  [Coalescer.Info 10 1 "7g7f"; Coalescer.Tick 100; Coalescer.Tick 500;
   Coalescer.Tick 600; Coalescer.Info 700 1 "2g2f"; Coalescer.Tick 1000;
   Coalescer.Tick 1100; Coalescer.Info 5200 1 "7g7f"; Coalescer.Tick 5600;
   Coalescer.Info 5700 2 "2g2f"; Coalescer.Tick 6100; Coalescer.Tick 6600].

End Samples.

(* ===================================================================== *)
(** ** Piece movement of the board UI                                     *)
(* ===================================================================== *)

Module Moves.

Import Shogi.

(** How a call ends: with a value, with the [TypeError] of a read in a
    missing board row, or cut by the iteration bound of a loop. *)
Inductive Outcome (A : Type) : Type :=
| Returned (a : A)
| Thrown
| Unfinished.

Arguments Returned {A} a.
Arguments Thrown {A}.
Arguments Unfinished {A}.

(** [isPromotedType(t)]. *)
Definition isPromotedType (t : string) : bool :=
  String.eqb t "dragon" || String.eqb t "horse" || String.eqb t "promoted_pawn"
  || String.eqb t "promoted_lance" || String.eqb t "promoted_knight"
  || String.eqb t "promoted_silver".

(** [dir(owner)]: row 0 is the far side for sente. *)
Definition dir (o : Player) : Z :=
  match o with SENTE => (-1)%Z | GOTE => 1%Z end.

(** [inBounds(r, c)]. *)
Definition inBounds (r c : Z) : bool :=
  (0 <=? r)%Z && (r <? 9)%Z && (0 <=? c)%Z && (c <? 9)%Z.

(** [board[r][c]] for [r], [c] in bounds: [None] when [board[r]] is
    undefined and the read throws, [Some None] for anything falsy ([null],
    or a cell past the end of the row), [Some (Some p)] for a piece. *)
Definition cellAt (board : Board) (r c : Z) : option (option Piece) :=
  match nth_error board (Z.to_nat r) with
  | None => None
  | Some cells =>
      match nth_error cells (Z.to_nat c) with
      | Some (Some p) => Some (Some p)
      | _ => Some None
      end
  end.

(** [{ row: r, col: c }], for [r], [c] in bounds. *)
Definition square (r c : Z) : Square := {| row := Z.to_nat r; col := Z.to_nat c |}.

(** A piece of code that pushes on [moves]. *)
Definition Gen : Type := list Square -> Outcome (list Square).

(** Statements in sequence; an exception or a cut ends the sequence. *)
Fixpoint inOrder (gens : list Gen) : Gen :=
  fun moves =>
    match gens with
    | [] => Returned moves
    | g :: rest =>
        match g moves with
        | Returned moves' => inOrder rest moves'
        | Thrown => Thrown
        | Unfinished => Unfinished
        end
    end.

(** The closure [add] of [getPossibleMoves]. *)
Definition add (board : Board) (o : Player) (r c : Z) : Gen :=
  fun moves =>
    if inBounds r c then
      match cellAt board r c with
      | None => Thrown
      | Some (Some p) =>
          if Player_eqb (owner p) o then Returned moves
          else Returned (moves ++ [square r c])
      | Some None => Returned (moves ++ [square r c])
      end
    else Returned moves.

(** The loop of the closure [addSlide], entered at [(r, c)]; [fuel] bounds
    its iterations. *)
Fixpoint slideFrom (fuel : nat) (board : Board) (o : Player) (r c dr dc : Z) : Gen :=
  fun moves =>
    if inBounds r c then
      match fuel with
      | O => Unfinished
      | S fuel' =>
          match cellAt board r c with
          | None => Thrown
          | Some None =>
              slideFrom fuel' board o (r + dr) (c + dc) dr dc (moves ++ [square r c])
          | Some (Some p) =>
              if Player_eqb (owner p) o then Returned moves
              else Returned (moves ++ [square r c])
          end
      end
    else Returned moves.

(** The closure [addSlide] of [getPossibleMoves]. *)
Definition addSlide (fuel : nat) (board : Board) (o : Player)
  (fromRow fromCol dr dc : Z) : Gen :=
  slideFrom fuel board o (fromRow + dr) (fromCol + dc) dr dc.

(** The six [add] calls of a gold. *)
Definition goldSteps (board : Board) (o : Player) (fromRow fromCol : Z) : list Gen :=
  let d := dir o in
  [ add board o (fromRow + d) fromCol;
    add board o (fromRow + d) (fromCol - 1);
    add board o (fromRow + d) (fromCol + 1);
    add board o fromRow (fromCol - 1);
    add board o fromRow (fromCol + 1);
    add board o (fromRow - d) fromCol ]%Z.

(** The two loops of the king: every [(dr, dc)] but [(0, 0)]. *)
Definition kingSteps (board : Board) (o : Player) (fromRow fromCol : Z) : list Gen :=
  map (fun d : Z * Z =>
         if Z.eqb (fst d) 0 && Z.eqb (snd d) 0 then (fun moves => Returned moves)
         else add board o (fromRow + fst d) (fromCol + snd d))%Z
      (list_prod [(-1)%Z; 0%Z; 1%Z] [(-1)%Z; 0%Z; 1%Z]).

(** [getPossibleMoves(board, fromRow, fromCol, piece)]. *)
Definition getPossibleMoves (fuel : nat) (board : Board) (fromRow fromCol : Z)
  (pc : option Piece) : Outcome (list Square) :=
  match pc with
  | None => Returned []
  | Some p =>
      let t := piece p in
      let o := owner p in
      let d := dir o in
      let step := add board o in
      let slide := addSlide fuel board o fromRow fromCol in
      if String.eqb t "promoted_pawn" || String.eqb t "promoted_lance"
         || String.eqb t "promoted_knight" || String.eqb t "promoted_silver"
      then inOrder (goldSteps board o fromRow fromCol) []
      else if String.eqb t "king" then inOrder (kingSteps board o fromRow fromCol) []
      else if String.eqb t "gold" then inOrder (goldSteps board o fromRow fromCol) []
      else if String.eqb t "silver" then
        inOrder [ step (fromRow + d) fromCol;
                  step (fromRow + d) (fromCol - 1);
                  step (fromRow + d) (fromCol + 1);
                  step (fromRow - d) (fromCol - 1);
                  step (fromRow - d) (fromCol + 1) ]%Z []
      else if String.eqb t "knight" then
        inOrder [ step (fromRow + 2 * d) (fromCol - 1);
                  step (fromRow + 2 * d) (fromCol + 1) ]%Z []
      else if String.eqb t "lance" then inOrder [ slide d 0%Z ] []
      else if String.eqb t "pawn" then inOrder [ step (fromRow + d)%Z fromCol ] []
      else if String.eqb t "rook" then
        inOrder [ slide 1 0; slide (-1) 0; slide 0 1; slide 0 (-1) ]%Z []
      else if String.eqb t "bishop" then
        inOrder [ slide 1 1; slide 1 (-1); slide (-1) 1; slide (-1) (-1) ]%Z []
      else if String.eqb t "dragon" then
        inOrder [ slide 1 0; slide (-1) 0; slide 0 1; slide 0 (-1);
                  step (fromRow + 1) (fromCol + 1);
                  step (fromRow + 1) (fromCol - 1);
                  step (fromRow - 1) (fromCol + 1);
                  step (fromRow - 1) (fromCol - 1) ]%Z []
      else if String.eqb t "horse" then
        inOrder [ slide 1 1; slide 1 (-1); slide (-1) 1; slide (-1) (-1);
                  step (fromRow + 1) fromCol;
                  step (fromRow - 1) fromCol;
                  step fromRow (fromCol + 1);
                  step fromRow (fromCol - 1) ]%Z []
      else Returned []
  end.

Section Promotion.

(** [normalizeDropPieceType] of [vendor/usi.js], as in [Shogi.baseType]. *)
Variable normalizeDropPieceType : string -> option string.

(** [PROMOTABLE.has(t)]. *)
Definition promotable (t : string) : bool :=
  String.eqb t "pawn" || String.eqb t "lance" || String.eqb t "knight"
  || String.eqb t "silver" || String.eqb t "bishop" || String.eqb t "rook".

(** [canPromote(piece, fromRow, toRow)]. *)
Definition canPromote (p : Piece) (fromRow toRow : nat) : bool :=
  let t := baseType normalizeDropPieceType (piece p) in
  if negb (promotable t) then false
  else if isPromotedType (piece p) then false
  else match owner p with
       | SENTE => Nat.leb fromRow 2 || Nat.leb toRow 2
       | GOTE => Nat.leb 6 fromRow || Nat.leb 6 toRow
       end.

(** [mustPromote(piece, toRow)]. *)
Definition mustPromote (p : Piece) (toRow : nat) : bool :=
  let t := baseType normalizeDropPieceType (piece p) in
  match owner p with
  | SENTE =>
      if (String.eqb t "pawn" || String.eqb t "lance") && Nat.eqb toRow 0 then true
      else if String.eqb t "knight" && Nat.leb toRow 1 then true
      else false
  | GOTE =>
      if (String.eqb t "pawn" || String.eqb t "lance") && Nat.eqb toRow 8 then true
      else if String.eqb t "knight" && Nat.leb 7 toRow then true
      else false
  end.

End Promotion.

(** [viewToInternal(vr, vc)] and [internalToView(r, c)], on the numbers the
    squares carry; [flip] is [state.flip]. *)
Definition viewToInternal (flip : bool) (vr vc : Z) : Z * Z :=
  if flip then (8 - vr, 8 - vc)%Z else (vr, vc).

Definition internalToView (flip : bool) (r c : Z) : Z * Z :=
  if flip then (8 - r, 8 - c)%Z else (r, c).

End Moves.

(* ===================================================================== *)
(** ** Selecting and committing a move                                    *)
(* ===================================================================== *)

Module BoardUi.

Import Client Shogi Moves.

(** [state.selection]. *)
Inductive Selection : Type :=
| SelBoard (fromRow fromCol : nat) (o : Player) (pieceType : string)
| SelHand (o : Player) (pieceType : string).

(** The fields of [state] for the interaction with the board:
    [state.selection] ([None] is [null]) and [state.legal].  The drag
    candidate is left out. *)
Record Ui : Type := {
  selection : option Selection;
  legal : list Square
}.

(** The part of a [parseSfen] result that is read here. *)
Record Parsed : Type := {
  board : Board;
  currentPlayer : option Player
}.

(** How a listener ends: normally, with the fields above and its effects;
    by an exception, which leaves the fields as they were at that point; cut
    by an iteration bound; or waiting for the answer to the promotion
    dialog, with what [commitMove] has computed so far. *)
Inductive Handled : Type :=
| Done (ui : Ui) (eff : list effect)
| Aborted (ui : Ui)
| Cut
| Asks (ui : Ui) (fromRow fromCol toRow toCol : nat).

(** [clearSelection()]. *)
Definition clearSelection : Ui := {| selection := None; legal := [] |}.

(** A node id as a property value; [null] stands for a missing id too. *)
Definition idValue (o : option string) : jsval :=
  match o with
  | Some s => JStr s
  | None => JNull
  end.

Section Listeners.

(** [normalizeDropPieceType], [buildUsiMove] and [buildUsiDrop] of
    [vendor/usi.js]; [None] is any falsy result. *)
Variable normalizeDropPieceType : string -> option string.
Variable buildUsiMove : nat -> nat -> nat -> nat -> bool -> option string.
Variable buildUsiDrop : string -> nat -> nat -> option string.

(** [selectBoardSquare(fromRow, fromCol, piece, parsed)]. *)
Definition selectBoardSquare (fuel : nat) (st : State) (ui : Ui)
  (fromRow fromCol : nat) (pc : Piece) (parsed : Parsed) : Handled :=
  if negb (isOwner st) then Done ui []
  else
    match currentPlayer parsed with
    | None => Done ui []
    | Some turn =>
        if negb (Player_eqb (owner pc) turn) then Done ui []
        else
          let sel := Some (SelBoard fromRow fromCol (owner pc) (piece pc)) in
          match getPossibleMoves fuel (board parsed)
                  (Z.of_nat fromRow) (Z.of_nat fromCol) (Some pc) with
          | Returned l => Done {| selection := sel; legal := l |} []
          | Thrown => Aborted {| selection := sel; legal := legal ui |}
          | Unfinished => Cut
          end
    end.

(** [selectHand(owner, pieceType, parsed)]. *)
Definition selectHand (st : State) (ui : Ui) (o : Player) (pieceType : string)
  (parsed : Parsed) : Handled :=
  if negb (isOwner st) then Done ui []
  else
    match currentPlayer parsed with
    | None => Done ui []
    | Some turn =>
        if negb (Player_eqb o turn) then Done ui []
        else
          let sel := Some (SelHand o pieceType) in
          match getDropMoves normalizeDropPieceType (board parsed) pieceType o with
          | Some l => Done {| selection := sel; legal := l |} []
          | None => Aborted {| selection := sel; legal := legal ui |}
          end
    end.

(** The end of [commitMove]: the frame for a move string, then
    [clearSelection()].  Reading [state.game.current_node_id] throws when
    there is no game. *)
Definition sendPlayMove (st : State) (ui : Ui) (usi : option string) : Handled :=
  match usi with
  | Some u =>
      if String.eqb u "" then Done ui []
      else
        match game st with
        | Some g =>
            Done clearSelection
              (sendWs st "node:play_move"
                 [("from_node_id", idValue (current_node_id g)); ("move_usi", JStr u)])
        | None => Aborted ui
        end
  | None => Done ui []
  end.

(** [commitMove(toRow, toCol, parsed)] up to its [await]. *)
Definition commitMove (st : State) (ui : Ui) (toRow toCol : nat) (parsed : Parsed)
  : Handled :=
  match selection ui with
  | None => Done ui []
  | Some sel =>
      if negb (truthy_id (match game st with
                          | Some g => current_node_id g
                          | None => None
                          end))
      then Done ui []
      else if negb (existsb (fun m => Nat.eqb (row m) toRow && Nat.eqb (col m) toCol)
                            (legal ui))
      then Done ui []
      else
        match sel with
        | SelBoard fromRow fromCol _ _ =>
            match nth_error (board parsed) fromRow with
            | None => Aborted ui
            | Some cells =>
                match nth_error cells fromCol with
                | Some (Some pc) =>
                    if canPromote normalizeDropPieceType pc fromRow toRow then
                      if mustPromote normalizeDropPieceType pc toRow then
                        sendPlayMove st ui (buildUsiMove fromRow fromCol toRow toCol true)
                      else Asks ui fromRow fromCol toRow toCol
                    else sendPlayMove st ui (buildUsiMove fromRow fromCol toRow toCol false)
                | _ => Done ui []
                end
            end
        | SelHand _ pieceType =>
            sendPlayMove st ui (buildUsiDrop pieceType toRow toCol)
        end
  end.

(** [commitMove] after the dialog: [Some true] is the answer to promote,
    [Some false] the answer not to, [None] a cancelled dialog.  [st] and
    [ui] are the state at that time. *)
Definition commitMoveAnswered (st : State) (ui : Ui)
  (fromRow fromCol toRow toCol : nat) (answer : option bool) : Handled :=
  match answer with
  | None => Done ui []
  | Some promote =>
      sendPlayMove st ui (buildUsiMove fromRow fromCol toRow toCol promote)
  end.

(** [commitMove(toRow, toCol, parsed)] from the call to its end.  When the
    promotion dialog opens, the call goes on once the dialog is answered:
    [answer] is what the dialog resolves to, and [later] the state and the
    selection at that time, after whatever ran while the dialog was open. *)
Definition commitMoveWhole (st : State) (ui : Ui) (toRow toCol : nat)
  (parsed : Parsed) (later : State * Ui) (answer : option bool) : Handled :=
  match commitMove st ui toRow toCol parsed with
  | Asks _ fromRow fromCol toRow' toCol' =>
      commitMoveAnswered (fst later) (snd later) fromRow fromCol toRow' toCol' answer
  | h => h
  end.

End Listeners.

End BoardUi.

(* ===================================================================== *)
(** ** More concrete inputs for the examples                              *)
(* ===================================================================== *)

Module MoreSamples.

Import Client Samples.

(** A game saved with a MultiPV of 20, from before the limit of five. *)
Definition legacy_game : Game := {|
  root_node_id := Some "n0";
  current_node_id := Some "n0";
  current_path_node_ids := ["n0"];
  nodes := [("n0", None)];
  children_index := ∅;
  ui_analysis_enabled := JBool true;
  ui_analysis_multipv := JNum (Fin 20)
|}.

Definition legacy_granted : GrantedPayload := {|
  g_session_id := JStr "S1";
  g_owner_token := JStr "T1";
  g_caps_analysis := JBool true;
  g_analysis_enabled := JBool true;
  g_analysis_multipv := JNum (Fin 20);
  g_last_error := None;
  g_game := Some legacy_game
|}.

End MoreSamples.

(* ===================================================================== *)
(** ** The movement rules, as a player states them                        *)
(* ===================================================================== *)

Module MoveRules.

Import Shogi Moves.

(** The directions [(dr, dc)] in which a piece of type [t] of [o] slides. *)
Definition rays (t : string) (o : Player) : list (Z * Z) :=
  if String.eqb t "lance" then [(dir o, 0%Z)]
  else if String.eqb t "rook" || String.eqb t "dragon" then
    [(1, 0); (-1, 0); (0, 1); (0, -1)]%Z
  else if String.eqb t "bishop" || String.eqb t "horse" then
    [(1, 1); (1, -1); (-1, 1); (-1, -1)]%Z
  else [].

(** The single steps [(dr, dc)] of a piece of type [t] of [o]; [dir o] is
    forward. *)
Definition steps (t : string) (o : Player) : list (Z * Z) :=
  let d := dir o in
  if String.eqb t "promoted_pawn" || String.eqb t "promoted_lance"
     || String.eqb t "promoted_knight" || String.eqb t "promoted_silver"
     || String.eqb t "gold"
  then [(d, 0); (d, -1); (d, 1); (0, -1); (0, 1); (- d, 0)]%Z
  else if String.eqb t "king" then
    [(-1, -1); (-1, 0); (-1, 1); (0, -1); (0, 1); (1, -1); (1, 0); (1, 1)]%Z
  else if String.eqb t "silver" then
    [(d, 0); (d, -1); (d, 1); (- d, -1); (- d, 1)]%Z
  else if String.eqb t "knight" then [(2 * d, -1); (2 * d, 1)]%Z
  else if String.eqb t "pawn" then [(d, 0%Z)]
  else if String.eqb t "dragon" then [(1, 1); (1, -1); (-1, 1); (-1, -1)]%Z
  else if String.eqb t "horse" then [(1, 0); (-1, 0); (0, 1); (0, -1)]%Z
  else [].

(** [sq] is [k] steps from [(fromRow, fromCol)] in the direction [(dr, dc)],
    and the squares passed on the way are on the board and hold no piece. *)
Definition slides_to (board : Board) (fromRow fromCol dr dc k : Z) (sq : Square)
  : Prop :=
  (0 < k)%Z /\
  Z.of_nat (row sq) = (fromRow + k * dr)%Z /\
  Z.of_nat (col sq) = (fromCol + k * dc)%Z /\
  forall j, (0 < j < k)%Z ->
    inBounds (fromRow + j * dr) (fromCol + j * dc) = true /\
    cellAt board (fromRow + j * dr) (fromCol + j * dc) = Some None.

End MoveRules.

(* ===================================================================== *)
(** ** A position for the examples                                        *)
(* ===================================================================== *)

Module BoardSamples.

Import Client Samples Shogi Moves BoardUi.

Definition sente (t : string) : option Piece := Some {| piece := t; owner := SENTE |}.
Definition gote (t : string) : option Piece := Some {| piece := t; owner := GOTE |}.

(** A sente rook in the middle, a sente pawn two squares below it, a gote
    pawn two squares above it, and a sente pawn one step from the far
    rank. *)
Definition rook_board : Board :=
  [ empty_rank;
    [None; None; None; None; None; None; None; None; sente "pawn"];
    [None; None; None; None; gote "pawn"; None; None; None; None];
    empty_rank;
    [None; None; None; None; sente "rook"; None; None; None; None];
    empty_rank;
    [None; None; None; None; sente "pawn"; None; None; None; None];
    empty_rank; empty_rank ].

Definition rook_position : Parsed :=
  {| board := rook_board; currentPlayer := Some SENTE |}.

(** The name of a square in a move string: file digit, rank letter. *)
Definition square_name (r c : nat) : string :=
  String (ascii_of_nat (48 + (9 - c))) (String (ascii_of_nat (97 + r)) EmptyString).

(** Move builders for the examples. *)
Definition sample_buildUsiMove (fromRow fromCol toRow toCol : nat) (promote : bool)
  : option string :=
  Some (square_name fromRow fromCol ++ square_name toRow toCol
        ++ (if promote then "+" else ""))%string.

Definition sample_buildUsiDrop (pieceType : string) (toRow toCol : nat) : option string :=
  if String.eqb pieceType "" then None
  else Some (pieceType ++ "*" ++ square_name toRow toCol)%string.

(** The owner's client with a game on the board. *)
Definition playing_state : State := with_game granted_state (Some played_game).

(** The rook of [rook_board] selected, with its destinations. *)
Definition rook_selected : Ui :=
  match selectBoardSquare 9 playing_state clearSelection 4 4
          {| piece := "rook"; owner := SENTE |} rook_position with
  | Done ui _ => ui
  | _ => clearSelection
  end.

(** The pawn on the second rank of [rook_board] selected. *)
Definition pawn_selected : Ui :=
  match selectBoardSquare 9 playing_state clearSelection 1 8
          {| piece := "pawn"; owner := SENTE |} rook_position with
  | Done ui _ => ui
  | _ => clearSelection
  end.

(** What a listener that ended normally has put on the socket or shown. *)
Definition effects_of (h : Handled) : list effect :=
  match h with
  | Done _ eff => eff
  | _ => []
  end.

(** The selection it has left. *)
Definition ui_of (h : Handled) : Ui :=
  match h with
  | Done ui _ | Aborted ui | Asks ui _ _ _ _ => ui
  | Cut => clearSelection
  end.

(** The selected rook moved into the promotion zone, the dialog answered
    with the promotion while nothing else happened. *)
Definition rook_promoted : Handled :=
  commitMoveWhole sample_normalize sample_buildUsiMove sample_buildUsiDrop
    playing_state rook_selected 2 4 rook_position
    (playing_state, rook_selected) (Some true).

(** The same, answered after a snapshot without a current node arrived. *)
Definition game_without_cursor : Game := {|
  root_node_id := root_node_id played_game;
  current_node_id := None;
  current_path_node_ids := [];
  nodes := nodes played_game;
  children_index := children_index played_game;
  ui_analysis_enabled := ui_analysis_enabled played_game;
  ui_analysis_multipv := ui_analysis_multipv played_game
|}.

Definition rook_promoted_late : Handled :=
  commitMoveWhole sample_normalize sample_buildUsiMove sample_buildUsiDrop
    playing_state rook_selected 2 4 rook_position
    (with_game playing_state (Some game_without_cursor), rook_selected) (Some true).

(** A pawn in hand selected for a drop on [sample_board]. *)
Definition drop_position : Parsed :=
  {| board := sample_board; currentPlayer := Some SENTE |}.

Definition pawn_in_hand : Ui :=
  match selectHand sample_normalize playing_state clearSelection SENTE "pawn"
          drop_position with
  | Done ui _ => ui
  | _ => clearSelection
  end.

(** The pawn in hand dropped in the middle of the board. *)
Definition pawn_dropped : Handled :=
  commitMove sample_normalize sample_buildUsiMove sample_buildUsiDrop
    playing_state pawn_in_hand 4 4 drop_position.

End BoardSamples.

(* ===================================================================== *)
(** * Properties                                                          *)
(* ===================================================================== *)

Import Client Samples.

(** ** Session credentials on outgoing frames *)

Section Session.

Variable els : Els.

Lemma or_else_null v : or_else v JNull = JNull \/ truthy (or_else v JNull) = true.
Proof.
  unfold or_else. destruct (truthy v) eqn:E; [right; exact E | left; reflexivity].
Qed.

Lemma sync_session st :
  ws (syncAnalysisFromGame st) = ws st /\
  isOwner (syncAnalysisFromGame st) = isOwner st /\
  sessionId (syncAnalysisFromGame st) = sessionId st /\
  ownerToken (syncAnalysisFromGame st) = ownerToken st /\
  game (syncAnalysisFromGame st) = game st.
Proof.
  unfold syncAnalysisFromGame.
  match goal with |- context [if ?c then _ else _] => destruct c end;
    simpl; auto.
Qed.

Lemma tokens_ok_ext st st' :
  isOwner st' = isOwner st -> sessionId st' = sessionId st ->
  ownerToken st' = ownerToken st -> tokens_ok st -> tokens_ok st'.
Proof. unfold tokens_ok. intros -> -> ->. auto. Qed.

Lemma tokens_ok_revoke st : tokens_ok (revoke st).
Proof. unfold tokens_ok; simpl; auto. Qed.

Lemma tokens_ok_sync st :
  tokens_ok st -> tokens_ok (syncAnalysisFromGame st).
Proof.
  destruct (sync_session st) as (_ & Ho & Hs & Ht & _).
  apply tokens_ok_ext; assumption.
Qed.

Lemma rerender_session st :
  ws (rerenderAll els st) = ws st /\
  isOwner (rerenderAll els st) = isOwner st /\
  sessionId (rerenderAll els st) = sessionId st /\
  ownerToken (rerenderAll els st) = ownerToken st /\
  game (rerenderAll els st) = game st /\
  analysis (rerenderAll els st) = analysis st.
Proof.
  unfold rerenderAll. destruct (game st) as [g |] eqn:E; simpl;
    repeat split; try reflexivity; exact E.
Qed.

Lemma tokens_ok_rerender st : tokens_ok st -> tokens_ok (rerenderAll els st).
Proof.
  destruct (rerender_session st) as (_ & Ho & Hs & Ht & _).
  apply tokens_ok_ext; assumption.
Qed.

Lemma tokens_ok_message st m : tokens_ok st -> tokens_ok (fst (onMessage els st m)).
Proof.
  intros Hst.
  destruct m as [level message | | | | p | g | nid el ls best | reason |];
    cbn [onMessage onGranted onAnalysisStopped fst].
  - exact Hst.
  - apply tokens_ok_revoke.
  - apply tokens_ok_revoke.
  - apply (tokens_ok_ext (revoke st)); try reflexivity. apply tokens_ok_revoke.
  - apply tokens_ok_rerender, tokens_ok_sync.
    unfold tokens_ok; cbn [sessionId ownerToken isOwner].
    repeat split; try apply or_else_null; discriminate.
  - apply tokens_ok_rerender, tokens_ok_sync. exact Hst.
  - exact Hst.
  - exact Hst.
  - exact Hst.
Qed.

Lemma ui_session st a :
  isOwner (fst (onUi els st a)) = isOwner st /\
  sessionId (fst (onUi els st a)) = sessionId st /\
  ownerToken (fst (onUi els st a)) = ownerToken st.
Proof.
  destruct a; cbn [onUi fst]; auto.
  - destruct (rerender_session st) as (_ & Ho & Hs & Ht & _). auto.
  - destruct (available (analysis st)); simpl; auto.
Qed.

Lemma tokens_ok_step st eff st' : step els st eff st' -> tokens_ok st -> tokens_ok st'.
Proof.
  intros Hs Hst. inversion Hs; subst.
  - exact Hst.
  - exact Hst.
  - apply (tokens_ok_revoke st).
  - apply tokens_ok_message; exact Hst.
  - destruct (ui_session st a) as (Ho & Hi & Ht). eapply tokens_ok_ext; eauto.
  - exact Hst.
Qed.

Lemma tokens_ok_reachable st : reachable els st -> tokens_ok st.
Proof.
  intros [out Hrun]. induction Hrun.
  - unfold tokens_ok; simpl; auto.
  - eapply tokens_ok_step; eauto.
Qed.

(** C1. In every state a run of the client can reach, if [state.sessionId]
    and [state.ownerToken] are both non-null and the socket is open, then
    [sendWs(type, payload)] sends exactly one frame, and that frame holds
    the given type and payload, [session_id] equal to [state.sessionId] and
    [owner_token] equal to [state.ownerToken]. *)
Theorem sendWs_carries_credentials st type payload :
  reachable els st ->
  sessionId st <> JNull -> ownerToken st <> JNull ->
  ws st = Some OPEN ->
  sendWs st type payload =
    [Sent {| f_type := type; f_payload := payload;
             f_session_id := Some (sessionId st);
             f_owner_token := Some (ownerToken st) |}].
Proof.
  intros Hr Hs Ht Hw.
  destruct (tokens_ok_reachable st Hr) as ([Hs0 | Hs1] & [Ht0 | Ht1] & _);
    try contradiction.
  unfold sendWs. rewrite Hw, Hs1, Ht1. reflexivity.
Qed.

(** X19. In every reachable state in which the client is not the owner, both
    tokens are null, and whatever [sendWs] puts on the socket there is the
    bare [{type, payload}]: it has neither a [session_id] nor an
    [owner_token] key. *)
Theorem non_owner_frames_carry_no_credentials st type payload :
  reachable els st -> isOwner st = false ->
  sessionId st = JNull /\ ownerToken st = JNull /\
  forall e, In e (sendWs st type payload) ->
    e = Sent {| f_type := type; f_payload := payload;
                f_session_id := None; f_owner_token := None |}.
Proof.
  intros Hr Ho.
  destruct (tokens_ok_reachable st Hr) as (_ & _ & Hn).
  destruct (Hn Ho) as [Hs Ht]. repeat split; trivial.
  intros e. unfold sendWs. rewrite Hs, Ht. simpl.
  destruct (ws st) as [[]|]; simpl; intuition.
Qed.

End Session.

Lemma connected_reachable : reachable page connected.
Proof.
  eexists. eapply run_step; [eapply run_step; [apply run_start | apply step_connect] |].
  apply step_open. reflexivity.
Defined.

Lemma granted_state_reachable : reachable page granted_state.
Proof.
  destruct connected_reachable as [out Hrun].
  eexists. eapply run_step; [exact Hrun |].
  apply (step_message page connected (MsgSessionGranted granted_payload)).
Defined.

Lemma sendWs_carries_credentials_witness :
  sendWs granted_state "node:jump" [("node_id", JStr "n1")] =
    [Sent {| f_type := "node:jump"; f_payload := [("node_id", JStr "n1")];
             f_session_id := Some (JStr "S1");
             f_owner_token := Some (JStr "T1") |}].
Proof.
  apply (sendWs_carries_credentials page granted_state "node:jump"
           [("node_id", JStr "n1")] granted_state_reachable).
  - discriminate.
  - discriminate.
  - reflexivity.
Defined.

Lemma busy_state_reachable : reachable page busy_state.
Proof.
  destruct connected_reachable as [out Hrun].
  eexists. eapply run_step; [exact Hrun |].
  apply (step_message page connected MsgSessionBusy).
Defined.

Lemma non_owner_frames_carry_no_credentials_witness :
  sessionId busy_state = JNull /\ ownerToken busy_state = JNull /\
  forall e, In e (sendWs busy_state "game:new" []) ->
    e = Sent {| f_type := "game:new"; f_payload := [];
                f_session_id := None; f_owner_token := None |}.
Proof.
  apply (non_owner_frames_carry_no_credentials page busy_state "game:new" []
           busy_state_reachable).
  reflexivity.
Defined.

Lemma observer_state_reachable : reachable page observer_state.
Proof.
  destruct busy_state_reachable as [out Hrun].
  eexists. eapply run_step; [exact Hrun |].
  apply (step_message page busy_state (MsgGameState (Some played_game))).
Defined.

(** C2. The code where the client is not the owner.  Told [session:busy],
    it holds no token, and a click on the New Game button puts a [game:new]
    frame on the open socket; after a [game:state] broadcast has been
    rendered it is still not the owner, and a click on an item of the move
    list or on a button of the tree puts a [node:jump] frame on the socket.
    None of these frames is [session:takeover]. *)
Theorem non_owner_sends_owner_messages :
  reachable page busy_state /\
  isOwner busy_state = false /\
  sessionId busy_state = JNull /\ ownerToken busy_state = JNull /\
  snd (onUi page busy_state ClickNewGame) =
    [Sent {| f_type := "game:new"; f_payload := [];
             f_session_id := None; f_owner_token := None |}] /\
  reachable page observer_state /\
  isOwner observer_state = false /\
  snd (onUi page observer_state (ClickMoveItem "n1")) =
    [Sent {| f_type := "node:jump"; f_payload := [("node_id", JStr "n1")];
             f_session_id := None; f_owner_token := None |}] /\
  snd (onUi page observer_state (ClickTreeItem "n3")) =
    [Sent {| f_type := "node:jump"; f_payload := [("node_id", JStr "n3")];
             f_session_id := None; f_owner_token := None |}].
Proof.
  split; [exact busy_state_reachable |].
  do 4 (split; [reflexivity |]).
  split; [exact observer_state_reachable |].
  split; [reflexivity |].
  split; vm_compute; reflexivity.
Qed.

Example observer_state_items :
  moveItems observer_state = ["n1"] /\ treeItems observer_state = ["n1"; "n2"; "n3"].
Proof. vm_compute. split; reflexivity. Qed.

Example sendWs_before_open :
  sendWs (with_ws initial (Some CONNECTING)) "session:takeover" [] = [].
Proof. reflexivity. Qed.

Example granted_state_tokens :
  isOwner granted_state = true /\
  sessionId granted_state = JStr "S1" /\ ownerToken granted_state = JStr "T1" /\
  multipv (analysis granted_state) = Fin 1.
Proof. repeat split; reflexivity. Qed.

(** A [session:granted] without tokens leaves both at [null]; nothing is
    added to the frames then. *)
Example granted_without_tokens :
  sendWs (fst (onMessage page connected
                 (MsgSessionGranted
                    {| g_session_id := JStr ""; g_owner_token := JUndefined;
                       g_caps_analysis := JBool false;
                       g_analysis_enabled := JUndefined;
                       g_analysis_multipv := JUndefined;
                       g_last_error := None; g_game := None |})))
         "game:new" []
  = [Sent {| f_type := "game:new"; f_payload := [];
             f_session_id := None; f_owner_token := None |}].
Proof. reflexivity. Qed.

(** ** Scores and reasons *)

Example number_of_strings :
  num_eq (Number (JStr " 12.5e1 ")) (Fin (125 # 1)) /\
  Number (JStr "0x1F") = Fin (31 # 1) /\
  Number (JStr "") = Fin 0 /\
  Number (JStr "-Infinity") = NInf /\
  Number (JStr "auto") = NaN /\
  Number (JStr "3 4") = NaN.
Proof. vm_compute. repeat split; reflexivity. Qed.

(** Strings are rounded as [Number] rounds them: to the nearest double, to
    zero below the subnormals, to an infinity past the largest double; and
    white space is stripped whatever its code point. *)
Example number_rounds_strings :
  Number (JStr "9007199254740993") = Fin (9007199254740992 # 1) /\
  Number (JStr "0.1") = Fin (3602879701896397 # 36028797018963968) /\
  Number (JStr "-1e-400") = Fin 0 /\
  Number (JStr "1e400") = PInf /\
  Number (JStr "-1.7976931348623159e308") = NInf /\
  Number (JStr "　12 ") = Fin (12 # 1).
Proof. vm_compute. repeat split; reflexivity. Qed.

Example scoreToCpLike_rounded :
  scoreToCpLike (Some {| score_type := JStr "mate"; score_value := JStr "-1e-400";
                         pv_usi := [] |}) = Some (Fin (30000 # 1)) /\
  scoreToCpLike (Some {| score_type := JStr "cp"; score_value := JStr "9007199254740993";
                         pv_usi := [] |}) = Some (Fin (9007199254740992 # 1)).
Proof. vm_compute. split; reflexivity. Qed.

Example scoreToCpLike_samples :
  scoreToCpLike (Some {| score_type := JStr "cp"; score_value := JNum (Fin (-120 # 1));
                         pv_usi := [] |}) = Some (Fin (-120 # 1)) /\
  scoreToCpLike (Some {| score_type := JStr "mate"; score_value := JNum (Fin 0);
                         pv_usi := [] |}) = Some (Fin (30000 # 1)) /\
  scoreToCpLike (Some {| score_type := JStr "mate"; score_value := JNum (Fin (-3 # 1));
                         pv_usi := [] |}) = Some (Fin (-30000 # 1)) /\
  scoreToCpLike (Some {| score_type := JStr "mate"; score_value := JUndefined;
                         pv_usi := [] |}) = Some (Fin (30000 # 1)) /\
  scoreToCpLike (Some {| score_type := JStr "unknown"; score_value := JNum (Fin 5);
                         pv_usi := [] |}) = None /\
  scoreToCpLike None = None.
Proof. repeat split; reflexivity. Qed.

Lemma or_else_number_eq v n :
  Number v = n -> n <> NaN ->
  num_eq (Number (or_else v (JNum (Fin 0)))) n.
Proof.
  intros Hn Hnan. unfold or_else.
  destruct (truthy v) eqn:Ht.
  - rewrite Hn. destruct n; simpl; try exact I; try congruence; reflexivity.
  - subst n. destruct v as [ | | b | m | s]; simpl in *.
    + congruence.
    + reflexivity.
    + subst b. reflexivity.
    + destruct m; simpl in *; try congruence.
      apply negb_false_iff in Ht. apply Qeq_bool_iff in Ht. symmetry. exact Ht.
    + apply negb_false_iff in Ht. apply String.eqb_eq in Ht. subst s. reflexivity.
Qed.

Lemma or_else_number_ge v :
  ge (Number v) (Fin 0) = true ->
  ge (Number (or_else v (JNum (Fin 0)))) (Fin 0) = true.
Proof.
  intros H. unfold or_else. destruct (truthy v); [exact H | reflexivity].
Qed.

Lemma or_else_number_lt v :
  lt (Number v) (Fin 0) = true ->
  ge (Number (or_else v (JNum (Fin 0)))) (Fin 0) = false.
Proof.
  intros H. unfold or_else.
  destruct (truthy v) eqn:Ht.
  - destruct (Number v); simpl in *; try congruence.
    apply negb_true_iff in H. exact H.
  - destruct v as [ | | b | m | s]; simpl in *; try discriminate.
    + subst b. discriminate.
    + destruct m; simpl in *; try discriminate.
      apply negb_false_iff in Ht. apply Qeq_bool_iff in Ht.
      apply negb_true_iff in H. apply not_true_iff_false in H.
      exfalso. apply H. apply Qle_bool_iff. rewrite Ht. apply Qle_refl.
    + apply negb_false_iff in Ht. apply String.eqb_eq in Ht. subst s. discriminate.
Qed.

(** C8. [scoreToCpLike] returns a value on every line: [null] on a null
    line; on a [cp] line the number [score_value] denotes; on a [mate] line
    exactly 30000 when [score_value >= 0] (zero included) and exactly -30000
    when [score_value < 0]; and [null] when [score_type] is neither. *)
Theorem scoreToCpLike_cases (line : option PVLine) :
  (line = None -> scoreToCpLike line = None) /\
  (forall l n, line = Some l -> score_type l = JStr "cp" ->
     Number (score_value l) = n -> n <> NaN ->
     exists r, scoreToCpLike line = Some r /\ num_eq r n) /\
  (forall l, line = Some l -> score_type l = JStr "mate" ->
     ge (Number (score_value l)) (Fin 0) = true ->
     scoreToCpLike line = Some (Fin (30000 # 1))) /\
  (forall l, line = Some l -> score_type l = JStr "mate" ->
     lt (Number (score_value l)) (Fin 0) = true ->
     scoreToCpLike line = Some (Fin (-30000 # 1))) /\
  (forall l, line = Some l ->
     score_type l <> JStr "cp" -> score_type l <> JStr "mate" ->
     scoreToCpLike line = None).
Proof.
  repeat split.
  - intros ->. reflexivity.
  - intros l n -> Ht Hn Hnan. simpl. rewrite Ht. simpl.
    eexists. split; [reflexivity |]. apply or_else_number_eq; assumption.
  - intros l -> Ht Hge. simpl. rewrite Ht. simpl.
    rewrite (or_else_number_ge _ Hge). reflexivity.
  - intros l -> Ht Hlt. simpl. rewrite Ht. simpl.
    rewrite (or_else_number_lt _ Hlt). reflexivity.
  - intros l -> Hcp Hmate. simpl.
    destruct (score_type l) as [ | | b | m | t]; try reflexivity.
    destruct (String.eqb t "cp") eqn:E1.
    + apply String.eqb_eq in E1. subst t. contradiction.
    + destruct (String.eqb t "mate") eqn:E2; [| reflexivity].
      apply String.eqb_eq in E2. subst t. contradiction.
Qed.

Lemma starts_ci_spec pat s :
  starts_ci pat s = true <->
  exists mid post, s = mid ++ post /\ map upper mid = map upper pat.
Proof.
  revert s. induction pat as [| p pr IH]; intros s; simpl.
  - split; [intros _; exists [], s; split; reflexivity | reflexivity].
  - destruct s as [| c sr].
    + split; [discriminate |].
      intros (mid & post & Hs & Hm). destruct mid; discriminate.
    + rewrite andb_true_iff, Ascii.eqb_eq, IH. split.
      * intros (Hc & mid & post & -> & Hm).
        exists (c :: mid), post. simpl. rewrite Hm, Hc. split; reflexivity.
      * intros (mid & post & Hs & Hm).
        destruct mid as [| m mr]; [discriminate |]. simpl in *.
        injection Hs as -> ->. injection Hm as Hc Hm.
        split; [symmetry; exact Hc |]. exists mr, post. split; [reflexivity | exact Hm].
Qed.

Lemma test_from_spec alts s :
  test_from alts s = true <->
  exists kw, In kw alts /\
    exists pre mid post,
      s = pre ++ mid ++ post /\ map upper mid = map upper (list_ascii_of_string kw).
Proof.
  induction s as [| c r IH]; simpl; rewrite orb_true_iff, existsb_exists.
  - split.
    + intros [(kw & Hin & Hst) | Hf]; [| discriminate].
      apply starts_ci_spec in Hst. destruct Hst as (mid & post & Hs & Hm).
      exists kw. split; [exact Hin |]. exists [], mid, post. split; assumption.
    + intros (kw & Hin & pre & mid & post & Hs & Hm). left.
      exists kw. split; [exact Hin |]. apply starts_ci_spec.
      destruct pre; [| discriminate]. exists mid, post. split; assumption.
  - rewrite IH. split.
    + intros [(kw & Hin & Hst) | (kw & Hin & pre & mid & post & Hs & Hm)].
      * apply starts_ci_spec in Hst. destruct Hst as (mid & post & Hs & Hm).
        exists kw. split; [exact Hin |]. exists [], mid, post. split; assumption.
      * exists kw. split; [exact Hin |]. exists (c :: pre), mid, post.
        simpl. rewrite Hs. split; [reflexivity | exact Hm].
    + intros (kw & Hin & pre & mid & post & Hs & Hm).
      destruct pre as [| c' pre'].
      * left. exists kw. split; [exact Hin |]. apply starts_ci_spec.
        exists mid, post. split; assumption.
      * right. simpl in Hs. injection Hs as -> ->.
        exists kw. split; [exact Hin |]. exists pre', mid, post. split; [reflexivity | exact Hm].
Qed.

Lemma engine_error_re_spec r : engine_error_re r = true <-> is_engine_error r.
Proof.
  unfold engine_error_re, is_engine_error, contains_ci.
  change error_words with alternatives. apply test_from_spec.
Qed.

Lemma engine_error_nonempty r : is_engine_error r -> r <> "".
Proof.
  intros (kw & Hin & pre & mid & post & Hs & Hm) ->. simpl in Hs.
  destruct pre; [| discriminate]. destruct mid; [| discriminate].
  simpl in Hin.
  destruct Hin as [<- | [<- | [<- | [<- | [<- | []]]]]]; discriminate.
Qed.

(** C7. Given a reason string that contains, letter case apart, [failed],
    [timeout], [not configured], [exited] or [error], the [analysis:stopped]
    handler sets the status text to the reason and calls
    [toast("error", reason)], which on a page with its toast host appends one
    toast of class [toast error] showing the reason; given any other reason
    string it sets the status text (to the reason, or to [stopped] when the
    reason is empty) and appends no toast. *)
Theorem analysis_stopped_toast els st r :
  (is_engine_error r ->
     statusText (analysis (fst (onMessage els st (MsgAnalysisStopped (Some r))))) = r /\
     snd (onMessage els st (MsgAnalysisStopped (Some r))) = toast els "error" r /\
     (toastHost els = true ->
        snd (onMessage els st (MsgAnalysisStopped (Some r))) = [Toasted "toast error" r])) /\
  (~ is_engine_error r ->
     statusText (analysis (fst (onMessage els st (MsgAnalysisStopped (Some r))))) =
       (if String.eqb r "" then "stopped" else r) /\
     snd (onMessage els st (MsgAnalysisStopped (Some r))) = []).
Proof.
  cbn [onMessage onAnalysisStopped fst snd with_analysis analysis statusText].
  split.
  - intros He. pose proof (engine_error_nonempty r He) as Hne.
    apply engine_error_re_spec in He. rewrite He.
    apply String.eqb_neq in Hne. rewrite Hne.
    split; [reflexivity |]. split; [reflexivity |].
    intros Hhost. unfold toast. rewrite Hhost. reflexivity.
  - intros Hn. destruct (engine_error_re r) eqn:E.
    + exfalso. apply Hn. apply engine_error_re_spec. exact E.
    + split; reflexivity.
Qed.

Example engine_error_re_samples :
  engine_error_re "Engine EXITED (code 1)" = true /\
  engine_error_re "engine Not Configured" = true /\
  engine_error_re "HandshakeTimeout" = true /\
  engine_error_re "disabled" = false /\
  engine_error_re "position_changed" = false /\
  engine_error_re "" = false.
Proof. vm_compute. repeat split; reflexivity. Qed.

(** Without a toast host the handler still sets the status text, and
    [toast] does nothing. *)
Example analysis_stopped_without_host :
  onMessage {| toastHost := false; moveList := true; treeList := true |} granted_state (MsgAnalysisStopped (Some "exited"))
  = (with_analysis granted_state
       {| available := true; enabled := false; multipv := Fin 1;
          statusText := "exited"; elapsedMs := Fin 0; nodeId := None;
          lines := []; history := [] |}, []).
Proof. reflexivity. Qed.

Lemma exited_is_engine_error : is_engine_error "exited".
Proof.
  exists "exited". split; [simpl; tauto |].
  exists [], (list_ascii_of_string "exited"), []. split; reflexivity.
Defined.

Lemma analysis_stopped_toast_witness :
  statusText (analysis (fst (onMessage page granted_state (MsgAnalysisStopped (Some "exited")))))
    = "exited" /\
  snd (onMessage page granted_state (MsgAnalysisStopped (Some "exited")))
    = [Toasted "toast error" "exited"].
Proof.
  destruct (proj1 (analysis_stopped_toast page granted_state "exited")
              exited_is_engine_error) as (Hstatus & _ & Htoast).
  split; [exact Hstatus | exact (Htoast eq_refl)].
Defined.

(** ** MultiPV *)

Lemma clamp_between n : n <> NaN -> between 1 5 (clamp n (Fin 1) (Fin 5)).
Proof.
  intros Hn. destruct n as [ | | | q]; simpl; try congruence.
  - split; [discriminate | apply Qle_refl].
  - split; [apply Qle_refl | discriminate].
  - destruct (Qle_bool 1 q) eqn:E1.
    + destruct (Qle_bool 5 q) eqn:E5; simpl.
      * split; [discriminate | apply Qle_refl].
      * split; [apply Qle_bool_iff; exact E1 |].
        apply Qlt_le_weak. apply Qnot_le_lt. intros H.
        apply Qle_bool_iff in H. congruence.
    + simpl. split; [apply Qle_refl | discriminate].
Qed.

Lemma sync_multipv st :
  multipv (analysis (syncAnalysisFromGame st)) =
    clamp (Number (or_else
             match game st with Some g => ui_analysis_multipv g | None => JUndefined end
             (JNum (Fin 1)))) (Fin 1) (Fin 5).
Proof.
  unfold syncAnalysisFromGame.
  match goal with |- context [if ?c then _ else _] => destruct c end; reflexivity.
Qed.

(** X3. What [game:state] stores is in 1..5 as soon as the raw value
    converts to a number. *)
Lemma game_state_multipv_between els st g :
  Number (or_else match g with Some gm => ui_analysis_multipv gm | None => JUndefined end
                  (JNum (Fin 1))) <> NaN ->
  between 1 5 (multipv (analysis (fst (onMessage els st (MsgGameState g))))).
Proof.
  intros H. cbn [onMessage fst].
  destruct (rerender_session els (syncAnalysisFromGame (with_game st g)))
    as (_ & _ & _ & _ & _ & ->).
  rewrite sync_multipv. apply clamp_between. exact H.
Qed.

(** X4. The listener of the MultiPV control sends a value in 1..5 as soon as
    the control's value converts to a number. *)
Lemma change_multipv_between els st value e :
  Number (or_else (JStr value) (JNum (Fin 1))) <> NaN ->
  In e (snd (onUi els st (ChangeMultipv value))) ->
  exists f v, e = Sent f /\ f_payload f = [("multipv", JNum v)] /\ between 1 5 v.
Proof.
  intros H. cbn [onUi snd]. unfold sendWs.
  destruct (ws st) as [[]|]; simpl; try tauto.
  intros [<- | []]. eexists. eexists. repeat split. apply clamp_between. exact H.
Qed.

(** C5. The code at a game whose [ui_state.analysis_multipv] is the string
    [auto]: after [game:state] the stored [state.analysis.multipv] is [NaN],
    not a value in 1..5; after [session:granted] it is [NaN] as well, and the
    client emits [analysis:set_multipv] carrying [NaN]. *)
Theorem multipv_not_numeric_escapes_clamp :
  multipv (analysis (fst (onMessage page granted_state (MsgGameState (Some auto_game))))) = NaN /\
  multipv (analysis (fst (onMessage page connected (MsgSessionGranted auto_granted)))) = NaN /\
  snd (onMessage page connected (MsgSessionGranted auto_granted)) =
    [Sent {| f_type := "analysis:set_multipv";
             f_payload := [("multipv", JNum NaN)];
             f_session_id := Some (JStr "S1");
             f_owner_token := Some (JStr "T1") |}].
Proof. repeat split; reflexivity. Qed.

(** ** Drops *)

Import Shogi.

Section DropRules.

Variable normalizeDropPieceType : string -> option string.

Lemma nifuLoop_false board c o rs :
  nifuLoop board c o rs = Some false ->
  forall r cells p,
    In r rs -> nth_error board r = Some cells ->
    nth_error cells c = Some (Some p) ->
    ~ (owner p = o /\ piece p = "pawn").
Proof.
  induction rs as [| a rs IH]; simpl; intros H r cells p Hin Hb Hc; [contradiction |].
  destruct Hin as [<- | Hin].
  - rewrite Hb, Hc in H.
    destruct (Player_eqb (owner p) o && String.eqb (piece p) "pawn") eqn:E;
      [discriminate |].
    intros [Ho Hp]. rewrite Ho, Hp in E. destruct o; discriminate.
  - destruct (nth_error board a) as [cells' |]; [| discriminate].
    destruct (nth_error cells' c) as [[p' |] |];
      try destruct (Player_eqb (owner p') o && String.eqb (piece p') "pawn");
      try discriminate; eapply IH; eauto.
Qed.

Lemma dropAt_in board t o r c here sq :
  dropAt board t o r c = Some here -> In sq here ->
  sq = {| row := r; col := c |} /\
  (exists cells, nth_error board r = Some cells /\ nth_error cells c = Some None) /\
  isDeadEndDrop t r o = false /\
  (t = "pawn" -> wouldCreateNifu board r c o = Some false).
Proof.
  unfold dropAt. intros H Hin.
  destruct (nth_error board r) as [cells |] eqn:Hb; [| discriminate].
  destruct (nth_error cells c) as [[p |] |] eqn:Hc;
    try (injection H as <-; contradiction).
  assert (Hkeep : forall l,
    In sq l -> l = (if isDeadEndDrop t r o then [] else [{| row := r; col := c |}]) ->
    sq = {| row := r; col := c |} /\ isDeadEndDrop t r o = false).
  { intros l Hl ->. destruct (isDeadEndDrop t r o); [contradiction |].
    destruct Hl as [<- | []]. split; reflexivity. }
  destruct (String.eqb t "pawn") eqn:Et.
  - destruct (wouldCreateNifu board r c o) as [[|] |] eqn:Hn; try discriminate.
    + injection H as <-. contradiction.
    + injection H as <-. destruct (Hkeep _ Hin eq_refl) as [-> Hd].
      repeat split; eauto.
  - injection H as <-. destruct (Hkeep _ Hin eq_refl) as [-> Hd].
    repeat split; eauto.
    intros ->. discriminate.
Qed.

Lemma dropLoop_in board t o sqs out sq :
  dropLoop board t o sqs = Some out -> In sq out ->
  exists r c here, In (r, c) sqs /\ dropAt board t o r c = Some here /\ In sq here.
Proof.
  revert out. induction sqs as [| [r c] rest IH]; simpl; intros out H Hin.
  - injection H as <-. contradiction.
  - destruct (dropAt board t o r c) as [here |] eqn:Hd; [| discriminate].
    destruct (dropLoop board t o rest) as [later |]; [| discriminate].
    injection H as <-. apply in_app_or in Hin. destruct Hin as [Hin | Hin].
    + exists r, c, here. auto.
    + destruct (IH later eq_refl Hin) as (r' & c' & here' & Hi & Hd' & Hs).
      exists r', c', here'. auto.
Qed.

Lemma isDeadEndDrop_false t r o :
  isDeadEndDrop t r o = false ->
  (t = "pawn" \/ t = "lance" -> match o with SENTE => r <> 0 | GOTE => r <> 8 end) /\
  (t = "knight" -> match o with SENTE => 1 < r | GOTE => r < 7 end).
Proof.
  unfold isDeadEndDrop. intros H. split.
  - intros Ht.
    assert (E : String.eqb t "pawn" || String.eqb t "lance" = true)
      by (destruct Ht as [-> | ->]; reflexivity).
    rewrite E in H. destruct o.
    + apply Nat.eqb_neq. exact H.
    + apply Nat.eqb_neq. exact H.
  - intros ->.
    change (String.eqb "knight" "pawn" || String.eqb "knight" "lance") with false in H.
    change (String.eqb "knight" "knight") with true in H.
    cbv iota in H. destruct o.
    + apply Nat.leb_gt in H. exact H.
    + apply Nat.leb_gt in H. exact H.
Qed.

(** C9. Every square [getDropMoves] returns is on the board and empty; when
    the base piece type is the pawn, no pawn of the same owner stands in its
    column; and it is not on the last rank for that owner's pawn or lance,
    nor on the last two ranks for the knight. *)
Theorem getDropMoves_legal board pieceType o out sq :
  getDropMoves normalizeDropPieceType board pieceType o = Some out ->
  In sq out ->
  legal_drop normalizeDropPieceType board pieceType o sq.
Proof.
  unfold getDropMoves, legal_drop. intros H Hin.
  destruct (dropLoop_in _ _ _ _ _ _ H Hin) as (r & c & here & Hsq & Hd & Hh).
  destruct (dropAt_in _ _ _ _ _ _ _ Hd Hh) as (-> & Hempty & Hdead & Hnifu).
  apply in_prod_iff in Hsq. destruct Hsq as [Hr Hc].
  apply in_seq in Hr. apply in_seq in Hc.
  destruct (isDeadEndDrop_false _ _ _ Hdead) as [Hpl Hk].
  cbn [row col]. repeat split; try lia; try assumption.
  intros Hp r' cells p Hr' Hb Hcell.
  apply (nifuLoop_false board c o (seq 0 9) (Hnifu Hp) r' cells p);
    [apply in_seq; lia | exact Hb | exact Hcell].
Qed.

Lemma nifuLoop_total board c o rs :
  (forall r, In r rs -> r < length board) ->
  exists b, nifuLoop board c o rs = Some b.
Proof.
  induction rs as [| a rs IH]; simpl; intros Hrs; [eauto |].
  destruct (nth_error board a) as [cells |] eqn:Hb.
  - destruct (nth_error cells c) as [[p |] |];
      try destruct (Player_eqb (owner p) o && String.eqb (piece p) "pawn"); eauto.
  - apply nth_error_None in Hb. specialize (Hrs a (or_introl eq_refl)). lia.
Qed.

Lemma dropLoop_total board t o sqs :
  9 <= length board ->
  (forall r c, In (r, c) sqs -> r < 9) ->
  exists out, dropLoop board t o sqs = Some out.
Proof.
  intros Hlen. induction sqs as [| [r c] rest IH]; simpl; intros Hs; [eauto |].
  assert (Hr : r < 9) by (eapply Hs; eauto).
  destruct IH as [later ->]; [intros; eapply Hs; eauto |].
  assert (exists here, dropAt board t o r c = Some here) as [here ->].
  { unfold dropAt. destruct (nth_error board r) as [cells |] eqn:Hb.
    - destruct (nth_error cells c) as [[p |] |]; eauto.
      destruct (String.eqb t "pawn"); eauto.
      destruct (nifuLoop_total board c o (seq 0 9)) as [b Hb'].
      + intros x Hx. apply in_seq in Hx. lia.
      + unfold wouldCreateNifu. rewrite Hb'. destruct b; eauto.
    - apply nth_error_None in Hb. lia. }
  eauto.
Qed.

(** X20. On a board of nine rows [getDropMoves] returns a list: no read of
    a board row throws. *)
Lemma getDropMoves_total board pieceType o :
  9 <= length board ->
  exists out, getDropMoves normalizeDropPieceType board pieceType o = Some out.
Proof.
  intros Hlen. apply dropLoop_total; [exact Hlen |].
  intros r c Hin. apply in_prod_iff in Hin. destruct Hin as [Hr _].
  apply in_seq in Hr. lia.
Qed.

End DropRules.

Example getDropMoves_sample_pawn :
  getDropMoves sample_normalize sample_board "pawn" SENTE =
    Some (map (fun rc => {| row := fst rc; col := snd rc |})
              (List.filter (fun rc => negb (Nat.eqb (snd rc) 0)
                                 && negb (Nat.eqb (fst rc) 0)
                                 && negb (Nat.eqb (fst rc) 2 && Nat.eqb (snd rc) 3))
                      (list_prod (seq 0 9) (seq 0 9)))).
Proof. vm_compute. reflexivity. Qed.

Example getDropMoves_sample_knight :
  getDropMoves sample_normalize sample_board "promoted_knight" GOTE =
    Some (map (fun rc => {| row := fst rc; col := snd rc |})
              (List.filter (fun rc => Nat.ltb (fst rc) 7
                                 && negb (Nat.eqb (fst rc) 2 && Nat.eqb (snd rc) 3)
                                 && negb (Nat.eqb (fst rc) 6 && Nat.eqb (snd rc) 0))
                      (list_prod (seq 0 9) (seq 0 9)))).
Proof. vm_compute. reflexivity. Qed.

(** A board with a row missing: reading it throws. *)
Example getDropMoves_short_board :
  getDropMoves sample_normalize (firstn 8 sample_board) "gold" SENTE = None.
Proof. vm_compute. reflexivity. Qed.

Lemma getDropMoves_legal_witness :
  legal_drop sample_normalize sample_board "pawn" SENTE {| row := 5; col := 1 |}.
Proof.
  refine (getDropMoves_legal sample_normalize sample_board "pawn" SENTE
            (match getDropMoves sample_normalize sample_board "pawn" SENTE with
             | Some l => l
             | None => []
             end)
            {| row := 5; col := 1 |} _ _).
  - vm_compute. reflexivity.
  - vm_compute. do 31 right. left. reflexivity.
Defined.

(** ** Jump to end *)

Section JumpToEnd.

Variable g : Game.

Lemma first_child_child p c : first_child g p c -> child g p c.
Proof.
  unfold first_child, child, firstChildId. intros H.
  destruct (children_index g !! p) as [[| c' l] |] eqn:E; try discriminate.
  injection H as ->. exists (c :: l). split; [reflexivity | left; reflexivity].
Qed.

Lemma first_child_in_dom p c : first_child g p c -> p ∈ dom (children_index g).
Proof.
  intros H. destruct (first_child_child p c H) as (l & Hl & _).
  apply elem_of_dom. eauto.
Qed.

(** The first-child chain from [cur] ends after at most as many steps as
    there are parents not yet visited. *)
Lemma chain_ends :
  acyclic g ->
  forall k (visited : gset string) cur,
    visited ⊆ dom (children_index g) ->
    (forall v, v ∈ visited -> tc (child g) v cur) ->
    size (dom (children_index g)) - size visited <= k ->
    exists n last,
      n <= k /\ nsteps (first_child g) n cur last /\
      firstChildId (Some g) last = None.
Proof.
  intros Hacyc. induction k as [| k IH]; intros visited cur Hsub Hreach Hsize;
    destruct (firstChildId (Some g) cur) as [c |] eqn:Hfc;
    try (exists 0, cur; split; [lia | split; [constructor | exact Hfc]]).
  - (* every parent is visited, so [cur] is, and it reaches itself *)
    exfalso. pose proof (first_child_in_dom cur c Hfc) as Hdom.
    assert (Heq : visited = dom (children_index g)).
    { apply set_eq. intros x. split; [apply Hsub |]. intros Hx.
      destruct (decide (x ∈ visited)) as [| Hnot]; [assumption |].
      pose proof (subseteq_size visited (dom (children_index g)) Hsub) as Hle.
      assert (Hlt : size (visited ∪ {[x]}) <= size (dom (children_index g))).
      { apply subseteq_size. apply union_subseteq.
        split; [exact Hsub | apply singleton_subseteq_l; exact Hx]. }
      rewrite size_union in Hlt by (apply disjoint_singleton_r; exact Hnot).
      rewrite size_singleton in Hlt. lia. }
    apply (Hacyc cur). apply Hreach. rewrite Heq. exact Hdom.
  - pose proof (first_child_in_dom cur c Hfc) as Hdom.
    assert (Hnot : cur ∉ visited).
    { intros Hin. apply (Hacyc cur). apply Hreach. exact Hin. }
    destruct (IH (visited ∪ {[cur]}) c) as (n & last & Hn & Hsteps & Hlast).
    + apply union_subseteq.
      split; [exact Hsub | apply singleton_subseteq_l; exact Hdom].
    + intros v Hv. apply elem_of_union in Hv. destruct Hv as [Hv | Hv].
      * eapply tc_r; [apply Hreach; exact Hv | apply first_child_child; exact Hfc].
      * apply elem_of_singleton in Hv. subst v.
        apply tc_once. apply first_child_child. exact Hfc.
    + rewrite size_union by (apply disjoint_singleton_r; exact Hnot).
      rewrite size_singleton. lia.
    + exists (S n), last. split; [lia |]. split; [| exact Hlast].
      econstructor; [exact Hfc | exact Hsteps].
Qed.

(** With more fuel than the chain has steps, the loop leaves at its end. *)
Lemma endLoop_reaches n cur last :
  ids_nonempty g ->
  nsteps (first_child g) n cur last ->
  firstChildId (Some g) last = None ->
  forall fuel, n < fuel ->
    endLoop fuel (Some g) cur (firstChildId (Some g) cur) = Some last.
Proof.
  intros Hne Hsteps Hlast. induction Hsteps as [cur | n cur c last Hfc Hsteps IH];
    intros fuel Hfuel; destruct fuel as [| fuel]; try lia.
  - rewrite Hlast. reflexivity.
  - assert (Hc : c <> "").
    { destruct (first_child_child cur c Hfc) as (l & Hl & Hin). eapply Hne; eauto. }
    unfold first_child in Hfc. rewrite Hfc.
    apply String.eqb_neq in Hc. cbn [endLoop truthy_id]. rewrite Hc. cbn [negb].
    apply IH; [exact Hlast | lia].
Qed.

Lemma first_child_heads p c : first_child g p c -> heads g p c.
Proof.
  unfold first_child, heads, firstChildId. intros H.
  destruct (children_index g !! p) as [[| c' l] |]; try discriminate.
  injection H as ->. exists l. reflexivity.
Qed.

Lemma no_first_child x : firstChildId (Some g) x = None -> lists_no_child g x.
Proof.
  unfold lists_no_child, firstChildId.
  destruct (children_index g !! x) as [[| c l] |]; try discriminate; auto.
Qed.

(** C10. In a snapshot whose children index is acyclic and whose node ids
    are non-empty strings, the loop of the jump-to-end listener leaves (any
    bound above the number of parents is enough), and the node it jumps to
    ends the first-child chain of [children_index] from the current node:
    each node of the chain heads the list of the one before, and the index
    lists no child for the last. *)
Theorem jump_to_end_terminates st cur :
  game st = Some g -> current_node_id g = Some cur -> cur <> "" ->
  acyclic g -> ids_nonempty g ->
  exists last,
    rtc (heads g) cur last /\
    lists_no_child g last /\
    forall fuel, size (children_index g) < fuel ->
      clickEnd fuel st = Some (sendWs st "node:jump" [("node_id", JStr last)]).
Proof.
  intros Hg Hcur Hne Hacyc Hids.
  destruct (chain_ends Hacyc (size (dom (children_index g))) ∅ cur)
    as (n & last & Hn & Hsteps & Hlast).
  - apply empty_subseteq.
  - intros v Hv. apply not_elem_of_empty in Hv. contradiction.
  - lia.
  - exists last. split; [| split; [apply no_first_child; exact Hlast |]].
    + apply (rtc_subrel (first_child g) (heads g)); [exact first_child_heads |].
      eapply rtc_nsteps_2. exact Hsteps.
    + intros fuel Hfuel. unfold clickEnd. rewrite Hg, Hcur.
      apply String.eqb_neq in Hne. rewrite Hne.
      rewrite (endLoop_reaches n cur last Hids Hsteps Hlast); [reflexivity |].
      rewrite size_dom in Hn. lia.
Qed.

End JumpToEnd.

(** A rank that grows along every edge rules out cycles. *)
Lemma ranked_acyclic (g : Game) (rank : string -> nat) :
  (forall p c, child g p c -> rank p < rank c) -> acyclic g.
Proof.
  intros Hrank x Hx.
  assert (H : forall a b, tc (child g) a b -> rank a < rank b).
  { intros a b Hab. induction Hab as [a b Hc | a b c Hc _ IH].
    - apply Hrank. exact Hc.
    - apply Hrank in Hc. lia. }
  apply H in Hx. lia.
Qed.

Lemma branch_game_children p c :
  child branch_game p c ->
  (p = "n0" /\ (c = "n1" \/ c = "n2")) \/ (p = "n1" /\ c = "n3").
Proof.
  intros (l & Hl & Hin). cbn [branch_game children_index] in Hl.
  apply lookup_insert_Some in Hl. destruct Hl as [[<- <-] | [_ Hl]].
  - left. split; [reflexivity |]. destruct Hin as [<- | [<- | []]]; auto.
  - apply lookup_insert_Some in Hl. destruct Hl as [[<- <-] | [_ Hl]].
    + right. split; [reflexivity |]. destruct Hin as [<- | []]; auto.
    + rewrite lookup_empty in Hl. discriminate.
Qed.

Lemma branch_game_acyclic : acyclic branch_game.
Proof.
  apply (ranked_acyclic branch_game
           (fun s => if String.eqb s "n0" then 0
                     else if String.eqb s "n3" then 2 else 1)).
  intros p c Hc. apply branch_game_children in Hc.
  destruct Hc as [[-> [-> | ->]] | [-> ->]]; simpl; lia.
Qed.

Lemma branch_game_ids : ids_nonempty branch_game.
Proof.
  intros p l c Hl Hin.
  assert (Hc : child branch_game p c) by (exists l; split; assumption).
  apply branch_game_children in Hc.
  destruct Hc as [[_ [-> | ->]] | [_ ->]]; discriminate.
Qed.

Example clickEnd_branch :
  clickEnd 3 branch_state =
    Some [Sent {| f_type := "node:jump"; f_payload := [("node_id", JStr "n3")];
                  f_session_id := Some (JStr "S1");
                  f_owner_token := Some (JStr "T1") |}].
Proof. vm_compute. reflexivity. Qed.

Lemma jump_to_end_terminates_witness :
  exists last,
    rtc (heads branch_game) "n0" last /\
    lists_no_child branch_game last /\
    forall fuel, size (children_index branch_game) < fuel ->
      clickEnd fuel branch_state =
        Some (sendWs branch_state "node:jump" [("node_id", JStr last)]).
Proof.
  apply (jump_to_end_terminates branch_game branch_state "n0" eq_refl eq_refl).
  - discriminate.
  - exact branch_game_acyclic.
  - exact branch_game_ids.
Defined.

(** ** The game tree *)

Import GameTree.

Lemma NoDup_map_eq {A B : Type} (f : A -> B) (l : list A) x y :
  List.NoDup (map f l) -> In x l -> In y l -> f x = f y -> x = y.
Proof.
  induction l as [| a l IH]; simpl; intros Hnd Hx Hy Hf; [contradiction |].
  inversion Hnd as [| ? ? Hnot Hnd']; subst.
  destruct Hx as [-> | Hx]; destruct Hy as [-> | Hy]; auto.
  - exfalso. apply Hnot. rewrite Hf. apply in_map. exact Hy.
  - exfalso. apply Hnot. rewrite <- Hf. apply in_map. exact Hx.
Qed.

Lemma NoDup_map_filter {A B : Type} (f : A -> B) (keep : A -> bool) (l : list A) :
  List.NoDup (map f l) -> List.NoDup (map f (List.filter keep l)).
Proof.
  induction l as [| a l IH]; simpl; intros Hnd; [constructor |].
  inversion Hnd as [| ? ? Hnot Hnd']; subst.
  destruct (keep a); simpl; [constructor |]; auto.
  intros Hin. apply Hnot. apply in_map_iff in Hin. destruct Hin as (x & Hx & Hin).
  apply filter_In in Hin. apply in_map_iff. exists x. tauto.
Qed.

Lemma same_move_key m c :
  same_move m c = true ->
  option_map normalize_move (move_usi c) = Some (normalize_move m).
Proof.
  unfold same_move. destruct (move_usi c) as [m' |]; [| discriminate].
  intros H. apply String.eqb_eq in H. simpl. rewrite H. reflexivity.
Qed.

(** Among children with distinct moves, the ones that carry [m] are at most
    one. *)
Lemma same_move_unique t p m c c' :
  moves_distinct t p ->
  In c (children_of t p) -> In c' (children_of t p) ->
  same_move m c = true -> same_move m c' = true -> c = c'.
Proof.
  intros Hd Hc Hc' Hm Hm'.
  apply (NoDup_map_eq _ _ c c' Hd Hc Hc').
  rewrite (same_move_key _ _ Hm), (same_move_key _ _ Hm'). reflexivity.
Qed.

Lemma filter_unique {A : Type} (keep : A -> bool) (l : list A) x :
  In x l -> keep x = true ->
  (forall y, In y l -> keep y = true -> y = x) ->
  List.NoDup l -> List.filter keep l = [x].
Proof.
  induction l as [| a l IH]; simpl; intros Hin Hk Huniq Hnd; [contradiction |].
  inversion Hnd as [| ? ? Hnot Hnd']; subst.
  destruct Hin as [-> | Hin].
  - rewrite Hk. f_equal.
    destruct (List.filter keep l) as [| y rest] eqn:E; [reflexivity |].
    assert (Hy : In y (List.filter keep l)) by (rewrite E; left; reflexivity).
    apply filter_In in Hy. destruct Hy as [Hy Hky].
    exfalso. apply Hnot. rewrite <- (Huniq y (or_intror Hy) Hky). exact Hy.
  - destruct (keep a) eqn:Ea.
    + exfalso. apply Hnot. rewrite (Huniq a (or_introl eq_refl) Ea). exact Hin.
    + apply IH; auto.
Qed.

Section TreeOperations.

Variable apply_move : string -> string -> option string.

Lemma find_node_app t id p extra :
  find_node t id = Some p ->
  find (fun n => Nat.eqb (node_id n) id) (nodes t ++ extra) = Some p.
Proof.
  unfold find_node. induction (nodes t) as [| a l IH]; simpl; [discriminate |].
  destruct (Nat.eqb (node_id a) id); auto.
Qed.

Lemma find_app_none {A : Type} (f : A -> bool) (l : list A) x :
  find f l = None -> f x = true -> find f (l ++ [x]) = Some x.
Proof.
  induction l as [| a l IH]; simpl; intros Hn Hx.
  - rewrite Hx. reflexivity.
  - destruct (f a); [discriminate | auto].
Qed.

(** Dedup at a parent whose children carry distinct moves. *)
Lemma play_move_dedup_at t P m :
  moves_distinct t P ->
  (forall p c,
     find_node t P = Some p -> In c (children_of t P) -> same_move m c = true ->
     exists t',
       play_move apply_move t P m = inr (t', node_id c) /\
       nodes t' = nodes t /\ children_of t' P = children_of t P) /\
  (forall t1 id1,
     play_move apply_move t P m = inr (t1, id1) ->
     exists t2,
       play_move apply_move t1 P m = inr (t2, id1) /\
       nodes t2 = nodes t1 /\
       length (List.filter (same_move m) (children_of t1 P)) = 1).
Proof.
  intros Hd. split.
  - intros p c Hp Hc Hm. unfold play_move. rewrite Hp.
    destruct (find (same_move m) (children_of t P)) as [c' |] eqn:Hf.
    + apply find_some in Hf. destruct Hf as [Hc' Hm'].
      rewrite (same_move_unique t P m c c' Hd Hc Hc' Hm Hm').
      eexists. split; [reflexivity |]. split; reflexivity.
    + exfalso. pose proof (find_none _ _ Hf c Hc) as Hn. congruence.
  - intros t1 id1. unfold play_move at 1.
    destruct (find_node t P) as [p |] eqn:Hp; [| discriminate].
    destruct (find (same_move m) (children_of t P)) as [c |] eqn:Hf.
    + (* the move was there: the same search finds it again *)
      intros H. injection H as <- <-.
      assert (Hkids : children_of (with_current t (node_id c)) P = children_of t P)
        by reflexivity.
      exists (with_current t (node_id c)).
      unfold play_move. unfold find_node in *. cbn [nodes with_current].
      rewrite Hp, Hkids, Hf. split; [reflexivity |]. split; [reflexivity |].
      pose proof (find_some _ _ Hf) as [Hc Hm].
      rewrite (filter_unique (same_move m) (children_of t P) c Hc Hm); [reflexivity | |].
      * intros y Hy Hmy. symmetry. eapply same_move_unique; eauto.
      * apply (NoDup_map_inv _ _ Hd).
    + (* the move was new: the child just appended is found *)
      destruct (apply_move (position_sfen p) m) as [sfen |] eqn:Ha; [| discriminate].
      intros H. injection H as <- <-.
      set (new := {| node_id := next_id t; parent_id := Some P;
                     order_index := length (children_of t P);
                     move_usi := Some m; position_sfen := sfen |}).
      assert (Hnew : same_move m new = true)
        by (unfold same_move; simpl; apply String.eqb_refl).
      assert (Hkids : forall cur nxt,
                children_of {| nodes := nodes t ++ [new]; root_node_id := root_node_id t;
                               current_node_id := cur; next_id := nxt |} P
                = children_of t P ++ [new]).
      { intros cur nxt. unfold children_of. cbn [nodes]. rewrite List.filter_app. simpl.
        unfold has_parent at 2. simpl. rewrite Nat.eqb_refl. reflexivity. }
      eexists. unfold play_move, find_node. cbn [nodes].
      rewrite (find_node_app t P p [new] Hp), Hkids.
      rewrite (find_app_none _ _ new Hf Hnew).
      split; [reflexivity |]. split; [reflexivity |].
      rewrite List.filter_app. simpl. rewrite Hnew.
      assert (Hnone : List.filter (same_move m) (children_of t P) = []).
      { destruct (List.filter (same_move m) (children_of t P)) as [| y r] eqn:E;
          [reflexivity |].
        assert (Hy : In y (List.filter (same_move m) (children_of t P)))
          by (rewrite E; left; reflexivity).
        apply filter_In in Hy. destruct Hy as [Hy Hmy].
        pose proof (find_none _ _ Hf y Hy). congruence. }
      rewrite Hnone. reflexivity.
Qed.

End TreeOperations.

(** ** Sibling order *)

Lemma index_of_tail y r x : x <> y -> index_of (y :: r) x = S (index_of r x).
Proof. intros H. simpl. apply Nat.eqb_neq in H. rewrite H. reflexivity. Qed.

(** In a list without repetition every id sits at its own position. *)
Lemma index_of_positions ids :
  List.NoDup ids -> map (index_of ids) ids = seq 0 (length ids).
Proof.
  induction ids as [| y r IH]; intros Hnd; [reflexivity |].
  inversion Hnd as [| ? ? Hnot Hnd']; subst.
  cbn [map length seq]. f_equal.
  - simpl. rewrite Nat.eqb_refl. reflexivity.
  - rewrite <- seq_shift, <- (IH Hnd'), map_map.
    apply map_ext_in. intros x Hx. apply index_of_tail.
    intros ->. contradiction.
Qed.

Lemma is_permutation_sound a b : is_permutation a b = true -> Permutation a b.
Proof.
  unfold is_permutation. intros H.
  apply (Permutation_count_occ Nat.eq_dec). intros x.
  destruct (in_dec Nat.eq_dec x (a ++ b)) as [Hin | Hnot].
  - rewrite forallb_forall in H. apply Nat.eqb_eq. apply H. exact Hin.
  - rewrite (proj1 (count_occ_not_In Nat.eq_dec a x)),
            (proj1 (count_occ_not_In Nat.eq_dec b x)); [reflexivity | |];
      intros Hx; apply Hnot; apply in_or_app; tauto.
Qed.

Lemma has_parent_reindex q p ids n : has_parent q (reindex p ids n) = has_parent q n.
Proof. unfold reindex. destruct (has_parent p n); reflexivity. Qed.

Lemma node_id_reindex p ids n : node_id (reindex p ids n) = node_id n.
Proof. unfold reindex. destruct (has_parent p n); reflexivity. Qed.

Lemma filter_reindex q p ids l :
  List.filter (has_parent q) (map (reindex p ids) l) =
  map (reindex p ids) (List.filter (has_parent q) l).
Proof.
  induction l as [| a l IH]; simpl; [reflexivity |].
  rewrite has_parent_reindex. destruct (has_parent q a); simpl; rewrite IH; reflexivity.
Qed.

Lemma has_parent_unique p q n : has_parent p n = true -> has_parent q n = true -> p = q.
Proof.
  unfold has_parent. destruct (parent_id n) as [x |]; [| discriminate].
  intros H1 H2. apply Nat.eqb_eq in H1, H2. congruence.
Qed.

(** The order indexes of the children of [q] after the children of [p] were
    reindexed along [ids]. *)
Lemma order_after_reindex q p ids l :
  map order_index (map (reindex p ids) (List.filter (has_parent q) l)) =
  if Nat.eqb q p
  then map (index_of ids) (map node_id (List.filter (has_parent q) l))
  else map order_index (List.filter (has_parent q) l).
Proof.
  rewrite !map_map. destruct (Nat.eqb q p) eqn:E.
  - apply Nat.eqb_eq in E. subst q. apply map_ext_in. intros n Hn.
    apply filter_In in Hn. destruct Hn as [_ Hn]. unfold reindex. rewrite Hn. reflexivity.
  - apply map_ext_in. intros n Hn.
    apply filter_In in Hn. destruct Hn as [_ Hn]. unfold reindex.
    destruct (has_parent p n) eqn:Hp; [| reflexivity].
    apply Nat.eqb_neq in E. exfalso. apply E. eapply has_parent_unique; eauto.
Qed.

Section TreeInvariant.

Variable apply_move : string -> string -> option string.

Lemma play_move_well_formed t from m t' id :
  well_formed t -> play_move apply_move t from m = inr (t', id) -> well_formed t'.
Proof.
  intros (Hnd & Hlt & Hgap). unfold play_move.
  destruct (find_node t from) as [p |]; [| discriminate].
  destruct (find (same_move m) (children_of t from)) as [c |].
  - intros H. injection H as <- <-. repeat split; assumption.
  - destruct (apply_move (position_sfen p) m) as [sfen |]; [| discriminate].
    intros H. injection H as <- <-.
    unfold well_formed, gapless_at, children_of. cbn [nodes next_id].
    repeat split.
    + rewrite map_app. simpl. apply List.NoDup_app.
      * exact Hnd.
      * constructor; [simpl; tauto | constructor].
      * intros x Hx [<- | []]. apply in_map_iff in Hx.
        destruct Hx as (n & Hn & Hin). apply Hlt in Hin. lia.
    + intros n Hin. apply in_app_or in Hin. destruct Hin as [Hin | [<- | []]].
      * apply Hlt in Hin. lia.
      * simpl. lia.
    + intros q. rewrite List.filter_app. cbn [List.filter].
      match goal with
      | |- context [has_parent q ?n] => change (has_parent q n) with (Nat.eqb from q)
      end.
      destruct (Nat.eqb from q) eqn:E.
      * apply Nat.eqb_eq in E. subst q.
        rewrite map_app, length_app. simpl.
        rewrite seq_app. simpl.
        apply Permutation_app; [apply Hgap | apply Permutation_refl].
      * rewrite app_nil_r. apply Hgap.
Qed.

Lemma reorder_children_well_formed t p ids t' :
  well_formed t -> reorder_children t p ids = inr t' -> well_formed t'.
Proof.
  intros (Hnd & Hlt & Hgap). unfold reorder_children.
  destruct (is_permutation ids (map node_id (children_of t p))) eqn:Hperm;
    [| discriminate].
  intros H. injection H as <-.
  apply is_permutation_sound in Hperm.
  unfold well_formed, gapless_at, children_of in *. cbn [nodes next_id].
  repeat split.
  - rewrite map_map. rewrite (map_ext _ node_id); [exact Hnd |].
    intros n. apply node_id_reindex.
  - intros n Hin. apply in_map_iff in Hin. destruct Hin as (n0 & <- & Hin).
    rewrite node_id_reindex. apply Hlt. exact Hin.
  - intros q. rewrite filter_reindex, order_after_reindex, length_map.
    destruct (Nat.eqb q p) eqn:E; [| apply Hgap].
    apply Nat.eqb_eq in E. subst q.
    assert (Hids : List.NoDup ids).
    { apply (Permutation_NoDup (Permutation_sym Hperm)).
      apply NoDup_map_filter. exact Hnd. }
    rewrite <- (length_map node_id), <- (Permutation_length Hperm).
    rewrite <- (index_of_positions ids Hids).
    apply Permutation_map. apply Permutation_sym. exact Hperm.
Qed.

Lemma apply_op_well_formed t o : well_formed t -> well_formed (apply_op apply_move t o).
Proof.
  intros Hwf. destruct o as [from m | p ids]; simpl.
  - destruct (play_move apply_move t from m) as [e | [t' id]] eqn:E; [exact Hwf |].
    eapply play_move_well_formed; eauto.
  - destruct (reorder_children t p ids) as [e | t'] eqn:E; [exact Hwf |].
    eapply reorder_children_well_formed; eauto.
Qed.

Lemma apply_ops_well_formed ops :
  forall t, well_formed t -> well_formed (apply_ops apply_move t ops).
Proof.
  unfold apply_ops. induction ops as [| o ops IH]; simpl; intros t Hwf; [exact Hwf |].
  apply IH. apply apply_op_well_formed. exact Hwf.
Qed.

(** C4. After any finite sequence of [play_move] and [reorder_children]
    applied to a well-formed tree, the [order_index] values of the [k]
    children of any node are exactly [0 .. k-1], each once. *)
Theorem sibling_order_gapless t ops N :
  well_formed t ->
  Permutation
    (map order_index (children_of (apply_ops apply_move t ops) N))
    (seq 0 (length (children_of (apply_ops apply_move t ops) N))).
Proof.
  intros Hwf. destruct (apply_ops_well_formed ops t Hwf) as (_ & _ & Hgap).
  apply Hgap.
Qed.

End TreeInvariant.

(** ** Dedup of moves *)

Lemma same_move_of_key m c :
  option_map normalize_move (move_usi c) = Some (normalize_move m) ->
  same_move m c = true.
Proof.
  unfold same_move. destruct (move_usi c) as [m' |]; simpl; [| discriminate].
  intros [= H]. rewrite H. apply String.eqb_refl.
Qed.

Lemma move_usi_reindex p ids n : move_usi (reindex p ids n) = move_usi n.
Proof. unfold reindex. destruct (has_parent p n); reflexivity. Qed.

Section TreeDedup.

Variable apply_move : string -> string -> option string.

(** [play_move] keeps the moves under a parent distinct: it appends a child
    only when no child carries the move. *)
Lemma play_move_moves_distinct t from m t' id P :
  moves_distinct t P -> play_move apply_move t from m = inr (t', id) ->
  moves_distinct t' P.
Proof.
  intros Hd. unfold play_move.
  destruct (find_node t from) as [p |]; [| discriminate].
  destruct (find (same_move m) (children_of t from)) as [c |] eqn:Hf.
  - intros H. injection H as <- <-. exact Hd.
  - destruct (apply_move (position_sfen p) m) as [sfen |]; [| discriminate].
    intros H. injection H as <- <-.
    unfold moves_distinct, children_of in *. cbn [nodes].
    rewrite List.filter_app. cbn [List.filter].
    match goal with
    | |- context [has_parent P ?n] => change (has_parent P n) with (Nat.eqb from P)
    end.
    destruct (Nat.eqb from P) eqn:E; [| rewrite app_nil_r; exact Hd].
    apply Nat.eqb_eq in E. subst from.
    rewrite map_app. cbn [map move_usi option_map].
    apply List.NoDup_app; [exact Hd | constructor; [simpl; tauto | constructor] |].
    intros k Hk [<- | []].
    apply in_map_iff in Hk. destruct Hk as (c & Hkey & Hc).
    apply same_move_of_key in Hkey.
    pose proof (find_none _ _ Hf c Hc) as Hn. congruence.
Qed.

(** [reorder_children] changes no move. *)
Lemma reorder_children_moves_distinct t p ids t' P :
  moves_distinct t P -> reorder_children t p ids = inr t' -> moves_distinct t' P.
Proof.
  intros Hd. unfold reorder_children.
  destruct (is_permutation ids (map node_id (children_of t p))); [| discriminate].
  intros H. injection H as <-.
  unfold moves_distinct, children_of in *. cbn [nodes].
  rewrite filter_reindex, map_map.
  rewrite (map_ext _ (fun c => option_map normalize_move (move_usi c))); [exact Hd |].
  intros c. rewrite move_usi_reindex. reflexivity.
Qed.

Lemma apply_op_moves_distinct t o P :
  moves_distinct t P -> moves_distinct (apply_op apply_move t o) P.
Proof.
  intros Hd. destruct o as [from m | p ids]; simpl.
  - destruct (play_move apply_move t from m) as [e | [t' id]] eqn:E; [exact Hd |].
    eapply play_move_moves_distinct; eauto.
  - destruct (reorder_children t p ids) as [e | t'] eqn:E; [exact Hd |].
    eapply reorder_children_moves_distinct; eauto.
Qed.

Lemma apply_ops_moves_distinct ops P :
  forall t, moves_distinct t P -> moves_distinct (apply_ops apply_move t ops) P.
Proof.
  unfold apply_ops. induction ops as [| o ops IH]; simpl; intros t Hd; [exact Hd |].
  apply IH. apply apply_op_moves_distinct. exact Hd.
Qed.

(** C3. In a tree built by any sequence of [play_move] and
    [reorder_children] from one in which the children of [P] carry distinct
    moves (a new game has no children), a move that a child of [P] already
    carries (after normalisation) is not played again: [play_move] returns
    that child's id and leaves the nodes, hence the children of [P], as they
    were; and two calls in a row from the same parent return the same id,
    the second adds no node, and exactly one child of [P] carries the
    move. *)
Theorem play_move_dedup t0 ops P m :
  moves_distinct t0 P ->
  (forall p c,
     find_node (apply_ops apply_move t0 ops) P = Some p ->
     In c (children_of (apply_ops apply_move t0 ops) P) ->
     same_move m c = true ->
     exists t',
       play_move apply_move (apply_ops apply_move t0 ops) P m = inr (t', node_id c) /\
       nodes t' = nodes (apply_ops apply_move t0 ops) /\
       children_of t' P = children_of (apply_ops apply_move t0 ops) P) /\
  (forall t1 id1,
     play_move apply_move (apply_ops apply_move t0 ops) P m = inr (t1, id1) ->
     exists t2,
       play_move apply_move t1 P m = inr (t2, id1) /\
       nodes t2 = nodes t1 /\
       length (List.filter (same_move m) (children_of t1 P)) = 1).
Proof.
  intros Hd.
  exact (play_move_dedup_at apply_move (apply_ops apply_move t0 ops) P m
           (apply_ops_moves_distinct ops P t0 Hd)).
Qed.

End TreeDedup.

Lemma root_only_well_formed : well_formed root_only.
Proof.
  repeat split.
  - simpl. constructor; [simpl; tauto | constructor].
  - intros n [<- | []]. simpl. lia.
  - intros p. unfold gapless_at. simpl. apply Permutation_refl.
Qed.

(** A new game has no children, so no two of them carry the same move. *)
Lemma root_only_moves_distinct P : moves_distinct root_only P.
Proof. unfold moves_distinct. simpl. constructor. Qed.

Example play_move_first :
  play_move sample_apply root_only 0 "7g7f" = inr (after_first_move, 1).
Proof. reflexivity. Qed.

Example play_move_again_normalised :
  play_move sample_apply after_first_move 0 " 7G7F " = inr (after_first_move, 1).
Proof. vm_compute. reflexivity. Qed.

Example root_children_after_two_plays :
  length (children_of
            (apply_ops sample_apply root_only [PlayMove 0 "7g7f"; PlayMove 0 "7g7f"]) 0)
  = 1.
Proof. vm_compute. reflexivity. Qed.

Example reorder_rejects_non_permutation :
  reorder_children after_first_move 0 [1; 1] = inl BadPermutation.
Proof. vm_compute. reflexivity. Qed.

Example sample_ops_order :
  map (fun n => (node_id n, order_index n))
      (children_of (apply_ops sample_apply root_only sample_ops) 0)
  = [(1, 1); (2, 0)].
Proof. vm_compute. reflexivity. Qed.

Example two_children_listed :
  map (fun c => (node_id c, order_index c, move_usi c)) (children_of two_children 0)
  = [(1, 1, Some "7g7f"); (2, 0, Some "2g2f")].
Proof. vm_compute. reflexivity. Qed.

Lemma play_move_dedup_witness :
  (exists t',
     play_move sample_apply two_children 0 " 7G7F " = inr (t', 1) /\
     nodes t' = nodes two_children /\
     children_of t' 0 = children_of two_children 0) /\
  (exists t2,
     play_move sample_apply (with_current two_children 1) 0 " 7G7F " = inr (t2, 1) /\
     nodes t2 = nodes (with_current two_children 1) /\
     length (List.filter (same_move " 7G7F ")
               (children_of (with_current two_children 1) 0)) = 1).
Proof.
  destruct (play_move_dedup sample_apply root_only dedup_ops 0 " 7G7F "
              (root_only_moves_distinct 0)) as [Hfound Htwice].
  split.
  - apply (Hfound
             {| node_id := 0; parent_id := None; order_index := 0;
                move_usi := None; position_sfen := "startpos" |}
             {| node_id := 1; parent_id := Some 0; order_index := 1;
                move_usi := Some "7g7f"; position_sfen := "startpos 7g7f" |}).
    + vm_compute. reflexivity.
    + vm_compute. left. reflexivity.
    + vm_compute. reflexivity.
  - apply (Htwice (with_current two_children 1) 1).
    vm_compute. reflexivity.
Defined.

Lemma sibling_order_gapless_witness :
  Permutation
    (map order_index (children_of (apply_ops sample_apply root_only sample_ops) 0))
    (seq 0 (length (children_of (apply_ops sample_apply root_only sample_ops) 0))).
Proof.
  apply (sibling_order_gapless sample_apply root_only sample_ops 0).
  exact root_only_well_formed.
Defined.

(** ** Cadence of the analysis updates *)

Import Coalescer.

Lemma run_cons s e rest :
  run s (e :: rest) =
    (fst (run (fst (step s e)) rest),
     snd (step s e) ++ snd (run (fst (step s e)) rest)).
Proof.
  cbn [run]. destruct (step s e) as [s1 out1]. cbn [fst snd].
  destruct (run s1 rest) as [s2 out2]. reflexivity.
Qed.

Lemma run_app s a b :
  run s (a ++ b) =
    (fst (run (fst (run s a)) b), snd (run s a) ++ snd (run (fst (run s a)) b)).
Proof.
  revert s. induction a as [| e a IH]; intros s.
  - simpl. destruct (run s b). reflexivity.
  - rewrite <- app_comm_cons, !run_cons, IH. cbn [fst snd].
    rewrite app_assoc. reflexivity.
Qed.

Lemma step_started s e : started (fst (step s e)) = started s.
Proof.
  destruct e as [t i l | t]; simpl; [reflexivity |].
  destruct (dirty s && (interval (t - started s) <=? t - last_flush s)%Z); reflexivity.
Qed.

Lemma interval_bounds e :
  (500 <= interval e)%Z /\ (5000 <= e -> interval e = 1000)%Z.
Proof.
  unfold interval. destruct (e <? 5000)%Z eqn:E.
  - apply Z.ltb_lt in E. lia.
  - apply Z.ltb_ge in E. lia.
Qed.

(** Every run keeps its emissions spaced, counting from the last flush
    before it. *)
Lemma run_spaced evs :
  forall s, spaced (started s) (last_flush s) (map at_ms (snd (run s evs))).
Proof.
  induction evs as [| e evs IH]; intros s; [exact I |].
  rewrite run_cons. cbn [snd]. specialize (IH (fst (step s e))).
  rewrite step_started in IH.
  destruct e as [t i l | t]; cbn [step fst snd] in *; [exact IH |].
  destruct (dirty s && (interval (t - started s) <=? t - last_flush s)%Z) eqn:E;
    cbn [fst snd app map at_ms last_flush] in *; [| exact IH].
  apply andb_true_iff in E. destruct E as [_ E]. apply Z.leb_le in E.
  split; [exact E | exact IH].
Qed.

Lemma spaced_consecutive t0 ts :
  forall prev i a b,
    spaced t0 prev ts ->
    nth_error ts i = Some a -> nth_error ts (S i) = Some b ->
    (interval (b - t0) <= b - a)%Z.
Proof.
  induction ts as [| x r IH]; intros prev i a b Hs Ha Hb; [destruct i; discriminate |].
  destruct Hs as [_ Hs]. destruct i as [| i].
  - simpl in Ha. injection Ha as ->. destruct r as [| y r]; [discriminate |].
    simpl in Hb. injection Hb as ->. destruct Hs as [Hs _]. exact Hs.
  - simpl in Ha. eapply IH; eauto.
Qed.

Lemma run_silent_app s a b :
  snd (run s a) = [] -> snd (run (fst (run s a)) b) = [] -> snd (run s (a ++ b)) = [].
Proof. intros Ha Hb. rewrite run_app. cbn [snd]. rewrite Ha, Hb. reflexivity. Qed.

(** A dirty state was dirty from the start of a silent run, or a raw update
    arrived and nothing was emitted since. *)
Lemma dirty_since evs :
  forall s,
    dirty (fst (run s evs)) = true ->
    (dirty s = true /\ snd (run s evs) = []) \/
    exists pre t i l post,
      evs = pre ++ Info t i l :: post /\
      snd (run (fst (run s (pre ++ [Info t i l]))) post) = [].
Proof.
  induction evs as [| e evs IH] using rev_ind; intros s Hd.
  - left. split; [exact Hd | reflexivity].
  - rewrite run_app in Hd. cbn [fst] in Hd.
    destruct e as [t i l | t].
    + right. exists evs, t, i, l, []. split; reflexivity.
    + rewrite run_cons in Hd. cbn [fst run step] in Hd.
      set (s1 := fst (run s evs)) in *.
      destruct (dirty s1 && (interval (t - started s1) <=? t - last_flush s1)%Z) eqn:E;
        cbn [fst dirty] in Hd; [discriminate |].
      assert (Htick : snd (run s1 [Tick t]) = []).
      { rewrite run_cons. cbn [step snd fst run]. rewrite E. reflexivity. }
      destruct (IH s Hd) as [[Hs Hout] | (pre & t' & i & l & post & -> & Hout)].
      * left. split; [exact Hs |]. apply run_silent_app; assumption.
      * right. exists pre, t', i, l, (post ++ [Tick t]).
        split; [rewrite <- app_assoc; reflexivity |].
        apply run_silent_app; [exact Hout |].
        assert (Hsame : fst (run (fst (run s (pre ++ [Info t' i l]))) post) = s1).
        { unfold s1. replace (pre ++ Info t' i l :: post)
            with ((pre ++ [Info t' i l]) ++ post)
            by (rewrite <- app_assoc; reflexivity).
          rewrite (run_app s (pre ++ [Info t' i l]) post). reflexivity. }
        rewrite Hsame. exact Htick.
Qed.

(** C6. In a search started at [t0], any two consecutive emissions are at
    least 500 ms apart, and at least 1000 ms apart when the later one comes
    5000 ms or more after the start; the first one comes at least 500 ms
    after the start; and a tick emits only if a raw update arrived after the
    previous emission, with no emission in between. *)
Theorem cadence_bound t0 evs :
  (forall i a b,
     nth_error (snd (run (start t0) evs)) i = Some a ->
     nth_error (snd (run (start t0) evs)) (S i) = Some b ->
     (500 <= at_ms b - at_ms a)%Z /\
     (5000 <= at_ms b - t0 -> 1000 <= at_ms b - at_ms a)%Z) /\
  (forall a, nth_error (snd (run (start t0) evs)) 0 = Some a ->
     (500 <= at_ms a - t0)%Z) /\
  (forall pre t post,
     evs = pre ++ Tick t :: post ->
     snd (step (fst (run (start t0) pre)) (Tick t)) <> [] ->
     exists pre1 t' i l pre2,
       pre = pre1 ++ Info t' i l :: pre2 /\
       snd (run (fst (run (start t0) (pre1 ++ [Info t' i l]))) pre2) = []).
Proof.
  pose proof (run_spaced evs (start t0)) as Hsp. cbn [started last_flush start] in Hsp.
  split; [| split].
  - intros i a b Ha Hb.
    pose proof (spaced_consecutive t0 _ t0 i (at_ms a) (at_ms b) Hsp) as Hc.
    rewrite !nth_error_map, Ha, Hb in Hc. specialize (Hc eq_refl eq_refl).
    pose proof (interval_bounds (at_ms b - t0)). lia.
  - intros a Ha.
    destruct (snd (run (start t0) evs)) as [| x r]; [discriminate |].
    simpl in Ha. injection Ha as ->. destruct Hsp as [Hsp _].
    pose proof (interval_bounds (at_ms a - t0)). lia.
  - intros pre t post _ Hemit.
    assert (Hd : dirty (fst (run (start t0) pre)) = true).
    { cbn [step] in Hemit.
      destruct (dirty (fst (run (start t0) pre))); [reflexivity |].
      simpl in Hemit. congruence. }
    destruct (dirty_since pre (start t0) Hd) as [[Hs _] | H]; [discriminate | exact H].
Qed.

Example sample_emissions :
  map at_ms (snd (run (start 0) sample_events)) = [500; 1000; 5600; 6600]%Z.
Proof. vm_compute. reflexivity. Qed.

(* ===================================================================== *)
(** * Further properties of the client                                    *)
(* ===================================================================== *)

Import Client Samples MoreSamples Shogi.

(** ** [clamp] *)

Lemma Qle_bool_false x y : Qle_bool x y = false -> Qlt y x.
Proof.
  intros H. apply Qnot_le_lt. intros Hle. apply Qle_bool_iff in Hle. congruence.
Qed.

(** X1. For bounds [a <= b] and any number but [NaN], [clamp(n, a, b)] lies
    between [a] and [b], and it is [n] itself when [n] already does. *)
Theorem clamp_within (n : num) (a b : Q) :
  n <> NaN -> Qle a b ->
  between a b (clamp n (Fin a) (Fin b)) /\
  (between a b n -> num_eq (clamp n (Fin a) (Fin b)) n).
Proof.
  intros Hn Hab. destruct n as [ | | | q]; try congruence; unfold clamp; cbn [Math_max].
  - (* Infinity *)
    cbn. split; [split; [exact Hab | apply Qle_refl] | tauto].
  - (* -Infinity *)
    cbn. split; [| tauto].
    destruct (Qle_bool b a) eqn:E.
    + split; [exact Hab | apply Qle_refl].
    + split; [apply Qle_refl | exact Hab].
  - destruct (Qle_bool a q) eqn:Ea; cbn [Math_min].
    + apply Qle_bool_iff in Ea. destruct (Qle_bool b q) eqn:Eb.
      * apply Qle_bool_iff in Eb. split.
        -- split; [exact Hab | apply Qle_refl].
        -- intros [_ Hqb]. cbn. apply Qle_antisym; assumption.
      * apply Qle_bool_false in Eb. split.
        -- split; [exact Ea | apply Qlt_le_weak; exact Eb].
        -- intros _. cbn. reflexivity.
    + apply Qle_bool_false in Ea. destruct (Qle_bool b a) eqn:Eb.
      * apply Qle_bool_iff in Eb. split.
        -- split; [exact Hab | apply Qle_refl].
        -- intros [Haq _]. exfalso. apply (Qlt_not_le _ _ Ea). exact Haq.
      * split.
        -- split; [apply Qle_refl | exact Hab].
        -- intros [Haq _]. exfalso. apply (Qlt_not_le _ _ Ea). exact Haq.
Qed.

Lemma clamp_within_witness :
  between 270 920 (clamp (Fin 1000) (Fin 270) (Fin 920)) /\
  (between 270 920 (Fin 1000) -> num_eq (clamp (Fin 1000) (Fin 270) (Fin 920)) (Fin 1000)).
Proof.
  apply (clamp_within (Fin 1000) 270 920).
  - discriminate.
  - discriminate.
Defined.

(** ** Frames and the state of the socket *)

Lemma sendWs_not_open st type payload :
  ws st <> Some OPEN -> sendWs st type payload = [].
Proof.
  intros H. unfold sendWs. destruct (ws st) as [[] |]; try reflexivity. congruence.
Qed.

Lemma toast_sends_nothing els level message f :
  ~ In (Sent f) (toast els level message).
Proof.
  unfold toast. destruct (toastHost els); simpl; [| tauto].
  intros [H | []]. discriminate.
Qed.

(** X2. While the socket is not open nothing is put on it: no listener, no
    message handler and no jump to the end sends a frame. *)
Theorem nothing_sent_unless_open els st :
  ws st <> Some OPEN ->
  (forall a f, ~ In (Sent f) (snd (onUi els st a))) /\
  (forall m f, ~ In (Sent f) (snd (onMessage els st m))) /\
  (forall fuel eff f, clickEnd fuel st = Some eff -> ~ In (Sent f) eff).
Proof.
  intros Hws.
  assert (Hsend : forall type payload, sendWs st type payload = [])
    by (intros; apply sendWs_not_open; exact Hws).
  split; [| split].
  - intros a f. destruct a; cbn [onUi snd]; rewrite ?Hsend;
      repeat match goal with
             | |- context [match ?x with _ => _ end] => destruct x
             end;
      rewrite ?Hsend; cbn [snd app In]; try tauto;
      first [ apply toast_sends_nothing
            | rewrite sendWs_not_open by exact Hws; simpl; tauto ].
  - intros m f. destruct m as [level message | | | | p | g | nid el ls best | reason |];
      cbn [onMessage onGranted onAnalysisStopped snd]; try (simpl; tauto);
      try apply toast_sends_nothing.
    + intros Hin. apply in_app_or in Hin. destruct Hin as [Hin | Hin].
      * destruct (g_last_error p) as [e |]; [| contradiction].
        destruct (String.eqb e ""); [contradiction |].
        exact (toast_sends_nothing _ _ _ _ Hin).
      * match type of Hin with
        | In _ (if ?c then sendWs ?s _ _ else _) =>
            destruct c; [| contradiction];
            rewrite (sendWs_not_open s) in Hin; [contradiction |]
        end.
        match goal with
        | |- ws (rerenderAll els ?s) <> _ =>
            destruct (rerender_session els s) as (-> & _);
            match s with
            | syncAnalysisFromGame ?s0 => destruct (sync_session s0) as (-> & _)
            end
        end.
        exact Hws.
    + destruct (engine_error_re _); [apply toast_sends_nothing | simpl; tauto].
  - intros fuel eff f. unfold clickEnd.
    destruct (game st) as [g |]; [| intros [= <-]; simpl; tauto].
    destruct (current_node_id g) as [c |]; [| intros [= <-]; simpl; tauto].
    destruct (String.eqb c ""); [intros [= <-]; simpl; tauto |].
    destruct (endLoop _ _ _ _); [| discriminate].
    rewrite Hsend. intros [= <-]. simpl. tauto.
Qed.

Lemma nothing_sent_unless_open_witness :
  (forall a f, ~ In (Sent f) (snd (onUi page (with_ws granted_state (Some CLOSING)) a))) /\
  (forall m f,
     ~ In (Sent f) (snd (onMessage page (with_ws granted_state (Some CLOSING)) m))) /\
  (forall fuel eff f,
     clickEnd fuel (with_ws granted_state (Some CLOSING)) = Some eff ->
     ~ In (Sent f) eff).
Proof.
  apply (nothing_sent_unless_open page (with_ws granted_state (Some CLOSING))).
  discriminate.
Defined.

(** ** MultiPV on numeric input *)

Lemma game_state_multipv_between_witness :
  between 1 5
    (multipv (analysis (fst (onMessage page granted_state
                               (MsgGameState (Some played_game)))))).
Proof.
  apply (game_state_multipv_between page granted_state (Some played_game)).
  discriminate.
Defined.

Lemma change_multipv_between_witness :
  exists f v,
    Sent {| f_type := "analysis:set_multipv";
            f_payload := [("multipv", JNum (Fin 5))];
            f_session_id := Some (JStr "S1");
            f_owner_token := Some (JStr "T1") |} = Sent f /\
    f_payload f = [("multipv", JNum v)] /\ between 1 5 v.
Proof.
  apply (change_multipv_between page granted_state "20").
  - vm_compute. discriminate.
  - vm_compute. left. reflexivity.
Defined.

(** X5. When the MultiPV setting of the game in a [session:granted]
    converts to a number, the value stored afterwards lies in 1..5, and so
    does the value of every [analysis:set_multipv] frame the handler sends to
    normalise an older setting. *)
Theorem granted_multipv_between els st p :
  Number (or_else match g_game p with
                  | Some g => ui_analysis_multipv g
                  | None => JUndefined
                  end (JNum (Fin 1))) <> NaN ->
  between 1 5 (multipv (analysis (fst (onMessage els st (MsgSessionGranted p))))) /\
  forall f, In (Sent f) (snd (onMessage els st (MsgSessionGranted p))) ->
    f_type f = "analysis:set_multipv" /\
    exists v, f_payload f = [("multipv", JNum v)] /\ between 1 5 v.
Proof.
  intros Hnum. cbn [onMessage onGranted fst snd].
  match goal with
  | |- context [rerenderAll els (syncAnalysisFromGame ?s0)] => set (st1 := s0)
  end.
  assert (Hmp : between 1 5 (multipv (analysis (rerenderAll els (syncAnalysisFromGame st1))))).
  { destruct (rerender_session els (syncAnalysisFromGame st1)) as (_ & _ & _ & _ & _ & ->).
    rewrite sync_multipv. apply clamp_between. exact Hnum. }
  split; [exact Hmp |].
  intros f Hin. apply in_app_or in Hin. destruct Hin as [Hin | Hin].
  - exfalso. destruct (g_last_error p) as [e |]; [| contradiction].
    destruct (String.eqb e ""); [contradiction |].
    exact (toast_sends_nothing _ _ _ _ Hin).
  - match type of Hin with
    | In _ (if ?c then _ else _) => destruct c; [| contradiction]
    end.
    unfold sendWs in Hin.
    destruct (ws (rerenderAll els (syncAnalysisFromGame st1))) as [[] |];
      try contradiction.
    destruct Hin as [Hin | []]. injection Hin as <-. cbn [f_type f_payload].
    split; [reflexivity |]. eexists. split; [reflexivity | exact Hmp].
Qed.

Lemma granted_multipv_between_witness :
  between 1 5
    (multipv (analysis (fst (onMessage page connected
                               (MsgSessionGranted legacy_granted))))) /\
  forall f, In (Sent f) (snd (onMessage page connected (MsgSessionGranted legacy_granted))) ->
    f_type f = "analysis:set_multipv" /\
    exists v, f_payload f = [("multipv", JNum v)] /\ between 1 5 v.
Proof.
  apply (granted_multipv_between page connected legacy_granted).
  vm_compute. discriminate.
Defined.

Example legacy_granted_normalises :
  snd (onMessage page connected (MsgSessionGranted legacy_granted)) =
    [Sent {| f_type := "analysis:set_multipv";
             f_payload := [("multipv", JNum (Fin 5))];
             f_session_id := Some (JStr "S1");
             f_owner_token := Some (JStr "T1") |}].
Proof. vm_compute. reflexivity. Qed.

(** ** The rendered move list and tree *)

Lemma childrenOf_nodes g p id : In id (childrenOf g p) -> hasNode g id = true.
Proof.
  unfold childrenOf. destruct (children_index g !! p) as [idx |]; [| contradiction].
  intros H. apply filter_In in H. tauto.
Qed.

(** X6. After a render on a page with its move list and tree, every frame a
    click on one of their items sends is a [node:jump] to the item's node,
    and that node is one [nodeById] finds in the rendered game. *)
Theorem rendered_jumps_name_nodes els st g id f :
  game st = Some g -> moveList els = true -> treeList els = true ->
  In (Sent f) (snd (onUi els (rerenderAll els st) (ClickMoveItem id))) \/
  In (Sent f) (snd (onUi els (rerenderAll els st) (ClickTreeItem id))) ->
  hasNode g id = true /\
  f_type f = "node:jump" /\ f_payload f = [("node_id", JStr id)].
Proof.
  intros Hg Hml Htl Hin.
  assert (Hframe : forall s, In (Sent f) (sendWs s "node:jump" [("node_id", JStr id)]) ->
            f_type f = "node:jump" /\ f_payload f = [("node_id", JStr id)]).
  { intros s. unfold sendWs. destruct (ws s) as [[] |]; try contradiction.
    intros [H | []]. injection H as <-. split; reflexivity. }
  unfold rerenderAll in Hin. rewrite Hg in Hin.
  cbn [onUi snd with_items moveItems treeItems] in Hin.
  destruct Hin as [Hin | Hin].
  - destruct (existsb (String.eqb id) (renderMoveList els g (moveItems st))) eqn:E;
      [| contradiction].
    split; [| eapply Hframe; exact Hin].
    apply existsb_exists in E. destruct E as (x & Hx & Heq).
    apply String.eqb_eq in Heq. subst x.
    unfold renderMoveList in Hx. rewrite Hml in Hx.
    apply filter_In in Hx. tauto.
  - destruct (existsb (String.eqb id) (renderTree els g (treeItems st))) eqn:E;
      [| contradiction].
    split; [| eapply Hframe; exact Hin].
    apply existsb_exists in E. destruct E as (x & Hx & Heq).
    apply String.eqb_eq in Heq. subst x.
    unfold renderTree in Hx. rewrite Htl in Hx.
    destruct (current_node_id g) as [cur |]; [| contradiction].
    destruct (String.eqb cur ""); [contradiction |].
    apply in_app_or in Hx. destruct Hx as [Hx | Hx].
    + destruct (parentOf (Some g) cur) as [p |]; [| contradiction].
      destruct (Nat.ltb 1 (length (childrenOf g p))); [| contradiction].
      eapply childrenOf_nodes; exact Hx.
    + eapply childrenOf_nodes; exact Hx.
Qed.

Lemma rendered_jumps_name_nodes_witness :
  hasNode played_game "n2" = true /\
  f_type {| f_type := "node:jump"; f_payload := [("node_id", JStr "n2")];
            f_session_id := Some (JStr "S1"); f_owner_token := Some (JStr "T1") |}
    = "node:jump" /\
  f_payload {| f_type := "node:jump"; f_payload := [("node_id", JStr "n2")];
               f_session_id := Some (JStr "S1"); f_owner_token := Some (JStr "T1") |}
    = [("node_id", JStr "n2")].
Proof.
  apply (rendered_jumps_name_nodes page (with_game granted_state (Some played_game))
           played_game "n2" _ eq_refl eq_refl eq_refl).
  right. vm_compute. left. reflexivity.
Defined.

(** ** Analysis lines across [game:state] *)

(** X7. After an [analysis:update] for node [x], a [game:state] whose current
    node is [x] keeps the lines, the history and the status [running]; one
    whose current node is another node empties lines and history, zeroes the
    elapsed time and sets the status to [starting...] or [stopped] by the
    game's analysis flag. *)
Theorem game_state_resets_analysis_on_node_change els st x el ls best g :
  x <> "" ->
  (current_node_id g = Some x ->
     lines (analysis (fst (onMessage els (onAnalysisUpdate st (Some x) el ls best)
                             (MsgGameState (Some g))))) = ls /\
     history (analysis (fst (onMessage els (onAnalysisUpdate st (Some x) el ls best)
                               (MsgGameState (Some g)))))
       = history (analysis (onAnalysisUpdate st (Some x) el ls best)) /\
     statusText (analysis (fst (onMessage els (onAnalysisUpdate st (Some x) el ls best)
                                  (MsgGameState (Some g))))) = "running") /\
  (forall y, current_node_id g = Some y -> y <> "" -> y <> x ->
     lines (analysis (fst (onMessage els (onAnalysisUpdate st (Some x) el ls best)
                             (MsgGameState (Some g))))) = [] /\
     history (analysis (fst (onMessage els (onAnalysisUpdate st (Some x) el ls best)
                               (MsgGameState (Some g))))) = [] /\
     elapsedMs (analysis (fst (onMessage els (onAnalysisUpdate st (Some x) el ls best)
                                 (MsgGameState (Some g))))) = Fin 0 /\
     statusText (analysis (fst (onMessage els (onAnalysisUpdate st (Some x) el ls best)
                                  (MsgGameState (Some g)))))
       = if truthy (ui_analysis_enabled g) then "starting..." else "stopped").
Proof.
  intros Hx. apply String.eqb_neq in Hx.
  cbn [onMessage fst].
  match goal with
  | |- context [rerenderAll els ?s] =>
      destruct (rerender_session els s) as (_ & _ & _ & _ & _ & ->)
  end.
  unfold syncAnalysisFromGame, onAnalysisUpdate.
  cbn [with_game with_analysis game analysis nodeId truthy_id]. rewrite Hx. cbn [negb].
  split.
  - intros ->. rewrite ?Hx, ?String.eqb_refl. cbn. repeat split; reflexivity.
  - intros y -> Hy Hyx. apply String.eqb_neq in Hy.
    assert (Hne : String.eqb x y = false) by (apply String.eqb_neq; congruence).
    rewrite ?Hx, ?Hy, ?Hne. cbn. repeat split; reflexivity.
Qed.

Lemma game_state_resets_analysis_on_node_change_witness :
  lines (analysis (fst (onMessage page
           (onAnalysisUpdate granted_state (Some "n0") (JNum (Fin 1500)) [] None)
           (MsgGameState (Some played_game))))) = [] /\
  history (analysis (fst (onMessage page
             (onAnalysisUpdate granted_state (Some "n0") (JNum (Fin 1500)) [] None)
             (MsgGameState (Some played_game))))) = [] /\
  elapsedMs (analysis (fst (onMessage page
               (onAnalysisUpdate granted_state (Some "n0") (JNum (Fin 1500)) [] None)
               (MsgGameState (Some played_game))))) = Fin 0 /\
  statusText (analysis (fst (onMessage page
                (onAnalysisUpdate granted_state (Some "n0") (JNum (Fin 1500)) [] None)
                (MsgGameState (Some played_game)))))
    = if truthy (ui_analysis_enabled played_game) then "starting..." else "stopped".
Proof.
  apply (proj2 (game_state_resets_analysis_on_node_change page granted_state "n0"
                  (JNum (Fin 1500)) [] None played_game ltac:(discriminate)) "n1").
  - reflexivity.
  - discriminate.
  - discriminate.
Defined.

(** ** Drops: what [getDropMoves] does not leave out *)

Section DropCompleteness.

Variable normalizeDropPieceType : string -> option string.

Lemma nifuLoop_true board c o rs :
  nifuLoop board c o rs = Some true ->
  exists r cells p,
    In r rs /\ nth_error board r = Some cells /\
    nth_error cells c = Some (Some p) /\ owner p = o /\ piece p = "pawn".
Proof.
  induction rs as [| a rs IH]; simpl; [discriminate |].
  destruct (nth_error board a) as [cells |] eqn:Hb; [| discriminate].
  destruct (nth_error cells c) as [[p |] |] eqn:Hc.
  - destruct (Player_eqb (owner p) o && String.eqb (piece p) "pawn") eqn:E.
    + intros _. apply andb_true_iff in E. destruct E as [Eo Ep].
      apply String.eqb_eq in Ep.
      exists a, cells, p. repeat split; auto.
      destruct (owner p), o; try discriminate; reflexivity.
    + intros H. destruct (IH H) as (r & cells' & p' & Hin & Hrest).
      exists r, cells', p'. tauto.
  - intros H. destruct (IH H) as (r & cells' & p' & Hin & Hrest).
    exists r, cells', p'. tauto.
  - intros H. destruct (IH H) as (r & cells' & p' & Hin & Hrest).
    exists r, cells', p'. tauto.
Qed.

(** X8. On a board of nine rows [wouldCreateNifu] returns, and it returns
    [true] exactly when some row holds an unpromoted pawn of that owner in
    the column. *)
Theorem wouldCreateNifu_spec board r c o :
  9 <= length board ->
  exists b,
    wouldCreateNifu board r c o = Some b /\
    (b = true <->
     exists r' cells p,
       r' < 9 /\ nth_error board r' = Some cells /\
       nth_error cells c = Some (Some p) /\ owner p = o /\ piece p = "pawn").
Proof.
  intros Hlen. unfold wouldCreateNifu.
  destruct (nifuLoop_total board c o (seq 0 9)) as [b Hb].
  { intros x Hx. apply in_seq in Hx. lia. }
  exists b. split; [exact Hb |]. destruct b.
  - split; [intros _ | reflexivity].
    destruct (nifuLoop_true _ _ _ _ Hb) as (r' & cells & p & Hin & Hrest).
    exists r', cells, p. apply in_seq in Hin. split; [lia | exact Hrest].
  - split; [discriminate |].
    intros (r' & cells & p & Hr & Hrow & Hcell & Ho & Hp). exfalso.
    apply (nifuLoop_false board c o (seq 0 9) Hb r' cells p); auto.
    apply in_seq. lia.
Qed.

Lemma dropLoop_keeps board t o sqs out r c here :
  dropLoop board t o sqs = Some out ->
  In (r, c) sqs -> dropAt board t o r c = Some here -> incl here out.
Proof.
  revert out. induction sqs as [| [r0 c0] rest IH]; simpl; intros out H Hin Hd;
    [contradiction |].
  destruct (dropAt board t o r0 c0) as [here0 |] eqn:Hd0; [| discriminate].
  destruct (dropLoop board t o rest) as [later |]; [| discriminate].
  injection H as <-. destruct Hin as [Heq | Hin].
  - injection Heq as -> ->. rewrite Hd in Hd0. injection Hd0 as <-.
    apply incl_appl. apply incl_refl.
  - apply incl_appr. eapply IH; eauto.
Qed.

Lemma dropLoop_reaches board t o sqs out r c :
  dropLoop board t o sqs = Some out -> In (r, c) sqs ->
  exists here, dropAt board t o r c = Some here.
Proof.
  revert out. induction sqs as [| [r0 c0] rest IH]; simpl; intros out H Hin;
    [contradiction |].
  destruct (dropAt board t o r0 c0) as [here0 |] eqn:Hd0; [| discriminate].
  destruct (dropLoop board t o rest) as [later |]; [| discriminate].
  destruct Hin as [Heq | Hin].
  - injection Heq as <- <-. eauto.
  - eapply IH; eauto.
Qed.

(** X9. [getDropMoves] leaves out no legal drop target: when it returns,
    every square that [legal_drop] describes is in the list. *)
Theorem getDropMoves_complete board pieceType o out sq :
  getDropMoves normalizeDropPieceType board pieceType o = Some out ->
  legal_drop normalizeDropPieceType board pieceType o sq ->
  In sq out.
Proof.
  unfold getDropMoves, legal_drop.
  intros H (Hr & Hc & (cells & Hrow & Hcell) & Hnifu & Hlast & Hknight).
  destruct sq as [r c]. cbn [row col] in *.
  assert (Hin : In (r, c) (list_prod (seq 0 9) (seq 0 9))).
  { apply in_prod_iff. split; apply in_seq; lia. }
  destruct (dropLoop_reaches _ _ _ _ _ _ _ H Hin) as [here Hd].
  apply (dropLoop_keeps _ _ _ _ _ _ _ _ H Hin Hd).
  assert (Hdead : isDeadEndDrop (baseType normalizeDropPieceType pieceType) r o = false).
  { unfold isDeadEndDrop.
    destruct (String.eqb (baseType normalizeDropPieceType pieceType) "pawn"
              || String.eqb (baseType normalizeDropPieceType pieceType) "lance") eqn:E.
    - apply orb_true_iff in E.
      assert (Hpl : baseType normalizeDropPieceType pieceType = "pawn" \/
                    baseType normalizeDropPieceType pieceType = "lance")
        by (destruct E as [E | E]; apply String.eqb_eq in E; auto).
      specialize (Hlast Hpl). destruct o; apply Nat.eqb_neq; exact Hlast.
    - destruct (String.eqb (baseType normalizeDropPieceType pieceType) "knight") eqn:Ek;
        [| reflexivity].
      apply String.eqb_eq in Ek. specialize (Hknight Ek).
      destruct o; apply Nat.leb_gt; exact Hknight. }
  unfold dropAt in Hd. rewrite Hrow, Hcell, Hdead in Hd.
  destruct (String.eqb (baseType normalizeDropPieceType pieceType) "pawn") eqn:Ep.
  - apply String.eqb_eq in Ep.
    destruct (wouldCreateNifu board r c o) as [[|] |] eqn:Hn; try discriminate.
    + exfalso. destruct (nifuLoop_true _ _ _ _ Hn) as (r' & cells' & p & Hr' & Hb & Hc' & Ho & Hp).
      apply in_seq in Hr'. apply (Hnifu Ep r' cells' p); auto. lia.
    + injection Hd as <-. left. reflexivity.
  - injection Hd as <-. left. reflexivity.
Qed.

End DropCompleteness.

Lemma getDropMoves_total_witness :
  exists out, getDropMoves sample_normalize sample_board "lance" GOTE = Some out.
Proof.
  apply (getDropMoves_total sample_normalize sample_board "lance" GOTE).
  vm_compute. lia.
Defined.

Lemma wouldCreateNifu_spec_witness :
  exists b,
    wouldCreateNifu sample_board 4 0 SENTE = Some b /\
    (b = true <->
     exists r' cells p,
       r' < 9 /\ nth_error sample_board r' = Some cells /\
       nth_error cells 0 = Some (Some p) /\ owner p = SENTE /\ piece p = "pawn").
Proof.
  apply (wouldCreateNifu_spec sample_board 4 0 SENTE).
  vm_compute. lia.
Defined.

Lemma sample_square_legal :
  legal_drop sample_normalize sample_board "knight" SENTE {| row := 2; col := 0 |}.
Proof.
  unfold legal_drop. cbn [row col].
  split; [lia |]. split; [lia |]. split; [| split; [| split]].
  - eexists. split; reflexivity.
  - vm_compute. discriminate.
  - vm_compute. intros [H | H]; discriminate.
  - intros _. lia.
Qed.

Lemma getDropMoves_complete_witness :
  In {| row := 2; col := 0 |}
     (match getDropMoves sample_normalize sample_board "knight" SENTE with
      | Some l => l
      | None => []
      end).
Proof.
  apply (getDropMoves_complete sample_normalize sample_board "knight" SENTE _
           {| row := 2; col := 0 |}).
  - vm_compute. reflexivity.
  - exact sample_square_legal.
Defined.

(** ** Piece movement on the board *)

Import Moves MoveRules.

Lemma Player_eqb_false a b : Player_eqb a b = false -> a <> b.
Proof. destruct a, b; simpl; congruence. Qed.

Lemma Player_eqb_true a b : Player_eqb a b = true -> a = b.
Proof. destruct a, b; simpl; congruence. Qed.

Lemma inBounds_spec r c :
  inBounds r c = true <-> (0 <= r < 9 /\ 0 <= c < 9)%Z.
Proof.
  unfold inBounds. rewrite !andb_true_iff, !Z.leb_le, !Z.ltb_lt. lia.
Qed.

Section Pushes.

Variable board : Board.
Variable o : Player.
Variable P : Square -> Prop.

Local Open Scope Z_scope.

Lemma add_keeps r c :
  (inBounds r c = true ->
   (forall q, cellAt board r c = Some (Some q) -> owner q <> o) ->
   P (square r c)) ->
  forall m m', add board o r c m = Returned m' -> Forall P m -> Forall P m'.
Proof.
  intros HP m m'. unfold add.
  destruct (inBounds r c) eqn:Hb; [| intros [= <-]; auto].
  destruct (cellAt board r c) as [[q |] |] eqn:Hc; [| | discriminate].
  - destruct (Player_eqb (owner q) o) eqn:Ho; intros [= <-]; auto.
    intros Hm. apply Forall_app. split; [exact Hm |].
    constructor; [| constructor].
    apply HP; [reflexivity |]. intros q' [= <-]. apply Player_eqb_false. exact Ho.
  - intros [= <-] Hm. apply Forall_app. split; [exact Hm |].
    constructor; [| constructor]. apply HP; [reflexivity | discriminate].
Qed.

Lemma slideFrom_keeps dr dc fuel : forall r c,
  (forall k, 0 <= k ->
     (forall j, 0 <= j < k ->
        inBounds (r + j * dr) (c + j * dc) = true /\
        cellAt board (r + j * dr) (c + j * dc) = Some None) ->
     inBounds (r + k * dr) (c + k * dc) = true ->
     (forall q, cellAt board (r + k * dr) (c + k * dc) = Some (Some q) -> owner q <> o) ->
     P (square (r + k * dr) (c + k * dc))) ->
  forall m m', slideFrom fuel board o r c dr dc m = Returned m' ->
               Forall P m -> Forall P m'.
Proof.
  induction fuel as [| fuel IH]; intros r c HP m m'; cbn [slideFrom].
  - destruct (inBounds r c); [discriminate | intros [= <-]; auto].
  - destruct (inBounds r c) eqn:Hb; [| intros [= <-]; auto].
    assert (Hhere : (forall q, cellAt board r c = Some (Some q) -> owner q <> o) ->
                    P (square r c)).
    { intros Hown. specialize (HP 0). rewrite !Z.mul_0_l, !Z.add_0_r in HP.
      apply HP; [lia | intros j Hj; lia | exact Hb | exact Hown]. }
    destruct (cellAt board r c) as [[q |] |] eqn:Hc; [| | discriminate].
    + destruct (Player_eqb (owner q) o) eqn:Ho; intros [= <-]; auto.
      intros Hm. apply Forall_app. split; [exact Hm |].
      constructor; [| constructor].
      apply Hhere. intros q' [= <-]. apply Player_eqb_false. exact Ho.
    + intros Hs Hm. eapply IH; [| exact Hs |].
      * intros k Hk Hpath Hbk Hown.
        replace (r + dr + k * dr) with (r + (k + 1) * dr) in * by ring.
        replace (c + dc + k * dc) with (c + (k + 1) * dc) in * by ring.
        apply HP; [lia | | exact Hbk | exact Hown].
        intros j Hj. destruct (Z.eq_dec j 0) as [-> | Hne].
        -- rewrite !Z.mul_0_l, !Z.add_0_r. split; assumption.
        -- replace (r + j * dr) with (r + dr + (j - 1) * dr) by ring.
           replace (c + j * dc) with (c + dc + (j - 1) * dc) by ring.
           apply Hpath. lia.
      * apply Forall_app. split; [exact Hm |]. constructor; [| constructor].
        apply Hhere. discriminate.
Qed.

Lemma inOrder_keeps gens :
  Forall (fun g : Gen =>
            forall m m', g m = Returned m' -> Forall P m -> Forall P m') gens ->
  forall m m', inOrder gens m = Returned m' -> Forall P m -> Forall P m'.
Proof.
  induction 1 as [| g gens Hg _ IH]; intros m m'; cbn [inOrder].
  - intros [= <-]; auto.
  - destruct (g m) as [m1 | |] eqn:E; try discriminate.
    intros H Hm. eapply IH; eauto.
Qed.

End Pushes.

Lemma square_coords r c :
  inBounds r c = true ->
  Z.of_nat (row (square r c)) = r /\ Z.of_nat (col (square r c)) = c.
Proof.
  intros H. apply inBounds_spec in H. unfold square. cbn [row col].
  rewrite !Z2Nat.id by lia. split; reflexivity.
Qed.

Lemma target_sound board o (fromRow fromCol r c : Z) :
  (r, c) <> (fromRow, fromCol) ->
  inBounds r c = true ->
  (forall q, cellAt board r c = Some (Some q) -> owner q <> o) ->
  row (square r c) < 9 /\ col (square r c) < 9 /\
  (Z.of_nat (row (square r c)), Z.of_nat (col (square r c))) <> (fromRow, fromCol) /\
  forall cells q,
    nth_error board (row (square r c)) = Some cells ->
    nth_error cells (col (square r c)) = Some (Some q) -> owner q <> o.
Proof.
  intros Hne Hb Hown. destruct (square_coords r c Hb) as [Hr Hc].
  rewrite Hr, Hc. apply inBounds_spec in Hb.
  unfold square in *. cbn [row col] in *.
  repeat split; try lia; try exact Hne.
  intros cells q Hrow Hcell. apply Hown. unfold cellAt. rewrite Hrow, Hcell.
  reflexivity.
Qed.

Ltac split_steps :=
  unfold goldSteps, kingSteps, addSlide;
  cbn [map list_prod app fst snd Z.eqb andb dir];
  repeat first [apply List.Forall_nil | apply List.Forall_cons].

(** X10. Every square [getPossibleMoves] returns for a piece is on the
    board, is not the square the piece stands on, and holds no piece of the
    piece's owner. *)
Theorem getPossibleMoves_sound fuel board fromRow fromCol p l sq :
  getPossibleMoves fuel board fromRow fromCol (Some p) = Returned l ->
  In sq l ->
  row sq < 9 /\ col sq < 9 /\
  (Z.of_nat (row sq), Z.of_nat (col sq)) <> (fromRow, fromCol) /\
  forall cells q,
    nth_error board (row sq) = Some cells ->
    nth_error cells (col sq) = Some (Some q) -> owner q <> owner p.
Proof.
  intros Hret Hin. pattern sq. revert sq Hin. apply List.Forall_forall.
  revert Hret. unfold getPossibleMoves. cbv zeta.
  remember (owner p) as o eqn:Ho. clear Ho.
  repeat match goal with
         | |- context [if ?b then _ else _] => destruct b
         end;
    intros Hret;
    first [ injection Hret as <-; apply List.Forall_nil
          | eapply inOrder_keeps; [ | exact Hret | apply List.Forall_nil ] ];
    destruct o; split_steps;
    first [ intros m m' [= <-]; solve [auto]
          | apply add_keeps; intros Hb Hown;
            apply target_sound; [ | exact Hb | exact Hown ];
            intros Heq; injection Heq; intros; lia
          | apply slideFrom_keeps; intros k Hk _ Hb Hown;
            apply target_sound; [ | exact Hb | exact Hown ];
            intros Heq; injection Heq; intros; lia ].
Qed.

Lemma ray_target board fromRow fromCol dr dc k :
  (0 <= k)%Z ->
  (forall j, (0 <= j < k)%Z ->
     inBounds (fromRow + dr + j * dr) (fromCol + dc + j * dc) = true /\
     cellAt board (fromRow + dr + j * dr) (fromCol + dc + j * dc) = Some None) ->
  inBounds (fromRow + dr + k * dr) (fromCol + dc + k * dc) = true ->
  slides_to board fromRow fromCol dr dc (k + 1)
            (square (fromRow + dr + k * dr) (fromCol + dc + k * dc)).
Proof.
  intros Hk Hpath Hb. destruct (square_coords _ _ Hb) as [Hr Hc].
  unfold slides_to. rewrite Hr, Hc.
  split; [lia |]. split; [ring |]. split; [ring |].
  intros j Hj.
  replace (fromRow + j * dr)%Z with (fromRow + dr + (j - 1) * dr)%Z by ring.
  replace (fromCol + j * dc)%Z with (fromCol + dc + (j - 1) * dc)%Z by ring.
  apply Hpath. lia.
Qed.

Lemma step_target board fromRow fromCol dr dc r c :
  r = (fromRow + dr)%Z -> c = (fromCol + dc)%Z ->
  inBounds r c = true ->
  slides_to board fromRow fromCol dr dc 1 (square r c).
Proof.
  intros -> -> Hb. destruct (square_coords _ _ Hb) as [Hr Hc].
  unfold slides_to. rewrite Hr, Hc.
  split; [lia |]. split; [ring |]. split; [ring |]. intros j Hj. lia.
Qed.

Ltac in_list := repeat first [left; reflexivity | right].

Ltac follow_rules fromRow fromCol :=
  first [ intros m m' [= <-]; solve [auto]
        | apply slideFrom_keeps; intros k Hk Hpath Hb _;
          eexists _, _, (k + 1)%Z;
          split; [ apply ray_target; assumption | left; vm_compute; in_list ]
        | apply add_keeps; intros Hb _;
          match goal with
          | |- context [square (fromRow + ?a) (fromCol + ?b)] => exists a, b, 1%Z
          | |- context [square (fromRow - ?a) (fromCol + ?b)] => exists (- a)%Z, b, 1%Z
          | |- context [square (fromRow + ?a) (fromCol - ?b)] => exists a, (- b)%Z, 1%Z
          | |- context [square (fromRow - ?a) (fromCol - ?b)] =>
              exists (- a)%Z, (- b)%Z, 1%Z
          | |- context [square (fromRow + ?a) fromCol] => exists a, 0%Z, 1%Z
          | |- context [square (fromRow - ?a) fromCol] => exists (- a)%Z, 0%Z, 1%Z
          | |- context [square fromRow (fromCol + ?b)] => exists 0%Z, b, 1%Z
          | |- context [square fromRow (fromCol - ?b)] => exists 0%Z, (- b)%Z, 1%Z
          end;
          split; [ apply step_target; [ lia | lia | exact Hb ]
                 | right; split; [ reflexivity | vm_compute; in_list ] ] ].

(** X11. Every square [getPossibleMoves] returns follows the piece's rule of
    movement: it lies some steps from the piece along a straight line, over
    squares of the board that hold no piece, and either the line is one of
    the piece's sliding directions, or the move is one of the piece's single
    steps.  No piece jumps but by its single steps. *)
Theorem moves_follow_rules fuel board fromRow fromCol p l sq :
  getPossibleMoves fuel board fromRow fromCol (Some p) = Returned l ->
  In sq l ->
  exists dr dc k,
    slides_to board fromRow fromCol dr dc k sq /\
    (In (dr, dc) (rays (piece p) (owner p)) \/
     (k = 1%Z /\ In (dr, dc) (steps (piece p) (owner p)))).
Proof.
  intros Hret Hin. pattern sq. revert sq Hin. apply List.Forall_forall.
  revert Hret. destruct p as [t o]. cbn [piece owner].
  unfold getPossibleMoves, rays, steps. cbn [piece owner]. cbv zeta.
  repeat lazymatch goal with
         | |- context [String.eqb t ?x] =>
             destruct (String.eqb t x) eqn:E;
             [ apply String.eqb_eq in E; subst t;
               solve [ cbn [String.eqb Ascii.eqb Bool.eqb andb orb];
                       intros Hret;
                       (eapply inOrder_keeps; [ | exact Hret | apply List.Forall_nil ]);
                       destruct o; split_steps; follow_rules fromRow fromCol ]
             | clear E ]
         end.
  cbn [orb]. intros [= <-]. apply List.Forall_nil.
Qed.

Lemma cellAt_defined board r c :
  9 <= length board -> inBounds r c = true -> exists x, cellAt board r c = Some x.
Proof.
  intros Hlen Hb. apply inBounds_spec in Hb. unfold cellAt.
  destruct (nth_error board (Z.to_nat r)) as [cells |] eqn:E.
  - destruct (nth_error cells (Z.to_nat c)) as [[q |] |]; eauto.
  - apply nth_error_None in E. lia.
Qed.

Lemma add_returns board o r c m :
  9 <= length board -> exists m', add board o r c m = Returned m'.
Proof.
  intros Hlen. unfold add. destruct (inBounds r c) eqn:Hb; [| eauto].
  destruct (cellAt_defined board r c Hlen Hb) as [[q |] Hx]; rewrite Hx; eauto.
  destruct (Player_eqb (owner q) o); eauto.
Qed.

Lemma slideFrom_returns board o dr dc :
  9 <= length board ->
  (dr = 1 \/ dr = -1 \/ (dr = 0 /\ (dc = 1 \/ dc = -1)))%Z ->
  forall fuel r c m,
    (inBounds r c = true ->
     (if dr =? 1 then 9 - r else if dr =? -1 then r + 1
      else if dc =? 1 then 9 - c else c + 1) <= Z.of_nat fuel)%Z ->
    exists m', slideFrom fuel board o r c dr dc m = Returned m'.
Proof.
  intros Hlen Hdir. induction fuel as [| fuel IH]; intros r c m Hm; cbn [slideFrom];
    destruct (inBounds r c) eqn:Hb; eauto.
  - specialize (Hm eq_refl). apply inBounds_spec in Hb.
    destruct Hdir as [-> | [-> | [-> [-> | ->]]]]; simpl in Hm; lia.
  - destruct (cellAt_defined board r c Hlen Hb) as [[q |] Hx]; rewrite Hx.
    + destruct (Player_eqb (owner q) o); eauto.
    + apply IH. intros Hb'. specialize (Hm eq_refl).
      apply inBounds_spec in Hb, Hb'.
      destruct Hdir as [-> | [-> | [-> [-> | ->]]]]; simpl in *; lia.
Qed.

Lemma inOrder_returns gens :
  Forall (fun g : Gen => forall m, exists m', g m = Returned m') gens ->
  forall m, exists m', inOrder gens m = Returned m'.
Proof.
  induction 1 as [| g gens Hg _ IH]; intros m; cbn [inOrder]; eauto.
  destruct (Hg m) as [m1 ->]. apply IH.
Qed.

(** X12. On a board of nine rows [getPossibleMoves] returns a list: no read
    of a board row throws, and nine iterations are enough for every loop of
    [addSlide]. *)
Theorem getPossibleMoves_returns fuel board fromRow fromCol pc :
  9 <= length board -> 9 <= fuel ->
  exists l, getPossibleMoves fuel board fromRow fromCol pc = Returned l.
Proof.
  intros Hlen Hfuel. destruct pc as [p |]; [| simpl; eauto].
  unfold getPossibleMoves. cbv zeta.
  repeat match goal with
         | |- context [if ?b then _ else _] => destruct b
         end;
    try (eexists; reflexivity);
    apply inOrder_returns; destruct (owner p); split_steps;
    intros m;
    first [ eexists; reflexivity
          | apply add_returns; exact Hlen
          | apply slideFrom_returns;
            [ exact Hlen | lia
            | intros Hb; apply inBounds_spec in Hb; simpl; lia ] ].
Qed.

Lemma add_extends board o r c m m' :
  add board o r c m = Returned m' -> incl m m'.
Proof.
  unfold add. destruct (inBounds r c); [| intros [= <-]; apply incl_refl].
  destruct (cellAt board r c) as [[q |] |]; [| | discriminate].
  - destruct (Player_eqb (owner q) o); intros [= <-];
      [apply incl_refl | apply incl_appl, incl_refl].
  - intros [= <-]. apply incl_appl, incl_refl.
Qed.

Lemma slideFrom_extends board o dr dc fuel : forall r c m m',
  slideFrom fuel board o r c dr dc m = Returned m' -> incl m m'.
Proof.
  induction fuel as [| fuel IH]; intros r c m m'; cbn [slideFrom];
    (destruct (inBounds r c); [| intros [= <-]; apply incl_refl]);
    [discriminate |].
  destruct (cellAt board r c) as [[q |] |]; [| | discriminate].
  - destruct (Player_eqb (owner q) o); intros [= <-];
      [apply incl_refl | apply incl_appl, incl_refl].
  - intros H. apply IH in H. intros x Hx. apply H, in_or_app. left. exact Hx.
Qed.

Lemma inOrder_extends gens :
  Forall (fun g : Gen => forall m m', g m = Returned m' -> incl m m') gens ->
  forall m m', inOrder gens m = Returned m' -> incl m m'.
Proof.
  induction 1 as [| g gens Hg _ IH]; intros m m'; cbn [inOrder].
  - intros [= <-]. apply incl_refl.
  - destruct (g m) as [m1 | |] eqn:E; try discriminate.
    intros H x Hx. apply (IH _ _ H). apply (Hg _ _ E). exact Hx.
Qed.

Lemma inOrder_reaches gens (g : Gen) sq :
  Forall (fun g : Gen => forall m m', g m = Returned m' -> incl m m') gens ->
  In g gens ->
  (forall m m', g m = Returned m' -> In sq m') ->
  forall m m', inOrder gens m = Returned m' -> In sq m'.
Proof.
  intros Hext Hin Hg. induction gens as [| g0 gens IH]; [contradiction |].
  intros m m'. cbn [inOrder].
  destruct (g0 m) as [m1 | |] eqn:E; try discriminate.
  intros H. inversion Hext as [| ? ? H0 Hrest]; subst.
  destruct Hin as [-> | Hin].
  - apply (inOrder_extends gens Hrest _ _ H). apply (Hg _ _ E).
  - apply (IH Hrest Hin _ _ H).
Qed.

Lemma slideFrom_reaches board o dr dc fuel : forall r c m m' k,
  slideFrom fuel board o r c dr dc m = Returned m' ->
  (0 <= k)%Z ->
  (forall j, (0 <= j < k)%Z ->
     inBounds (r + j * dr) (c + j * dc) = true /\
     cellAt board (r + j * dr) (c + j * dc) = Some None) ->
  inBounds (r + k * dr) (c + k * dc) = true ->
  (forall q, cellAt board (r + k * dr) (c + k * dc) = Some (Some q) -> owner q <> o) ->
  In (square (r + k * dr) (c + k * dc)) m'.
Proof.
  induction fuel as [| fuel IH]; intros r c m m' k; cbn [slideFrom];
    intros Hs Hk Hpath Hb Hown.
  - destruct (Z.eq_dec k 0%Z) as [-> | Hne].
    + rewrite !Z.mul_0_l, !Z.add_0_r in Hb. rewrite Hb in Hs. discriminate.
    + destruct (Hpath 0%Z) as [Hb0 _]; [lia |].
      rewrite !Z.mul_0_l, !Z.add_0_r in Hb0. rewrite Hb0 in Hs. discriminate.
  - destruct (Z.eq_dec k 0%Z) as [-> | Hne].
    + rewrite !Z.mul_0_l, !Z.add_0_r in *. rewrite Hb in Hs.
      destruct (cellAt board r c) as [[q |] |] eqn:Hc; [| | discriminate].
      * destruct (Player_eqb (owner q) o) eqn:Ho.
        -- exfalso. apply (Hown q eq_refl). apply Player_eqb_true. exact Ho.
        -- injection Hs as <-. apply in_or_app. right. left. reflexivity.
      * apply slideFrom_extends in Hs. apply Hs, in_or_app. right. left. reflexivity.
    + destruct (Hpath 0%Z) as [Hb0 Hc0]; [lia |].
      rewrite !Z.mul_0_l, !Z.add_0_r in Hb0, Hc0. rewrite Hb0, Hc0 in Hs.
      replace (r + k * dr)%Z with (r + dr + (k - 1) * dr)%Z in * by ring.
      replace (c + k * dc)%Z with (c + dc + (k - 1) * dc)%Z in * by ring.
      apply (IH _ _ _ _ _ Hs); [lia | | exact Hb | exact Hown].
      intros j Hj.
      replace (r + dr + j * dr)%Z with (r + (j + 1) * dr)%Z by ring.
      replace (c + dc + j * dc)%Z with (c + (j + 1) * dc)%Z by ring.
      apply Hpath. lia.
Qed.

Lemma addSlide_reaches fuel board o fromRow fromCol dr dc k sq :
  slides_to board fromRow fromCol dr dc k sq ->
  row sq < 9 -> col sq < 9 ->
  (forall cells q,
     nth_error board (row sq) = Some cells ->
     nth_error cells (col sq) = Some (Some q) -> owner q <> o) ->
  forall m m', addSlide fuel board o fromRow fromCol dr dc m = Returned m' ->
               In sq m'.
Proof.
  intros (Hk & Hr & Hc & Hpath) Hrow Hcol Hown m m' Hs. unfold addSlide in Hs.
  assert (Hsq : sq = square (fromRow + dr + (k - 1) * dr) (fromCol + dc + (k - 1) * dc)).
  { replace (fromRow + dr + (k - 1) * dr)%Z with (fromRow + k * dr)%Z by ring.
    replace (fromCol + dc + (k - 1) * dc)%Z with (fromCol + k * dc)%Z by ring.
    rewrite <- Hr, <- Hc. unfold square. rewrite !Nat2Z.id. destruct sq; reflexivity. }
  assert (Hb : inBounds (fromRow + dr + (k - 1) * dr) (fromCol + dc + (k - 1) * dc) = true).
  { replace (fromRow + dr + (k - 1) * dr)%Z with (fromRow + k * dr)%Z by ring.
    replace (fromCol + dc + (k - 1) * dc)%Z with (fromCol + k * dc)%Z by ring.
    apply inBounds_spec. lia. }
  rewrite Hsq. apply (slideFrom_reaches _ _ _ _ _ _ _ _ _ _ Hs); [lia | | exact Hb |].
  - intros j Hj.
    replace (fromRow + dr + j * dr)%Z with (fromRow + (j + 1) * dr)%Z by ring.
    replace (fromCol + dc + j * dc)%Z with (fromCol + (j + 1) * dc)%Z by ring.
    apply Hpath. lia.
  - intros q Hq. unfold cellAt in Hq.
    replace (fromRow + dr + (k - 1) * dr)%Z with (fromRow + k * dr)%Z in Hq by ring.
    replace (fromCol + dc + (k - 1) * dc)%Z with (fromCol + k * dc)%Z in Hq by ring.
    rewrite <- Hr, <- Hc, !Nat2Z.id in Hq.
    destruct (nth_error board (row sq)) as [cells |] eqn:Hcells; [| discriminate].
    destruct (nth_error cells (col sq)) as [[q' |] |] eqn:Hcell; try discriminate.
    injection Hq as ->. exact (Hown cells q eq_refl Hcell).
Qed.

Lemma add_reaches board o fromRow fromCol dr dc r c sq :
  r = (fromRow + dr)%Z -> c = (fromCol + dc)%Z ->
  slides_to board fromRow fromCol dr dc 1 sq ->
  row sq < 9 -> col sq < 9 ->
  (forall cells q,
     nth_error board (row sq) = Some cells ->
     nth_error cells (col sq) = Some (Some q) -> owner q <> o) ->
  forall m m', add board o r c m = Returned m' -> In sq m'.
Proof.
  intros -> -> (_ & Hr & Hc & _) Hrow Hcol Hown m m'.
  rewrite Z.mul_1_l in Hr, Hc.
  assert (Hsq : square (fromRow + dr) (fromCol + dc) = sq).
  { rewrite <- Hr, <- Hc. unfold square. rewrite !Nat2Z.id. destruct sq; reflexivity. }
  assert (Hb : inBounds (fromRow + dr) (fromCol + dc) = true).
  { apply inBounds_spec. lia. }
  assert (Hcell : forall q, cellAt board (fromRow + dr) (fromCol + dc) = Some (Some q) ->
                            owner q <> o).
  { intros q. unfold cellAt. rewrite <- Hr, <- Hc, !Nat2Z.id.
    destruct (nth_error board (row sq)) as [cells |] eqn:E1; [| discriminate].
    destruct (nth_error cells (col sq)) as [[q' |] |] eqn:E2; try discriminate.
    intros [= <-]. exact (Hown cells q' eq_refl E2). }
  unfold add. rewrite Hb, Hsq.
  destruct (cellAt board (fromRow + dr) (fromCol + dc)) as [[q |] |]; [| | discriminate].
  - destruct (Player_eqb (owner q) o) eqn:Eo.
    + exfalso. apply (Hcell q eq_refl). apply Player_eqb_true. exact Eo.
    + intros [= <-]. apply in_or_app. right. left. reflexivity.
  - intros [= <-]. apply in_or_app. right. left. reflexivity.
Qed.

Lemma inOrder_reaches_some gens sq :
  Forall (fun g : Gen => forall m m', g m = Returned m' -> incl m m') gens ->
  Exists (fun g : Gen => forall m m', g m = Returned m' -> In sq m') gens ->
  forall m m', inOrder gens m = Returned m' -> In sq m'.
Proof.
  intros Hext Hex. apply List.Exists_exists in Hex. destruct Hex as (g & Hin & Hg).
  exact (inOrder_reaches gens g sq Hext Hin Hg).
Qed.

Ltac extends_all :=
  unfold goldSteps, kingSteps, addSlide;
  cbn [map list_prod app fst snd Z.eqb andb];
  repeat first [ apply List.Forall_nil
               | apply List.Forall_cons;
                 [ first [ apply add_extends
                         | apply slideFrom_extends
                         | intros m m' [= <-]; apply incl_refl ] | ] ].

Ltac split_rule H :=
  vm_compute in H;
  repeat match type of H with
         | _ \/ _ => destruct H as [H | H]
         end;
  first [ contradiction | injection H as <- <- ].

(** X13. Every move the rules allow is returned: a square of the board that
    lies along one of the piece's sliding directions over squares of the
    board that hold no piece, or one of the piece's single steps away, and
    that holds no piece of the piece's owner, is among the squares
    [getPossibleMoves] returns. *)
Theorem rule_moves_are_returned fuel board fromRow fromCol p l dr dc k sq :
  getPossibleMoves fuel board fromRow fromCol (Some p) = Returned l ->
  In (dr, dc) (rays (piece p) (owner p)) \/
  (k = 1%Z /\ In (dr, dc) (steps (piece p) (owner p))) ->
  slides_to board fromRow fromCol dr dc k sq ->
  row sq < 9 -> col sq < 9 ->
  (forall cells q,
     nth_error board (row sq) = Some cells ->
     nth_error cells (col sq) = Some (Some q) -> owner q <> owner p) ->
  In sq l.
Proof.
  intros Hret Hrule Hto Hrow Hcol Hown.
  revert Hret Hrule. destruct p as [t o]. cbn [piece owner] in *.
  unfold getPossibleMoves, rays, steps. cbn [piece owner]. cbv zeta.
  repeat lazymatch goal with
         | |- context [String.eqb t ?x] =>
             destruct (String.eqb t x) eqn:E;
             [ apply String.eqb_eq in E; subst t;
               solve [ cbn [String.eqb Ascii.eqb Bool.eqb andb orb];
                       intros Hret Hrule; destruct o;
                       (refine (inOrder_reaches_some _ sq _ _ _ _ Hret);
                        [ extends_all | ]);
                       unfold goldSteps, kingSteps;
                       cbn [map list_prod app fst snd Z.eqb andb dir];
                       (destruct Hrule as [Hrule | [-> Hrule]]; split_rule Hrule);
                       repeat first
                         [ apply List.Exists_cons_hd;
                           solve [ apply (addSlide_reaches _ _ _ _ _ _ _ _ _
                                            Hto Hrow Hcol Hown)
                                 | eapply add_reaches;
                                   [ | | exact Hto | exact Hrow | exact Hcol
                                     | exact Hown ];
                                   lia ]
                         | apply List.Exists_cons_tl ] ]
             | clear E ]
         end.
  cbn [orb]. intros _ [[] | [_ []]].
Qed.

(** ** Promotion *)

Section PromotionFacts.

Variable normalizeDropPieceType : string -> option string.

(** X14. A drop is refused as a dead end on exactly the rows on which the
    same piece, moving there, has to promote: [isDeadEndDrop] on the base
    type agrees with [mustPromote]. *)
Theorem isDeadEndDrop_mustPromote t r o :
  isDeadEndDrop (baseType normalizeDropPieceType t) r o =
  mustPromote normalizeDropPieceType {| piece := t; owner := o |} r.
Proof.
  unfold isDeadEndDrop, mustPromote. cbn [piece owner].
  set (b := baseType normalizeDropPieceType t).
  destruct (String.eqb b "pawn") eqn:E1.
  { apply String.eqb_eq in E1. rewrite E1. cbn [String.eqb Ascii.eqb Bool.eqb andb orb].
    destruct o; [destruct (Nat.eqb r 0) | destruct (Nat.eqb r 8)]; reflexivity. }
  destruct (String.eqb b "lance") eqn:E2.
  { apply String.eqb_eq in E2. rewrite E2. cbn [String.eqb Ascii.eqb Bool.eqb andb orb].
    destruct o; [destruct (Nat.eqb r 0) | destruct (Nat.eqb r 8)]; reflexivity. }
  cbn [orb andb].
  destruct (String.eqb b "knight"); cbn [andb];
    destruct o; [destruct (Nat.leb r 1) | destruct (Nat.leb 7 r) | |]; reflexivity.
Qed.

Lemma forced_promotion_allowed p fromRow toRow :
  mustPromote normalizeDropPieceType p toRow = true ->
  isPromotedType (piece p) = false ->
  canPromote normalizeDropPieceType p fromRow toRow = true.
Proof.
  unfold mustPromote, canPromote, promotable. intros Hm Hp. rewrite Hp.
  set (b := baseType normalizeDropPieceType (piece p)) in *.
  assert (Hb : (b = "pawn" \/ b = "lance" \/ b = "knight") /\
               match owner p with SENTE => toRow <= 1 | GOTE => 7 <= toRow end).
  { destruct (owner p).
    - destruct ((String.eqb b "pawn" || String.eqb b "lance") && Nat.eqb toRow 0) eqn:E.
      + apply andb_true_iff in E. destruct E as [Eb Er].
        apply Nat.eqb_eq in Er. apply orb_true_iff in Eb.
        rewrite !String.eqb_eq in Eb. split; [tauto | lia].
      + destruct (String.eqb b "knight" && Nat.leb toRow 1) eqn:E'; [| discriminate].
        apply andb_true_iff in E'. destruct E' as [Eb Er].
        apply String.eqb_eq in Eb. apply Nat.leb_le in Er. split; [tauto | lia].
    - destruct ((String.eqb b "pawn" || String.eqb b "lance") && Nat.eqb toRow 8) eqn:E.
      + apply andb_true_iff in E. destruct E as [Eb Er].
        apply Nat.eqb_eq in Er. apply orb_true_iff in Eb.
        rewrite !String.eqb_eq in Eb. split; [tauto | lia].
      + destruct (String.eqb b "knight" && Nat.leb 7 toRow) eqn:E'; [| discriminate].
        apply andb_true_iff in E'. destruct E' as [Eb Er].
        apply String.eqb_eq in Eb. apply Nat.leb_le in Er. split; [tauto | lia]. }
  destruct Hb as [Hb Hr].
  assert (Hpr : String.eqb b "pawn" || String.eqb b "lance" || String.eqb b "knight"
                || String.eqb b "silver" || String.eqb b "bishop" || String.eqb b "rook"
                = true)
    by (destruct Hb as [-> | [-> | ->]]; reflexivity).
  rewrite Hpr. cbn [negb].
  destruct (owner p); apply orb_true_iff; right; apply Nat.leb_le; lia.
Qed.

End PromotionFacts.

(** ** Selecting a piece and committing a move *)

Import BoardUi BoardSamples.

Section CommitFacts.

Variable normalizeDropPieceType : string -> option string.
Variable buildUsiMove : nat -> nat -> nat -> nat -> bool -> option string.
Variable buildUsiDrop : string -> nat -> nat -> option string.

Lemma sendPlayMove_sent st ui usi ui' eff :
  sendPlayMove st ui usi = Done ui' eff -> eff <> [] ->
  ui' = clearSelection /\
  exists g u,
    usi = Some u /\ u <> "" /\ game st = Some g /\
    eff = sendWs st "node:play_move"
            [("from_node_id", idValue (current_node_id g)); ("move_usi", JStr u)].
Proof.
  unfold sendPlayMove. destruct usi as [u |]; [| intros [= <- <-]; contradiction].
  destruct (String.eqb u "") eqn:Eu; [intros [= <- <-]; contradiction |].
  destruct (game st) as [g |]; [| discriminate].
  intros [= <- <-] _. split; [reflexivity |].
  exists g, u. repeat split; try reflexivity.
  intros ->. discriminate.
Qed.

Lemma legal_square l toRow toCol :
  existsb (fun m => Nat.eqb (row m) toRow && Nat.eqb (col m) toCol) l = true ->
  In {| row := toRow; col := toCol |} l.
Proof.
  intros H. apply existsb_exists in H. destruct H as ([r c] & Hin & Hm).
  cbn [row col] in Hm. apply andb_true_iff in Hm. destruct Hm as [Hr Hc].
  apply Nat.eqb_eq in Hr. apply Nat.eqb_eq in Hc. subst. exact Hin.
Qed.

Lemma commitMove_sent st ui toRow toCol parsed ui' eff :
  commitMove normalizeDropPieceType buildUsiMove buildUsiDrop
    st ui toRow toCol parsed = Done ui' eff ->
  eff <> [] ->
  In {| row := toRow; col := toCol |} (legal ui) /\
  ui' = clearSelection /\
  exists g id u,
    game st = Some g /\ current_node_id g = Some id /\ id <> "" /\ u <> "" /\
    eff = sendWs st "node:play_move"
            [("from_node_id", JStr id); ("move_usi", JStr u)] /\
    match selection ui with
    | Some (SelBoard fromRow fromCol _ _) =>
        exists promote, buildUsiMove fromRow fromCol toRow toCol promote = Some u
    | Some (SelHand _ pieceType) => buildUsiDrop pieceType toRow toCol = Some u
    | None => False
    end.
Proof.
  unfold commitMove. intros H Heff.
  destruct (selection ui) as [sel |]; [| injection H as <- <-; contradiction].
  destruct (game st) as [g |] eqn:Hg; [| injection H as <- <-; contradiction].
  destruct (current_node_id g) as [id |] eqn:Hid;
    [| injection H as <- <-; contradiction].
  cbn [truthy_id] in H.
  destruct (String.eqb id "") eqn:Eid; [injection H as <- <-; contradiction |].
  cbn [negb] in H.
  destruct (existsb _ (legal ui)) eqn:Hl; [| injection H as <- <-; contradiction].
  cbn [negb] in H. apply legal_square in Hl. split; [exact Hl |].
  assert (Hsend : forall usi,
            sendPlayMove st ui usi = Done ui' eff ->
            ui' = clearSelection /\
            exists u, usi = Some u /\ u <> "" /\
              eff = sendWs st "node:play_move"
                      [("from_node_id", JStr id); ("move_usi", JStr u)]).
  { intros usi Hs. destruct (sendPlayMove_sent _ _ _ _ _ Hs Heff)
      as (-> & g' & u & -> & Hu & Hg' & ->).
    rewrite Hg in Hg'. injection Hg' as <-. rewrite Hid. cbn [idValue].
    split; [reflexivity |]. exists u. auto. }
  assert (Hid' : id <> "") by (intros ->; discriminate).
  destruct sel as [fromRow fromCol o t | o t].
  - destruct (nth_error (board parsed) fromRow) as [cells |]; [| discriminate].
    destruct (nth_error cells fromCol) as [[pc |] |];
      try (injection H as <- <-; contradiction).
    destruct (canPromote normalizeDropPieceType pc fromRow toRow).
    + destruct (mustPromote normalizeDropPieceType pc toRow); [| discriminate].
      destruct (Hsend _ H) as (-> & u & Hu & Hne & ->).
      split; [reflexivity |]. exists g, id, u. repeat split; auto. eauto.
    + destruct (Hsend _ H) as (-> & u & Hu & Hne & ->).
      split; [reflexivity |]. exists g, id, u. repeat split; auto. eauto.
  - destruct (Hsend _ H) as (-> & u & Hu & Hne & ->).
    split; [reflexivity |]. exists g, id, u. repeat split; auto.
Qed.

Lemma commitMove_asks st ui toRow toCol parsed ui0 fromRow fromCol toRow' toCol' :
  commitMove normalizeDropPieceType buildUsiMove buildUsiDrop
    st ui toRow toCol parsed = Asks ui0 fromRow fromCol toRow' toCol' ->
  ui0 = ui /\ toRow' = toRow /\ toCol' = toCol /\
  In {| row := toRow; col := toCol |} (legal ui) /\
  (exists g id, game st = Some g /\ current_node_id g = Some id /\ id <> "") /\
  exists o t, selection ui = Some (SelBoard fromRow fromCol o t).
Proof.
  unfold commitMove. intros H.
  destruct (selection ui) as [sel |]; [| discriminate].
  destruct (game st) as [g |] eqn:Hg; [| discriminate].
  destruct (current_node_id g) as [id |] eqn:Hid; [| discriminate].
  cbn [truthy_id] in H.
  destruct (String.eqb id "") eqn:Eid; [discriminate |]. cbn [negb] in H.
  destruct (existsb _ (legal ui)) eqn:Hl; [| discriminate]. cbn [negb] in H.
  apply legal_square in Hl.
  assert (Hns : forall usi, sendPlayMove st ui usi <> Asks ui0 fromRow fromCol toRow' toCol').
  { intros usi. unfold sendPlayMove. destruct usi as [u |]; [| discriminate].
    destruct (String.eqb u ""); [discriminate |]. rewrite Hg. discriminate. }
  destruct sel as [fr fc o t | o t]; [| exfalso; exact (Hns _ H)].
  destruct (nth_error (board parsed) fr) as [cells |]; [| discriminate].
  destruct (nth_error cells fc) as [[pc |] |]; try discriminate.
  destruct (canPromote normalizeDropPieceType pc fr toRow);
    [| exfalso; exact (Hns _ H)].
  destruct (mustPromote normalizeDropPieceType pc toRow);
    [exfalso; exact (Hns _ H) |].
  injection H as <- <- <- <- <-.
  repeat split; auto.
  - exists g, id. repeat split; auto. intros ->. discriminate.
  - eauto.
Qed.

Lemma commitMoveWhole_sent st ui toRow toCol parsed later answer ui' eff :
  commitMoveWhole normalizeDropPieceType buildUsiMove buildUsiDrop
    st ui toRow toCol parsed later answer = Done ui' eff ->
  eff <> [] ->
  In {| row := toRow; col := toCol |} (legal ui) /\
  ui' = clearSelection /\
  (exists g0 id0, game st = Some g0 /\ current_node_id g0 = Some id0 /\ id0 <> "") /\
  exists sender g u,
    ((sender = st /\
      commitMove normalizeDropPieceType buildUsiMove buildUsiDrop
        st ui toRow toCol parsed = Done ui' eff) \/
     (sender = fst later /\
      exists fromRow fromCol promote,
        commitMove normalizeDropPieceType buildUsiMove buildUsiDrop
          st ui toRow toCol parsed = Asks ui fromRow fromCol toRow toCol /\
        answer = Some promote)) /\
    game sender = Some g /\ u <> "" /\
    eff = sendWs sender "node:play_move"
            [("from_node_id", idValue (current_node_id g)); ("move_usi", JStr u)] /\
    match selection ui with
    | Some (SelBoard fromRow fromCol _ _) =>
        exists promote, buildUsiMove fromRow fromCol toRow toCol promote = Some u
    | Some (SelHand _ pieceType) => buildUsiDrop pieceType toRow toCol = Some u
    | None => False
    end.
Proof.
  unfold commitMoveWhole. intros H Heff.
  destruct (commitMove normalizeDropPieceType buildUsiMove buildUsiDrop
              st ui toRow toCol parsed) as [ui1 eff1 | ui1 | | ui0 fr fc tr tc] eqn:Hc;
    try discriminate.
  - injection H as -> ->.
    destruct (commitMove_sent _ _ _ _ _ _ _ Hc Heff)
      as (Hin & -> & g & id & u & Hg & Hid & Hne & Hu & -> & Hsel).
    split; [exact Hin |]. split; [reflexivity |].
    split; [exists g, id; auto |].
    exists st, g, u. rewrite Hid. cbn [idValue]. repeat split; auto.
  - destruct (commitMove_asks _ _ _ _ _ _ _ _ _ _ Hc)
      as (-> & -> & -> & Hin & Hgame & o & t & Hsel).
    unfold commitMoveAnswered in H.
    destruct answer as [promote |]; [| injection H as <- <-; contradiction].
    destruct (sendPlayMove_sent _ _ _ _ _ H Heff) as (-> & g & u & Hu & Hne & Hg & ->).
    split; [exact Hin |]. split; [reflexivity |]. split; [exact Hgame |].
    exists (fst later), g, u. rewrite Hsel. repeat split; auto.
    + right. split; [reflexivity |]. exists fr, fc, promote. auto.
    + eauto.
Qed.

(** X15. Whenever [commitMove] puts something on the socket, before or after
    the promotion dialog: the destination was in [state.legal] and the game
    had a non-empty current node id when it was called; the selection is
    cleared; and what it sends is the [node:play_move] frame with the
    non-empty move string built for the selection of the call and with the
    current node id that [state.game] has when the frame is sent, which is
    the state of the call without the dialog and the state at the answer
    with it. *)
Theorem commitMove_sends_only_legal st ui toRow toCol parsed later answer ui' eff :
  commitMoveWhole normalizeDropPieceType buildUsiMove buildUsiDrop
    st ui toRow toCol parsed later answer = Done ui' eff ->
  eff <> [] ->
  In {| row := toRow; col := toCol |} (legal ui) /\
  ui' = clearSelection /\
  (exists g0 id0, game st = Some g0 /\ current_node_id g0 = Some id0 /\ id0 <> "") /\
  exists sender g u,
    ((sender = st /\
      commitMove normalizeDropPieceType buildUsiMove buildUsiDrop
        st ui toRow toCol parsed = Done ui' eff) \/
     (sender = fst later /\
      exists fromRow fromCol promote,
        commitMove normalizeDropPieceType buildUsiMove buildUsiDrop
          st ui toRow toCol parsed = Asks ui fromRow fromCol toRow toCol /\
        answer = Some promote)) /\
    game sender = Some g /\ u <> "" /\
    eff = sendWs sender "node:play_move"
            [("from_node_id", idValue (current_node_id g)); ("move_usi", JStr u)] /\
    match selection ui with
    | Some (SelBoard fromRow fromCol _ _) =>
        exists promote, buildUsiMove fromRow fromCol toRow toCol promote = Some u
    | Some (SelHand _ pieceType) => buildUsiDrop pieceType toRow toCol = Some u
    | None => False
    end.
Proof. exact (commitMoveWhole_sent st ui toRow toCol parsed later answer ui' eff). Qed.

(** X16. After [selectBoardSquare] by the owner whose turn it is,
    [commitMove] sends a move, before or after the promotion dialog, only to
    a square that [getPossibleMoves] returned for the selected piece on the
    board of the selection, whatever the session and the board are by
    then. *)
Theorem board_move_sent_only_if_possible fuel st ui0 fromRow fromCol pc parsed
    ui1 eff1 st' parsed' later answer toRow toCol ui2 eff2 :
  isOwner st = true ->
  currentPlayer parsed = Some (owner pc) ->
  selectBoardSquare fuel st ui0 fromRow fromCol pc parsed = Done ui1 eff1 ->
  commitMoveWhole normalizeDropPieceType buildUsiMove buildUsiDrop
    st' ui1 toRow toCol parsed' later answer = Done ui2 eff2 ->
  eff2 <> [] ->
  eff1 = [] /\
  exists l,
    getPossibleMoves fuel (board parsed) (Z.of_nat fromRow) (Z.of_nat fromCol) (Some pc)
      = Returned l /\
    In {| row := toRow; col := toCol |} l.
Proof.
  intros Ho Hturn Hsel Hc Heff. unfold selectBoardSquare in Hsel.
  rewrite Ho, Hturn in Hsel. cbn [negb] in Hsel.
  assert (Hp : Player_eqb (owner pc) (owner pc) = true) by (destruct (owner pc); reflexivity).
  rewrite Hp in Hsel. cbn [negb] in Hsel.
  destruct (getPossibleMoves fuel (board parsed) (Z.of_nat fromRow) (Z.of_nat fromCol)
              (Some pc)) as [l | |]; try discriminate.
  injection Hsel as <- <-. split; [reflexivity |]. exists l. split; [reflexivity |].
  exact (proj1 (commitMoveWhole_sent _ _ _ _ _ _ _ _ _ Hc Heff)).
Qed.

(** X17. After [selectHand] by the owner whose turn it is, [commitMove]
    sends a drop only on a square that [getDropMoves] returned for the
    selected piece on the board of the selection, and the move string is
    the one [buildUsiDrop] gives for that piece and square. *)
Theorem drop_sent_only_if_listed st ui0 o pieceType parsed
    ui1 eff1 st' parsed' toRow toCol ui2 eff2 :
  isOwner st = true ->
  currentPlayer parsed = Some o ->
  selectHand normalizeDropPieceType st ui0 o pieceType parsed = Done ui1 eff1 ->
  commitMove normalizeDropPieceType buildUsiMove buildUsiDrop
    st' ui1 toRow toCol parsed' = Done ui2 eff2 ->
  eff2 <> [] ->
  eff1 = [] /\
  (exists l,
     getDropMoves normalizeDropPieceType (board parsed) pieceType o = Some l /\
     In {| row := toRow; col := toCol |} l) /\
  exists id u,
    buildUsiDrop pieceType toRow toCol = Some u /\
    eff2 = sendWs st' "node:play_move"
             [("from_node_id", JStr id); ("move_usi", JStr u)].
Proof.
  intros Ho Hturn Hsel Hc Heff. unfold selectHand in Hsel.
  rewrite Ho, Hturn in Hsel. cbn [negb] in Hsel.
  assert (Hp : Player_eqb o o = true) by (destruct o; reflexivity).
  rewrite Hp in Hsel. cbn [negb] in Hsel.
  destruct (getDropMoves normalizeDropPieceType (board parsed) pieceType o)
    as [l |]; try discriminate.
  injection Hsel as <- <-.
  destruct (commitMove_sent _ _ _ _ _ _ _ Hc Heff)
    as (Hin & _ & g & id & u & _ & _ & _ & _ & -> & Hu).
  cbn [selection legal] in *.
  split; [reflexivity |]. split; [exists l; auto |]. exists id, u. auto.
Qed.

(** X18. When the selected piece is not promoted yet and has to promote on
    the destination row, [commitMove] does not ask: it does nothing, or it
    ends as the send of the promoting move does. *)
Theorem forced_promotion_is_sent st ui toRow toCol parsed
    fromRow fromCol o t cells pc :
  selection ui = Some (SelBoard fromRow fromCol o t) ->
  nth_error (board parsed) fromRow = Some cells ->
  nth_error cells fromCol = Some (Some pc) ->
  isPromotedType (piece pc) = false ->
  mustPromote normalizeDropPieceType pc toRow = true ->
  commitMove normalizeDropPieceType buildUsiMove buildUsiDrop
    st ui toRow toCol parsed = Done ui [] \/
  commitMove normalizeDropPieceType buildUsiMove buildUsiDrop
    st ui toRow toCol parsed =
    sendPlayMove st ui (buildUsiMove fromRow fromCol toRow toCol true).
Proof.
  intros Hsel Hrow Hcell Hp Hm. unfold commitMove. rewrite Hsel.
  destruct (negb (truthy_id _)); [left; reflexivity |].
  destruct (negb (existsb _ (legal ui))); [left; reflexivity |].
  rewrite Hrow, Hcell, Hm.
  rewrite (forced_promotion_allowed normalizeDropPieceType pc fromRow toRow Hm Hp).
  right. reflexivity.
Qed.

End CommitFacts.

(** ** The theorems above at the positions of the examples *)

Lemma getPossibleMoves_sound_witness :
  2 < 9 /\ 4 < 9 /\
  (Z.of_nat 2, Z.of_nat 4) <> (4%Z, 4%Z) /\
  forall cells q,
    nth_error rook_board 2 = Some cells ->
    nth_error cells 4 = Some (Some q) -> owner q <> SENTE.
Proof.
  apply (getPossibleMoves_sound 9 rook_board 4 4 {| piece := "rook"; owner := SENTE |}
           (legal rook_selected) {| row := 2; col := 4 |}).
  - vm_compute. reflexivity.
  - vm_compute. do 2 right. left. reflexivity.
Defined.

Lemma moves_follow_rules_witness :
  exists dr dc k,
    slides_to rook_board 4 4 dr dc k {| row := 2; col := 4 |} /\
    (In (dr, dc) (rays "rook" SENTE) \/
     (k = 1%Z /\ In (dr, dc) (steps "rook" SENTE))).
Proof.
  apply (moves_follow_rules 9 rook_board 4 4 {| piece := "rook"; owner := SENTE |}
           (legal rook_selected) {| row := 2; col := 4 |}).
  - vm_compute. reflexivity.
  - vm_compute. do 2 right. left. reflexivity.
Defined.

Lemma getPossibleMoves_returns_witness :
  exists l,
    getPossibleMoves 9 rook_board 4 4 (Some {| piece := "rook"; owner := SENTE |})
      = Returned l.
Proof.
  apply (getPossibleMoves_returns 9 rook_board 4 4
           (Some {| piece := "rook"; owner := SENTE |})).
  - vm_compute. lia.
  - lia.
Defined.

Lemma rook_slides_up : slides_to rook_board 4 4 (-1) 0 2 {| row := 2; col := 4 |}.
Proof.
  unfold slides_to. cbn [row col]. repeat split; try lia.
  - assert (j = 1%Z) as -> by lia. reflexivity.
  - assert (j = 1%Z) as -> by lia. reflexivity.
Qed.

Lemma rule_moves_are_returned_witness :
  In {| row := 2; col := 4 |} (legal rook_selected).
Proof.
  apply (rule_moves_are_returned 9 rook_board 4 4 {| piece := "rook"; owner := SENTE |}
           (legal rook_selected) (-1) 0 2 {| row := 2; col := 4 |}).
  - vm_compute. reflexivity.
  - left. vm_compute. right. left. reflexivity.
  - exact rook_slides_up.
  - cbn [row]. lia.
  - cbn [col]. lia.
  - cbn [row col owner]. intros cells q [= <-] [= <-]. discriminate.
Defined.

Example commitMove_after_dialog :
  effects_of rook_promoted =
    [Sent {| f_type := "node:play_move";
             f_payload := [("from_node_id", JStr "n1"); ("move_usi", JStr "5e5c+")];
             f_session_id := Some (JStr "S1");
             f_owner_token := Some (JStr "T1") |}] /\
  effects_of rook_promoted_late =
    [Sent {| f_type := "node:play_move";
             f_payload := [("from_node_id", JNull); ("move_usi", JStr "5e5c+")];
             f_session_id := Some (JStr "S1");
             f_owner_token := Some (JStr "T1") |}].
Proof. vm_compute. split; reflexivity. Qed.

Lemma commitMove_sends_only_legal_witness :
  In {| row := 2; col := 4 |} (legal rook_selected) /\
  ui_of rook_promoted_late = clearSelection /\
  (exists g0 id0,
     game playing_state = Some g0 /\ current_node_id g0 = Some id0 /\ id0 <> "") /\
  exists sender g u,
    ((sender = playing_state /\
      commitMove sample_normalize sample_buildUsiMove sample_buildUsiDrop
        playing_state rook_selected 2 4 rook_position =
        Done (ui_of rook_promoted_late) (effects_of rook_promoted_late)) \/
     (sender = fst (with_game playing_state (Some game_without_cursor), rook_selected) /\
      exists fromRow fromCol promote,
        commitMove sample_normalize sample_buildUsiMove sample_buildUsiDrop
          playing_state rook_selected 2 4 rook_position =
          Asks rook_selected fromRow fromCol 2 4 /\
        Some true = Some promote)) /\
    game sender = Some g /\ u <> "" /\
    effects_of rook_promoted_late =
      sendWs sender "node:play_move"
        [("from_node_id", idValue (current_node_id g)); ("move_usi", JStr u)] /\
    match selection rook_selected with
    | Some (SelBoard fromRow fromCol _ _) =>
        exists promote, sample_buildUsiMove fromRow fromCol 2 4 promote = Some u
    | Some (SelHand _ pieceType) => sample_buildUsiDrop pieceType 2 4 = Some u
    | None => False
    end.
Proof.
  apply (commitMove_sends_only_legal sample_normalize sample_buildUsiMove
           sample_buildUsiDrop playing_state rook_selected 2 4 rook_position
           (with_game playing_state (Some game_without_cursor), rook_selected)
           (Some true)).
  - vm_compute. reflexivity.
  - vm_compute. discriminate.
Defined.

Lemma board_move_sent_only_if_possible_witness :
  @nil effect = [] /\
  exists l,
    getPossibleMoves 9 (board rook_position) (Z.of_nat 4) (Z.of_nat 4)
      (Some {| piece := "rook"; owner := SENTE |}) = Returned l /\
    In {| row := 2; col := 4 |} l.
Proof.
  apply (board_move_sent_only_if_possible sample_normalize sample_buildUsiMove
           sample_buildUsiDrop 9 playing_state clearSelection 4 4
           {| piece := "rook"; owner := SENTE |} rook_position
           rook_selected [] playing_state rook_position
           (playing_state, rook_selected) (Some true) 2 4
           (ui_of rook_promoted) (effects_of rook_promoted)).
  - reflexivity.
  - reflexivity.
  - vm_compute. reflexivity.
  - vm_compute. reflexivity.
  - vm_compute. discriminate.
Defined.

Lemma drop_sent_only_if_listed_witness :
  @nil effect = [] /\
  (exists l,
     getDropMoves sample_normalize (board drop_position) "pawn" SENTE = Some l /\
     In {| row := 4; col := 4 |} l) /\
  exists id u,
    sample_buildUsiDrop "pawn" 4 4 = Some u /\
    effects_of pawn_dropped =
      sendWs playing_state "node:play_move"
        [("from_node_id", JStr id); ("move_usi", JStr u)].
Proof.
  apply (drop_sent_only_if_listed sample_normalize sample_buildUsiMove
           sample_buildUsiDrop playing_state clearSelection SENTE "pawn" drop_position
           pawn_in_hand [] playing_state drop_position 4 4
           (ui_of pawn_dropped) (effects_of pawn_dropped)).
  - reflexivity.
  - reflexivity.
  - vm_compute. reflexivity.
  - vm_compute. reflexivity.
  - vm_compute. discriminate.
Defined.

Lemma forced_promotion_is_sent_witness :
  commitMove sample_normalize sample_buildUsiMove sample_buildUsiDrop
    playing_state pawn_selected 0 8 rook_position = Done pawn_selected [] \/
  commitMove sample_normalize sample_buildUsiMove sample_buildUsiDrop
    playing_state pawn_selected 0 8 rook_position =
    sendPlayMove playing_state pawn_selected (sample_buildUsiMove 1 8 0 8 true).
Proof.
  apply (forced_promotion_is_sent sample_normalize sample_buildUsiMove
           sample_buildUsiDrop playing_state pawn_selected 0 8 rook_position
           1 8 SENTE "pawn"
           [None; None; None; None; None; None; None; None; sente "pawn"]
           {| piece := "pawn"; owner := SENTE |}).
  - reflexivity.
  - reflexivity.
  - reflexivity.
  - reflexivity.
  - reflexivity.
Defined.
